(** * WaveSpace: multivariate empirical mode decomposition

    A shallow embedding of [Modules/Decomposition/MEMD_Matlab_translation.py].

    Conventions of the embedding.
    - A float is a real number ([R]): arithmetic is exact, there is no NaN
      and no rounding.
    - A Python [int] is a [Z]; array lengths and loop ranges are [nat].
    - A 1-D array is a [list]; a 2-D array is the list of its rows ([mat]).
      An [(N,1)] column array (a projected signal [y]) is kept as the list
      of its [N] entries, except inside [local_peaks], where the source
      changes the orientation of the array and the rows are written out.
    - A function that can raise returns a [result]; the two [while] loops
      of [memd] and the one of [hamm] take fuel and return [None] when it
      runs out. [nth_prime] returns an [option]: Python's [None] or the
      list.
    - What lives outside the repository is a Section variable:
      [scipy.interpolate.CubicSpline], [chaospy.create_halton_samples] and
      the one numpy call whose outcome depends on the numpy release. *)

From Stdlib Require Import String Reals Lra Lia ZArith Bool List Sorted
  Permutation.
Import ListNotations.

Open Scope Z_scope.
Open Scope R_scope.

(** ** Python values and exceptions *)

Inductive exn : Type :=
| IndexError
| ValueError
| TypeError
| AttributeError
| SystemExit (msg : string).

Inductive result (A : Type) : Type :=
| Ok (a : A)
| Raise (e : exn).
Arguments Ok {A} a.
Arguments Raise {A} e.

Definition bind {A B : Type} (r : result A) (k : A -> result B) : result B :=
  match r with
  | Ok a => k a
  | Raise e => Raise e
  end.

Notation "x <- c ;; k" := (bind c (fun x => k))
  (at level 61, c at next level, right associativity).
Notation "' p <- c ;; k" := (bind c (fun p => k))
  (at level 61, p pattern, c at next level, right associativity).

Fixpoint mapM {A B : Type} (f : A -> result B) (l : list A) : result (list B) :=
  match l with
  | [] => Ok []
  | a :: l' => b <- f a ;; bs <- mapM f l' ;; Ok (b :: bs)
  end.

(** What [memd] writes to the outside: a warning through the [warnings]
    module, or a line on standard output. *)
Inductive diagnostic : Type :=
| Warning (msg : string)
| Printed (msg : string).

(** The values [memd] passes as the [category] of a warning. *)
Inductive pyobj : Type :=
| PyStr (s : string)
| PyWarningClass (name : string).

(** [warnings.warn(message, category)]: the category has to be a subclass
    of [Warning], anything else is a [TypeError]. *)
Definition warnings_warn (message : string) (category : pyobj)
  (log : list diagnostic) : result (list diagnostic) :=
  match category with
  | PyWarningClass _ => Ok (log ++ [Warning message])
  | PyStr _ => Raise TypeError
  end.

(** Attribute lookup on the module [warnings]. *)
Definition warnings_getattr (name : string)
  : result (string -> pyobj -> list diagnostic -> result (list diagnostic)) :=
  if String.eqb name "warn" then Ok warnings_warn else Raise AttributeError.

(** ** Comparisons of floats *)

Definition Rltb (a b : R) : bool := if Rlt_dec a b then true else false.
Definition Reqb (a b : R) : bool := if Req_dec_T a b then true else false.

(** ** Lists as arrays *)

Definition len {A : Type} (l : list A) : Z := Z.of_nat (length l).

(** [l[i]] for an integer [i]: negative indices count from the end. *)
Definition getitem {A : Type} (l : list A) (i : Z) : result A :=
  let j := if (i <? 0)%Z then (i + len l)%Z else i in
  if (j <? 0)%Z then Raise IndexError
  else match nth_error l (Z.to_nat j) with
       | Some a => Ok a
       | None => Raise IndexError
       end.

(** [l[idx]] for an integer array [idx]. *)
Definition take {A : Type} (l : list A) (idx : list Z) : result (list A) :=
  mapM (getitem l) idx.

Definition slice_bound (n i : Z) : Z :=
  if (i <? 0)%Z then Z.max (i + n) 0 else Z.min i n.

(** [l[lo:hi]], [l[lo:]] and [l[:hi]]. *)
Definition slice {A : Type} (l : list A) (lo hi : Z) : list A :=
  let a := slice_bound (len l) lo in
  let b := slice_bound (len l) hi in
  firstn (Z.to_nat (b - a)) (skipn (Z.to_nat a) l).

Definition slice_from {A : Type} (l : list A) (lo : Z) : list A :=
  slice l lo (len l).

Definition slice_to {A : Type} (l : list A) (hi : Z) : list A :=
  slice l 0 hi.

(** In-place [l[i] = v] for an index that the caller keeps in range; out
    of range nothing is written. *)
Fixpoint set_nth {A : Type} (l : list A) (i : nat) (v : A) : list A :=
  match l, i with
  | [], _ => []
  | _ :: l', O => v :: l'
  | a :: l', S i' => a :: set_nth l' i' v
  end.

Definition set_item {A : Type} (l : list A) (i : Z) (v : A) : list A :=
  if (i <? 0)%Z then l else set_nth l (Z.to_nat i) v.

Fixpoint zip_with {A B C : Type} (f : A -> B -> C) (l : list A) (l' : list B)
  : list C :=
  match l, l' with
  | a :: t, b :: t' => f a b :: zip_with f t t'
  | _, _ => []
  end.

Fixpoint enumerate_from {A : Type} (i : Z) (l : list A) : list (Z * A) :=
  match l with
  | [] => []
  | a :: l' => (i, a) :: enumerate_from (i + 1)%Z l'
  end.

(** [np.where(b)[0]] for a 1-D boolean array. *)
Definition np_where (b : list bool) : list Z :=
  map fst (filter snd (enumerate_from 0%Z b)).

(** [np.where(b)[0]] for a 2-D boolean array: the row index of every true
    entry, in row-major order. *)
Definition np_where_rows (b : list (list bool)) : list Z :=
  flat_map (fun ir => map (fun _ => fst ir) (filter (fun c => c) (snd ir)))
           (enumerate_from 0%Z b).

Definition np_diff (l : list R) : list R := zip_with Rminus (tl l) l.
Definition np_diffZ (l : list Z) : list Z := zip_with Z.sub (tl l) l.

Fixpoint cumsum_from (acc : R) (l : list R) : list R :=
  match l with
  | [] => []
  | a :: l' => (acc + a) :: cumsum_from (acc + a) l'
  end.

Definition np_cumsum (l : list R) : list R :=
  match l with
  | [] => []
  | a :: l' => a :: cumsum_from a l'
  end.

Definition np_sum (l : list R) : R := fold_right Rplus 0 l.
Definition np_prod (l : list R) : R := fold_right Rmult 1 l.

Definition np_sign (v : R) : R :=
  if Rltb 0 v then 1 else if Rltb v 0 then -1 else 0.

Fixpoint insert_sorted (v : Z) (l : list Z) : list Z :=
  match l with
  | [] => [v]
  | a :: l' => if (v <=? a)%Z then v :: l else a :: insert_sorted v l'
  end.

Definition np_sort (l : list Z) : list Z := fold_right insert_sorted [] l.

(** ** Matrices *)

Definition mat : Type := list (list R).

Definition zeros1 (n : nat) : list R := repeat 0 n.
Definition zeros (n k : nat) : mat := repeat (zeros1 k) n.

Definition ncols (M : mat) : nat := length (hd [] M).

Definition transpose (M : mat) : mat :=
  map (fun j => map (fun row => nth j row 0) M) (seq 0 (ncols M)).

Definition mat_add (A B : mat) : mat := zip_with (zip_with Rplus) A B.
Definition mat_sub (A B : mat) : mat := zip_with (zip_with Rminus) A B.
Definition mat_scale (f : R -> R) (A : mat) : mat := map (map f) A.

(** [np.dot(m, dir_vec)] for an [(N,N_dim)] array and an [(N_dim,1)]
    column: the [(N,1)] column of the row products. *)
Definition dot_row (row d : list R) : R := np_sum (zip_with Rmult row d).
Definition np_dot (m : mat) (d : list R) : list R :=
  map (fun row => dot_row row d) m.

(** [np.max(np.abs(m))]: numpy refuses an array without entries. *)
Definition np_max_abs (m : mat) : result R :=
  match concat m with
  | [] => Raise ValueError
  | v :: vs => Ok (fold_left Rmax (map Rabs vs) (Rabs v))
  end.

(** ** Direction vectors *)

(** [np.arctan2(y, x)]. *)
Definition arctan2 (y x : R) : R :=
  if Rltb 0 x then atan (y / x)
  else if Rltb x 0 then
         (if Rltb y 0 then atan (y / x) - PI else atan (y / x) + PI)
       else if Rltb 0 y then PI / 2
            else if Rltb y 0 then - (PI / 2) else 0.

(** [make_dir_vectors(seq, it, N_dim, dir_vec)]; [N_dim >= 1], the only
    case in which the writes of the source stay inside [dir_vec].
    [b[:0:-1]] is the reversed tail of [b]. *)
Definition make_dir_vectors (seq : mat) (it : nat) (N_dim : nat)
  (dir_vec : list R) : list R :=
  let b := map (fun s => 2 * s - 1) (nth it seq []) in
  let tht :=
    zip_with arctan2
      (map sqrt (rev (np_cumsum (map (fun v => v * v) (rev (tl b))))))
      (slice_to b (Z.of_nat N_dim - 1)) in
  let dir_vec := set_item dir_vec 0 1 in
  let dir_vec :=
    fold_left
      (fun dv i =>
         set_item dv (Z.of_nat i)
           (sin (nth (i - 1) tht 0)
            * np_prod (map cos (slice_to tht (Z.of_nat i - 1)))))
      (List.seq 1 (N_dim - 1)) dir_vec in
  set_item dir_vec (Z.of_nat N_dim - 1) (np_prod (map cos tht)).

(** The trivariate branch that [envelope_mean] and [stop_emd] both carry:
    two angles from the first two coordinates of the sample point. A
    sample point or a coordinate that the array does not have reads as 0
    here, where numpy raises [IndexError]; the [(ndir, N_dim)] array that
    [memd] passes has them all. *)
Definition trivariate_dir_vec (seq : mat) (it : nat) (dir_vec : list R)
  : list R :=
  let tt := 2 * nth 0 (nth it seq []) 0 - 1 in
  let tt := if Rltb 1 tt then 1 else if Rltb tt (-1) then -1 else tt in
  let phirad := nth 1 (nth it seq []) 0 * 2 * PI in
  let st := sqrt (1 - tt * tt) in
  let dir_vec := set_item dir_vec 0 (st * cos phirad) in
  let dir_vec := set_item dir_vec 1 (st * sin phirad) in
  set_item dir_vec 2 tt.

(** The [if N_dim != 3: ... else: ...] that opens the direction loop of
    [envelope_mean] and of [stop_emd]. *)
Definition next_dir_vec (seq : mat) (it : nat) (N_dim : nat)
  (dir_vec : list R) : list R :=
  if negb (Nat.eqb N_dim 3) then make_dir_vectors seq it N_dim dir_vec
  else trivariate_dir_vec seq it dir_vec.

Definition sum_squares (v : list R) : R := np_sum (map (fun c => c * c) v).

(** ** Extrema detector *)

(** [peaks(X)] for a 2-D array [X]: [(pks_max, locs_max)]. *)
Definition peaks (X : mat) : mat * list Z :=
  let dX := transpose (map (fun r => map np_sign (np_diff r)) (transpose X)) in
  let locs_max :=
    map (fun i => (i + 1)%Z)
      (np_where_rows
         (zip_with (zip_with andb)
            (map (map (fun d => Rltb 0 d)) (slice_to dX (-1)))
            (map (map (fun d => Rltb d 0)) (slice_from dX 1)))) in
  (map (fun i => nth (Z.to_nat i) X []) locs_max, locs_max).

(** [local_peaks(x)] for the [(N,1)] column [y]: [(indmin, indmax)].
    The replacement array of the first branch has shape [(1, len(x))]:
    one row. *)
Definition local_peaks (y : list R) : list Z * list Z :=
  let x : mat :=
    if forallb (fun v => Rltb v (1 / 100000)) y
    then [zeros1 (length y)]
    else map (fun v => [v]) y in
  let m := (len x - 1)%Z in
  let dy := transpose (map np_diff (transpose x)) in
  let a := np_where_rows (map (map (fun d => negb (Reqb d 0))) dy) in
  let lm :=
    map (fun i => (i + 1)%Z)
        (np_where (map (fun d => negb (d =? 1)%Z) (np_diffZ a))) in
  let d :=
    map (fun p => (nth (Z.to_nat p) a 0 - nth (Z.to_nat (p - 1)) a 0)%Z) lm in
  let a :=
    fold_left
      (fun acc pd =>
         set_item acc (fst pd)
           (nth (Z.to_nat (fst pd)) a 0 - snd pd / 2)%Z)
      (combine lm d) a in
  let a := a ++ [m] in
  let ya := map (fun i => nth (Z.to_nat i) x []) a in
  if (1 <? len ya)%Z then
    let '(pks_max, loc_max) := peaks ya in
    let '(pks_min, loc_min) := peaks (map (map Ropp) ya) in
    let indmin :=
      if (0 <? len pks_min)%Z
      then map (fun i => nth (Z.to_nat i) a 0%Z) loc_min else [] in
    let indmax :=
      if (0 <? len pks_max)%Z
      then map (fun i => nth (Z.to_nat i) a 0%Z) loc_max else [] in
    (indmin, indmax)
  else ([], []).

(** ** Boundary extender *)

(** [boundary_conditions(indmin, indmax, t, x, z, nbsym)], with the index
    arrays already integers. [Ok None] is the return with [mode = 0]. *)
Definition boundary_conditions (indmin indmax : list Z) (t : list Z)
  (x : list R) (z : mat) (nbsym : Z)
  : result (option (list Z * list Z * mat * mat)) :=
  let lx := (len x - 1)%Z in
  let end_max := (len indmax - 1)%Z in
  let end_min := (len indmin - 1)%Z in
  if (len indmin + len indmax <? 3)%Z then Ok None
  else
    (* boundary conditions for interpolations *)
    indmax0 <- getitem indmax 0 ;;
    indmin0 <- getitem indmin 0 ;;
    x0 <- getitem x 0 ;;
    ' (lmax, lmin, lsym) <-
      (if (indmax0 <? indmin0)%Z then
         xm <- getitem x indmin0 ;;
         if Rltb xm x0 then
           Ok (rev (slice indmax 1 (Z.min (end_max + 1) (nbsym + 1))),
               rev (slice_to indmin (Z.min (end_min + 1) nbsym)),
               indmax0)
         else
           Ok (rev (slice_to indmax (Z.min (end_max + 1) nbsym)),
               rev (slice_to indmin (Z.min (end_min + 1) (nbsym - 1))) ++ [0%Z],
               0%Z)
       else
         xM <- getitem x indmax0 ;;
         if Rltb x0 xM then
           Ok (rev (slice_to indmax (Z.min (end_max + 1) nbsym)),
               rev (slice indmin 1 (Z.min (end_min + 1) (nbsym + 1))),
               indmin0)
         else
           Ok (rev (slice_to indmax (Z.min (end_max + 1) (nbsym - 1))) ++ [0%Z],
               rev (slice_to indmin (Z.min (end_min + 1) nbsym)),
               0%Z)) ;;
    indmaxL <- getitem indmax (-1) ;;
    indminL <- getitem indmin (-1) ;;
    xL <- getitem x (-1) ;;
    ' (rmax, rmin, rsym) <-
      (if (indmaxL <? indminL)%Z then
         xM <- getitem x indmaxL ;;
         if Rltb xL xM then
           Ok (rev (slice_from indmax (Z.max (end_max - nbsym + 1) 0)),
               rev (slice indmin (Z.max (end_min - nbsym) 0) (-1)),
               indminL)
         else
           Ok (lx :: rev (slice_from indmax (Z.max (end_max - nbsym + 2) 0)),
               rev (slice_from indmin (Z.max (end_min - nbsym + 1) 0)),
               lx)
       else
         xm <- getitem x indminL ;;
         if Rltb xm xL then
           Ok (rev (slice indmax (Z.max (end_max - nbsym) 0) (-1)),
               rev (slice_from indmin (Z.max (end_min - nbsym + 1) 0)),
               indmaxL)
         else
           Ok (rev (slice_from indmax (Z.max (end_max - nbsym + 1) 0)),
               lx :: rev (slice_from indmin (Z.max (end_min - nbsym + 2) 0)),
               lx)) ;;
    let mirror (sym : Z) (idx : list Z) : result (list Z) :=
      ts <- getitem t sym ;;
      ti <- take t idx ;;
      Ok (map (fun v => (2 * ts - v)%Z) ti) in
    tlmin <- mirror lsym lmin ;;
    tlmax <- mirror lsym lmax ;;
    trmin <- mirror rsym rmin ;;
    trmax <- mirror rsym rmax ;;
    (* in case symmetrized parts do not extend enough *)
    t0 <- getitem t 0 ;;
    short_left <-
      (a <- getitem tlmin 0 ;;
       if (t0 <? a)%Z then Ok true
       else b <- getitem tlmax 0 ;; Ok (t0 <? b)%Z) ;;
    ' (lmax, lmin, tlmin, tlmax) <-
      (if short_left : bool then
         let lmax' :=
           if (lsym =? indmax0)%Z
           then rev (slice_to indmax (Z.min (end_max + 1) nbsym)) else lmax in
         let lmin' :=
           if (lsym =? indmax0)%Z
           then lmin else rev (slice_to indmin (Z.min (end_min + 1) nbsym)) in
         if (lsym =? 1)%Z then Raise (SystemExit "bug")
         else
           let lsym := 0%Z in
           tlmin <- mirror lsym lmin' ;;
           tlmax <- mirror lsym lmax' ;;
           Ok (lmax', lmin', tlmin, tlmax)
       else Ok (lmax, lmin, tlmin, tlmax)) ;;
    tlx <- getitem t lx ;;
    short_right <-
      (a <- getitem trmin (-1) ;;
       if (a <? tlx)%Z then Ok true
       else b <- getitem trmax (-1) ;; Ok (b <? tlx)%Z) ;;
    ' (rmax, rmin, trmin, trmax) <-
      (if short_right : bool then
         let rmax' :=
           if (rsym =? indmaxL)%Z
           then rev (slice_from indmax (Z.max (end_max - nbsym + 1) 0))
           else rmax in
         let rmin' :=
           if (rsym =? indmaxL)%Z
           then rmin
           else rev (slice_from indmin (Z.max (end_min - nbsym + 1) 0)) in
         if (rsym =? lx)%Z then Raise (SystemExit "bug")
         else
           let rsym := lx in
           trmin <- mirror rsym rmin' ;;
           trmax <- mirror rsym rmax' ;;
           Ok (rmax', rmin', trmin, trmax)
       else Ok (rmax, rmin, trmin, trmax)) ;;
    zlmax <- take z lmax ;;
    zlmin <- take z lmin ;;
    zrmax <- take z rmax ;;
    zrmin <- take z rmin ;;
    tmid_min <- take t indmin ;;
    tmid_max <- take t indmax ;;
    zmid_min <- take z indmin ;;
    zmid_max <- take z indmax ;;
    Ok (Some (tlmin ++ tmid_min ++ trmin,
              tlmax ++ tmid_max ++ trmax,
              zlmin ++ zmid_min ++ zrmin,
              zlmax ++ zmid_max ++ zrmax)).

(** ** The decomposition, over its external collaborators *)

Section MEMD.

(** [CubicSpline(tk, zk, bc_type='not-a-knot')(t)]: the spline through the
    knots [tk] with the rows of [zk] as values, evaluated on [t]. *)
Variable CubicSpline : list Z -> mat -> list Z -> result mat.

(** [chaospy.create_halton_samples(ndir, N_dim)]: an [(N_dim, ndir)]
    array of points of the unit hypercube. *)
Variable create_halton_samples : nat -> nat -> mat.

(** In [zero_crossings], the midpoints [indz] of the runs of exact zeros,
    computed from [np.diff([0, zer, 0])] with [zer] an [(N,1)] array:
    what numpy makes of that ragged list depends on its release (recent
    ones raise [ValueError]). *)
Variable zero_run_midpoints : list R -> result (list Z).

(** [zero_crossings(x)] for an [(N,1)] column. *)
Definition zero_crossings (x : list R) : result (list Z) :=
  let indzer :=
    np_where (map (fun p => Rltb p 0)
                  (zip_with Rmult (slice x 0 (-1)) (slice_from x 1))) in
  if existsb (fun v => Reqb v 0) x then
    let iz := np_where (map (fun v => Reqb v 0) x) in
    indz <-
      (if existsb (fun d => (d =? 1)%Z) (np_diffZ iz)
       then zero_run_midpoints x
       else Ok iz) ;;
    Ok (np_sort (indzer ++ indz))
  else Ok indzer.

(** The state of the direction loop of [envelope_mean]. *)
Record env_acc : Type := mk_env_acc {
  acc_dir_vec : list R;
  acc_env_mean : mat;
  acc_amp : list R;
  acc_nem : list Z;
  acc_nzm : list Z;
  acc_count : Z
}.

(** One pass through the body of [for it in range(0, ndir)]. *)
Definition envelope_step (m : mat) (t : list Z) (seq : mat) (N_dim : nat)
  (s : env_acc) (it : nat) : result env_acc :=
  let NBSYM := 2%Z in
  let dir_vec := next_dir_vec seq it N_dim (acc_dir_vec s) in
  (* projection of the input signal on the direction vector *)
  let y := np_dot m dir_vec in
  let '(indmin, indmax) := local_peaks y in
  let nem := set_item (acc_nem s) (Z.of_nat it) (len indmin + len indmax)%Z in
  indzer <- zero_crossings y ;;
  let nzm := set_item (acc_nzm s) (Z.of_nat it) (len indzer) in
  bc <- boundary_conditions indmin indmax t y m NBSYM ;;
  match bc with
  | Some (tmin, tmax, zmin, zmax) =>
      env_min <- CubicSpline tmin zmin t ;;
      env_max <- CubicSpline tmax zmax t ;;
      let amp :=
        zip_with Rplus (acc_amp s)
          (map (fun row => sqrt (np_sum (map (fun v => v * v) row)) / 2)
               (mat_sub env_max env_min)) in
      let env_mean :=
        mat_add (acc_env_mean s)
                (mat_scale (fun v => v / 2) (mat_add env_max env_min)) in
      Ok (mk_env_acc dir_vec env_mean amp nem nzm (acc_count s))
  | None =>
      (* the projected signal has inadequate extrema *)
      Ok (mk_env_acc dir_vec (acc_env_mean s) (acc_amp s) nem nzm
                     (acc_count s + 1)%Z)
  end.

Fixpoint envelope_loop (m : mat) (t : list Z) (seq : mat) (N_dim : nat)
  (its : list nat) (s : env_acc) : result env_acc :=
  match its with
  | [] => Ok s
  | it :: its' =>
      s' <- envelope_step m t seq N_dim s it ;;
      envelope_loop m t seq N_dim its' s'
  end.

(** [envelope_mean(m, t, seq, ndir, N, N_dim)]:
    [(env_mean, nem, nzm, amp)]. *)
Definition envelope_mean (m : mat) (t : list Z) (seq : mat)
  (ndir N N_dim : nat) : result (mat * list Z * list Z * list R) :=
  let init :=
    mk_env_acc (zeros1 N_dim) (zeros (length t) N_dim) (zeros1 (length t))
               (repeat 0%Z ndir) (repeat 0%Z ndir) 0%Z in
  s <- envelope_loop m t seq N_dim (List.seq 0 ndir) init ;;
  let count := acc_count s in
  if (count <? Z.of_nat ndir)%Z then
    let k := IZR (Z.of_nat ndir - count) in
    Ok (mat_scale (fun v => v / k) (acc_env_mean s), acc_nem s, acc_nzm s,
        map (fun v => v / k) (acc_amp s))
  else
    Ok (zeros N N_dim, repeat 0%Z ndir, acc_nzm s, zeros1 N).

(** ** Stopping evaluators *)

(** [np.mean(b) > tol] for a boolean array [b]; the mean of an empty
    array is NaN, which is greater than nothing. *)
Definition mean_gt (b : list bool) (tol : R) : bool :=
  match b with
  | [] => false
  | _ => Rltb tol (IZR (len (filter (fun c => c) b)) / IZR (len b))
  end.

(** [stop(m, t, sd, sd2, tol, seq, ndir, N, N_dim)]: [(stp, env_mean)].
    The bare [except:] takes every exception, [SystemExit] included. *)
Definition stop (m : mat) (t : list Z) (sd sd2 tol : R) (seq : mat)
  (ndir N N_dim : nat) : bool * mat :=
  match envelope_mean m t seq ndir N N_dim with
  | Ok (env_mean, nem, nzm, amp) =>
      let sx := map (fun row => sqrt (np_sum (map (fun v => v * v) row)))
                    env_mean in
      let sx :=
        if forallb (fun a => negb (Reqb a 0)) amp
        then zip_with Rdiv sx amp else sx in
      if negb ((mean_gt (map (fun s => Rltb sd s) sx) tol
                || existsb (fun s => Rltb sd2 s) sx)
               && existsb (fun e => (2 <? e)%Z) nem)
      then (true, env_mean)
      else (false, env_mean)
  | Raise _ => (true, zeros N N_dim)
  end.

(** [all(np.abs(nzm - nem) > 1)]. *)
Definition counts_differ (nzm nem : list Z) : bool :=
  forallb (fun d => (1 <? Z.abs d)%Z) (zip_with Z.sub nzm nem).

(** [fix(m, t, seq, ndir, stp_cnt, counter, N, N_dim)]:
    [(stp, env_mean, counter)]. *)
Definition fix_ (m : mat) (t : list Z) (seq : mat) (ndir : nat)
  (stp_cnt counter : Z) (N N_dim : nat) : bool * mat * Z :=
  match envelope_mean m t seq ndir N N_dim with
  | Ok (env_mean, nem, nzm, amp) =>
      if counts_differ nzm nem then (false, env_mean, 0%Z)
      else
        let counter := (counter + 1)%Z in
        ((stp_cnt <=? counter)%Z, env_mean, counter)
  | Raise _ => (true, zeros N N_dim, counter)
  end.

(** [stop_emd(r, seq, ndir, N_dim)]. *)
Definition stop_emd (r : mat) (seq : mat) (ndir N_dim : nat) : bool :=
  let '(ner, _) :=
    fold_left
      (fun (s : list Z * list R) it =>
         let dir_vec := next_dir_vec seq it N_dim (snd s) in
         let y := np_dot r dir_vec in
         let '(indmin, indmax) := local_peaks y in
         (set_item (fst s) (Z.of_nat it) (len indmin + len indmax)%Z,
          dir_vec))
      (List.seq 0 ndir) (repeat 0%Z ndir, zeros1 N_dim) in
  (* stops if all the projected signals have less than 3 extrema *)
  forallb (fun e => (e <? 3)%Z) ner.

(** ** Sifting and decomposition engine *)

Section Engine.

(** The arguments of one call of [memd]; [x] is the input signal. *)
Variable x : mat.
Variable ndir : nat.
Variable maxnIMF : option Z.
Variable stp_crit : string.
Variables sd sd2 tol : R.
Variables stp_cnt MaxIterations : Z.
Variable t : list Z.
Variable seq : mat.
Variables N N_dim : nat.

(** "computation of mean and stopping criterion": the [if stp_crit ==
    'stop': ... else: ...] of [memd]; [stop] leaves [counter] alone. *)
Definition sift_policy (m : mat) (counter : Z) : bool * mat * Z :=
  if String.eqb stp_crit "stop" then
    let '(stop_sift, env_mean) := stop m t sd sd2 tol seq ndir N N_dim in
    (stop_sift, env_mean, counter)
  else fix_ m t seq ndir stp_cnt counter N N_dim.

(** The sifting loop [while not stop_sift and nbit < MaxIterations]: the
    sifted mode and the log, or the exception that ends [memd]. *)
Fixpoint sift_loop (fuel : nat) (m env_mean : mat) (stop_sift : bool)
  (counter nbit : Z) (log : list diagnostic)
  : option (result (mat * list diagnostic)) :=
  if negb stop_sift && (nbit <? MaxIterations)%Z then
    match fuel with
    | O => None
    | S fuel' =>
        (* sifting *)
        let m := mat_sub m env_mean in
        let '(stop_sift, env_mean, counter) := sift_policy m counter in
        let nbit := (nbit + 1)%Z in
        if (nbit =? MaxIterations - 1)%Z && (100 <? nbit)%Z then
          match (w <- warnings_getattr "wanr" ;;
                 w "emd:warning"%string
                   (PyStr "forced stop of sifting : too many erations") log)
          with
          | Ok log' => sift_loop fuel' m env_mean stop_sift counter nbit log'
          | Raise e => Some (Raise e)
          end
        else sift_loop fuel' m env_mean stop_sift counter nbit log
    end
  else Some (Ok (m, log)).

(** The outer loop [while not stop_emd(r, seq, ndir, N_dim)] with the two
    statements that follow it: the log and the returned list [q], or the
    exception. *)
Fixpoint memd_loop (fuel : nat) (r : mat) (q : list mat) (n_imf nbit : Z)
  (log : list diagnostic) : option (list diagnostic * result (list mat)) :=
  if negb (stop_emd r seq ndir N_dim) then
    match fuel with
    | O => None
    | S fuel' =>
        (* current mode *)
        let m := r in
        let '(stop_sift, env_mean, counter) := sift_policy m 0%Z in
        match (a <- np_max_abs m ;; b <- np_max_abs x ;;
               Ok (Rltb a (1 / 10000000000 * b))) with
        | Raise e => Some (log, Raise e)
        | Ok true =>
            (* the current mode is so small that machine precision can
               cause spurious extrema to appear *)
            if negb stop_sift then
              match (w <- warnings_getattr "warn" ;;
                     w "emd:warning"%string
                       (PyStr "forced stop of EMD : too small amplitude") log)
              with
              | Ok log' => Some (log', Ok (q ++ [transpose r]))
              | Raise e => Some (log, Raise e)
              end
            else
              Some (log ++ [Printed "forced stop of EMD : too small amplitude"],
                    Ok (q ++ [transpose r]))
        | Ok false =>
            match sift_loop fuel' m env_mean stop_sift counter nbit log with
            | None => None
            | Some (Raise e) => Some (log, Raise e)
            | Some (Ok (m, log)) =>
                let q := q ++ [transpose m] in
                let n_imf := (n_imf + 1)%Z in
                if match maxnIMF with
                   | Some cap => (cap <=? n_imf)%Z
                   | None => false
                   end
                then Some (log, Ok (q ++ [transpose r]))
                else memd_loop fuel' (mat_sub r m) q n_imf 0%Z log
            end
        end
    end
  else Some (log, Ok (q ++ [transpose r])).

End Engine.

(** [memd(x, ndir, maxnIMF, stp_crit, sd, sd2, tol, stp_cnt,
    MaxIterations)]: [q] is the list of the returned [(N_dim, N)] arrays,
    the extracted modes and then the residue. *)
Definition memd (fuel : nat) (x : mat) (ndir : nat) (maxnIMF : option Z)
  (stp_crit : string) (sd sd2 tol : R) (stp_cnt MaxIterations : Z)
  : option (list diagnostic * result (list mat)) :=
  let nbit := 0%Z in
  let N_dim := ncols x in
  let N := length x in
  let t := map Z.of_nat (List.seq 1 N) in
  let seq := transpose (create_halton_samples ndir N_dim) in
  let r := x in
  let n_imf := 1%Z in
  let q := [] in
  memd_loop x ndir maxnIMF stp_crit sd sd2 tol stp_cnt MaxIterations t seq
            N N_dim fuel r q n_imf nbit [].

End MEMD.

(** ** Vocabulary of the properties *)

Section Vocabulary.

Variable CubicSpline : list Z -> mat -> list Z -> result mat.
Variable zero_run_midpoints : list R -> result (list Z).

(** The direction vector of pass [it] of a direction loop: [dir_vec] is
    one array, rewritten by each pass. *)
Definition dir_vec_before (seq : mat) (N_dim it : nat) : list R :=
  fold_left (fun dv k => next_dir_vec seq k N_dim dv) (List.seq 0 it)
            (zeros1 N_dim).

Definition dir_vec_at (seq : mat) (N_dim it : nat) : list R :=
  next_dir_vec seq it N_dim (dir_vec_before seq N_dim it).

Definition projection (m seq : mat) (N_dim it : nat) : list R :=
  np_dot m (dir_vec_at seq N_dim it).

Definition extrema_count (m seq : mat) (N_dim it : nat) : Z :=
  (len (fst (local_peaks (projection m seq N_dim it)))
   + len (snd (local_peaks (projection m seq N_dim it))))%Z.

(** A direction fails when its projection has fewer than 3 extrema. *)
Definition direction_failed (m seq : mat) (N_dim it : nat) : bool :=
  (extrema_count m seq N_dim it <? 3)%Z.

(** What a direction with enough extrema adds to the running mean
    envelope and to the running amplitude. *)
Definition direction_envelopes (m : mat) (t : list Z) (seq : mat)
  (N_dim it : nat) : result (mat * list R) :=
  let y := projection m seq N_dim it in
  bc <- boundary_conditions (fst (local_peaks y)) (snd (local_peaks y))
                            t y m 2 ;;
  match bc with
  | Some (tmin, tmax, zmin, zmax) =>
      env_min <- CubicSpline tmin zmin t ;;
      env_max <- CubicSpline tmax zmax t ;;
      Ok (mat_scale (fun v => v / 2) (mat_add env_max env_min),
          map (fun row => sqrt (np_sum (map (fun v => v * v) row)) / 2)
              (mat_sub env_max env_min))
  | None => Raise ValueError
  end.

Section Trace.

Variable ndir : nat.
Variable stp_crit : string.
Variables sd sd2 tol : R.
Variables stp_cnt : Z.
Variable t : list Z.
Variable seq : mat.
Variables N N_dim : nat.

(** The sifting of one mode as a sequence of evaluations of the stopping
    policy: the state [(stop_sift, env_mean, counter, m)] after the first
    evaluation, and after each pass through the body of the sifting
    loop. *)
Definition sift_state : Type := (bool * mat * Z * mat)%type.

Definition sift_start (r : mat) : sift_state :=
  (sift_policy CubicSpline zero_run_midpoints ndir stp_crit sd sd2 tol
               stp_cnt t seq N N_dim r 0%Z, r).

Definition sift_step (s : sift_state) : sift_state :=
  let '(_, env_mean, counter, m) := s in
  let m := mat_sub m env_mean in
  (sift_policy CubicSpline zero_run_midpoints ndir stp_crit sd sd2 tol
               stp_cnt t seq N N_dim m counter, m).

Fixpoint sift_trace (r : mat) (k : nat) : sift_state :=
  match k with
  | O => sift_start r
  | S k' => sift_step (sift_trace r k')
  end.

Definition verdict_at (r : mat) (k : nat) : bool :=
  fst (fst (fst (sift_trace r k))).
Definition counter_at (r : mat) (k : nat) : Z :=
  snd (fst (sift_trace r k)).
Definition mode_at (r : mat) (k : nat) : mat := snd (sift_trace r k).

(** Evaluation [k] computed its envelope without an exception. *)
Definition envelope_ok_at (r : mat) (k : nat) : Prop :=
  exists res,
    envelope_mean CubicSpline zero_run_midpoints (mode_at r k) t seq ndir
                  N N_dim = Ok res.

(** At evaluation [k], the zero-crossing count and the extrema count
    differ by more than one in every direction. *)
Definition counts_differ_at (r : mat) (k : nat) : bool :=
  match envelope_mean CubicSpline zero_run_midpoints (mode_at r k) t seq
                      ndir N N_dim with
  | Ok (_, nem, nzm, _) => counts_differ nzm nem
  | Raise _ => false
  end.

End Trace.

End Vocabulary.

(** The spline reproduces constants: through knots that increase, with at
    least two of them and one row of values per knot, all rows equal, it
    evaluates to that row everywhere. *)
Definition reproduces_constants
  (CubicSpline : list Z -> mat -> list Z -> result mat) : Prop :=
  forall (tk : list Z) (zk : mat) (t : list Z) (row : list R),
    (2 <= length tk)%nat ->
    length zk = length tk ->
    Forall (fun d => (0 < d)%Z) (np_diffZ tk) ->
    Forall (eq row) zk ->
    CubicSpline tk zk t = Ok (map (fun _ => row) t).

(** The claim that the fixed-count evaluator only halts on an evaluation
    whose counts differ by more than one in every direction. *)
Definition fix_halts_only_when_counts_differ : Prop :=
  forall (CubicSpline : list Z -> mat -> list Z -> result mat)
         (zero_run_midpoints : list R -> result (list Z))
         (m : mat) (t : list Z) (seq : mat) (ndir : nat) (stp_cnt counter : Z)
         (N N_dim : nat) (env_mean : mat) (nem nzm : list Z) (amp : list R),
    reproduces_constants CubicSpline ->
    envelope_mean CubicSpline zero_run_midpoints m t seq ndir N N_dim
    = Ok (env_mean, nem, nzm, amp) ->
    fst (fst (fix_ CubicSpline zero_run_midpoints m t seq ndir stp_cnt
                   counter N N_dim)) = true ->
    counts_differ nzm nem = true.

(** ** Shapes *)

(** An [(n, k)] array: [n] rows of [k] entries. *)
Definition shaped (n k : nat) (M : mat) : Prop :=
  length M = n /\ Forall (fun row => length row = k) M.

(** The spline evaluated on [t] has one row per sample of [t] and the
    columns of its values. *)
Definition spline_shape
  (CubicSpline : list Z -> mat -> list Z -> result mat) : Prop :=
  forall (tk : list Z) (zk : mat) (t : list Z) (out : mat) (k : nat),
    CubicSpline tk zk t = Ok out ->
    zk <> [] ->
    Forall (fun row => length row = k) zk ->
    shaped (length t) k out.

(** [sum(modes) + residue]. *)
Definition reconstruction (modes : list mat) (residue : mat) : mat :=
  fold_right mat_add residue modes.

(** ** Hammersley sequence and prime numbers *)

(** [range(lo, hi)]. *)
Fixpoint range_from (lo : Z) (k : nat) : list Z :=
  match k with
  | O => []
  | S k' => lo :: range_from (lo + 1)%Z k'
  end.

Definition range (lo hi : Z) : list Z := range_from lo (Z.to_nat (hi - lo)).

(** The [for number in range(3, x)] of [is_prime]: the first hit returns
    [False], the end of the range [True]. *)
Fixpoint is_prime_loop (x : Z) (numbers : list Z) : bool :=
  match numbers with
  | [] => true
  | number :: numbers' =>
      if ((x mod number =? 0) || (x mod 2 =? 0))%Z then false
      else is_prime_loop x numbers'
  end.

(** [is_prime(x)]. *)
Definition is_prime (x : Z) : bool :=
  if (x =? 2)%Z then true else is_prime_loop x (range 3 x).

(** The [for i in range(3, 104745)] of [nth_prime]; falling off the end
    of the loop returns [None]. *)
Fixpoint nth_prime_loop (n : Z) (rng : list Z) (lst : list Z)
  : option (list Z) :=
  match rng with
  | [] => None
  | i :: rng' =>
      if is_prime i then
        let lst := lst ++ [i] in
        if (len lst =? n)%Z then Some lst else nth_prime_loop n rng' lst
      else nth_prime_loop n rng' lst
  end.

(** [nth_prime(n)]. *)
Definition nth_prime (n : Z) : option (list Z) :=
  nth_prime_loop n (range 3 104745) [2%Z].

(** [np.remainder(a, b)] on integers: the result has the sign of the
    divisor, and a zero divisor gives [0] (with a [RuntimeWarning]). *)
Definition np_remainder (a b : Z) : Z :=
  if (b =? 0)%Z then 0%Z else (a mod b)%Z.

(** What [hamm] returns: the branch for [1 < base] keeps the [(1,n)]
    array it started from, the other branch rebinds [seq] to a 1-D array. *)
Inductive ndarray : Type :=
| Array1 (v : list R)
| Array2 (M : mat).

(** The [while any(x != 0 for x in seed)] of [hamm], on the one row of
    [seq]. The entries of [seed] are whole numbers, as integers at first
    and as floats after the first [np.floor]. *)
Fixpoint hamm_loop (fuel : nat) (base : Z) (seed : list Z) (seq : list R)
  (base_inv : R) : option (list R) :=
  if existsb (fun x => negb (x =? 0)%Z) seed then
    match fuel with
    | O => None
    | S fuel' =>
        let digit := map (fun s => np_remainder s base) seed in
        let seq := zip_with Rplus seq (map (fun d => IZR d * base_inv) digit) in
        let base_inv := base_inv / IZR base in
        let seed := map (fun s => (s / base)%Z) seed in
        hamm_loop fuel' base seed seq base_inv
    end
  else Some seq.

(** [hamm(n, base)]. For [base = 0] the source divides by zero and numpy
    fills the array with [inf], which the reals do not have. *)
Definition hamm (fuel : nat) (n : nat) (base : Z) : option ndarray :=
  let seq := zeros1 n in
  if (1 <? base)%Z then
    let seed := range 1 (Z.of_nat n + 1) in
    let base_inv := 1 / IZR base in
    match hamm_loop fuel base seed seq base_inv with
    | Some seq => Some (Array2 [seq])
    | None => None
    end
  else
    let temp := range 1 (Z.of_nat n + 1) in
    Some (Array1 (map (fun k => (IZR (np_remainder k (- base + 1)) + 1 / 2)
                                / IZR (- base)) temp)).

(** ** Vocabulary of the further properties *)

(** The state of one entry of [hamm]'s loop: what is left of the seed,
    and the value so far, which stays a step of size [base * base_inv]
    below 1. *)
Definition hamm_entry (base : Z) (base_inv : R) (s : Z) (v : R) : Prop :=
  (0 <= s)%Z /\ 0 <= v /\ v + IZR base * base_inv <= 1 /\
  ((0 < s)%Z \/ 0 < v).

(** What the loop of [hamm] adds to one entry in [fuel] passes. *)
Fixpoint hamm_digits (fuel : nat) (base s : Z) (base_inv : R) : R :=
  match fuel with
  | O => 0
  | S fuel' =>
      IZR (np_remainder s base) * base_inv
      + hamm_digits fuel' base (s / base)%Z (base_inv / IZR base)
  end.

(** The maxima of a column, as [peaks] finds them: a rise followed by a
    fall. *)
Definition rise_then_fall (y : list R) : list bool :=
  zip_with andb
    (map (fun d => Rltb 0 (np_sign d))
         (firstn (length (np_diff y) - 1) (np_diff y)))
    (map (fun d => Rltb (np_sign d) 0) (tl (np_diff y))).

(** The mirror image [2*t[sym] - t[idx]] of the knots [idx] about the
    knot [sym], as [boundary_conditions] computes it. *)
Definition mirror_about (t : list Z) (sym : Z) (idx : list Z)
  : result (list Z) :=
  ts <- getitem t sym ;;
  ti <- take t idx ;;
  Ok (map (fun v => (2 * ts - v)%Z) ti).

(** ** The extrema detector and the boundary extender, part by part *)

(** The array [a] of [local_peaks] for a column that is not replaced by
    zeros, as it stands when [ya = x[a]] is read: the positions of the
    non-zero differences, each one that follows a gap moved back by half
    the gap, and the last index. *)
Definition turning_points (y : list R) : list Z :=
  let a := np_where (map (fun d => negb (Reqb d 0)) (np_diff y)) in
  let lm :=
    map (fun i => (i + 1)%Z)
        (np_where (map (fun d => negb (d =? 1)%Z) (np_diffZ a))) in
  let d :=
    map (fun p => (nth (Z.to_nat p) a 0 - nth (Z.to_nat (p - 1)) a 0)%Z) lm in
  fold_left
    (fun acc pd =>
       set_item acc (fst pd) (nth (Z.to_nat (fst pd)) a 0 - snd pd / 2)%Z)
    (combine lm d) a
  ++ [(len y - 1)%Z].

(** Two index arrays that alternate: the entries of the first and of the
    second taken in turn, starting with the first, increase strictly. *)
Inductive alternating : list Z -> list Z -> Prop :=
| alternating_nil : alternating [] []
| alternating_cons (a : Z) (l l' : list Z) :
    alternating l' l ->
    Forall (Z.lt a) l' -> Forall (Z.lt a) l ->
    alternating (a :: l) l'.

(** The index arrays of the extrema of a signal of [n] samples: minima
    and maxima alternate, and none is the first or the last sample. *)
Definition interior_extrema (n : Z) (indmin indmax : list Z) : Prop :=
  (alternating indmin indmax \/ alternating indmax indmin) /\
  Forall (fun i => (1 <= i <= n - 2)%Z) indmin /\
  Forall (fun i => (1 <= i <= n - 2)%Z) indmax.

(** An array that differs from the sorted array [a] only by entries moved
    back inside the gap that precedes them. *)
Definition moved_back (a acc : list Z) : Prop :=
  length acc = length a /\
  forall p, (p < length a)%nat ->
    ((match p with O => nth 0 a 0 - 1 | S p' => nth p' a 0 end
      < nth p acc 0)%Z /\ (nth p acc 0 <= nth p a 0)%Z).

(** The parts of [boundary_conditions], in the order of the source. *)

(** The extrema mirrored at the left edge and the index [lsym] of the
    symmetry point: [(lmax, lmin, lsym)]. *)
Definition left_symmetry (indmin indmax : list Z) (x : list R) (nbsym : Z)
  : result (list Z * list Z * Z) :=
  let end_max := (len indmax - 1)%Z in
  let end_min := (len indmin - 1)%Z in
  indmax0 <- getitem indmax 0 ;;
  indmin0 <- getitem indmin 0 ;;
  x0 <- getitem x 0 ;;
  if (indmax0 <? indmin0)%Z then
    xm <- getitem x indmin0 ;;
    if Rltb xm x0 then
      Ok (rev (slice indmax 1 (Z.min (end_max + 1) (nbsym + 1))),
          rev (slice_to indmin (Z.min (end_min + 1) nbsym)),
          indmax0)
    else
      Ok (rev (slice_to indmax (Z.min (end_max + 1) nbsym)),
          rev (slice_to indmin (Z.min (end_min + 1) (nbsym - 1))) ++ [0%Z],
          0%Z)
  else
    xM <- getitem x indmax0 ;;
    if Rltb x0 xM then
      Ok (rev (slice_to indmax (Z.min (end_max + 1) nbsym)),
          rev (slice indmin 1 (Z.min (end_min + 1) (nbsym + 1))),
          indmin0)
    else
      Ok (rev (slice_to indmax (Z.min (end_max + 1) (nbsym - 1))) ++ [0%Z],
          rev (slice_to indmin (Z.min (end_min + 1) nbsym)),
          0%Z).

(** The extrema mirrored at the right edge and the index [rsym] of the
    symmetry point: [(rmax, rmin, rsym)]. *)
Definition right_symmetry (indmin indmax : list Z) (x : list R) (nbsym : Z)
  : result (list Z * list Z * Z) :=
  let lx := (len x - 1)%Z in
  let end_max := (len indmax - 1)%Z in
  let end_min := (len indmin - 1)%Z in
  indmaxL <- getitem indmax (-1) ;;
  indminL <- getitem indmin (-1) ;;
  xL <- getitem x (-1) ;;
  if (indmaxL <? indminL)%Z then
    xM <- getitem x indmaxL ;;
    if Rltb xL xM then
      Ok (rev (slice_from indmax (Z.max (end_max - nbsym + 1) 0)),
          rev (slice indmin (Z.max (end_min - nbsym) 0) (-1)),
          indminL)
    else
      Ok (lx :: rev (slice_from indmax (Z.max (end_max - nbsym + 2) 0)),
          rev (slice_from indmin (Z.max (end_min - nbsym + 1) 0)),
          lx)
  else
    xm <- getitem x indminL ;;
    if Rltb xm xL then
      Ok (rev (slice indmax (Z.max (end_max - nbsym) 0) (-1)),
          rev (slice_from indmin (Z.max (end_min - nbsym + 1) 0)),
          indmaxL)
    else
      Ok (rev (slice_from indmax (Z.max (end_max - nbsym + 1) 0)),
          lx :: rev (slice_from indmin (Z.max (end_min - nbsym + 2) 0)),
          lx).

(** [tlmin[0] > t[0] or tlmax[0] > t[0]]: the mirrored knots do not reach
    the left edge. *)
Definition short_left (t tlmin tlmax : list Z) : result bool :=
  t0 <- getitem t 0 ;;
  a <- getitem tlmin 0 ;;
  if (t0 <? a)%Z then Ok true
  else b <- getitem tlmax 0 ;; Ok (t0 <? b)%Z.

(** [trmin[-1] < t[lx] or trmax[-1] < t[lx]]: the mirrored knots do not
    reach the right edge. *)
Definition short_right (t : list Z) (lx : Z) (trmin trmax : list Z)
  : result bool :=
  tlx <- getitem t lx ;;
  a <- getitem trmin (-1) ;;
  if (a <? tlx)%Z then Ok true
  else b <- getitem trmax (-1) ;; Ok (b <? tlx)%Z.

(** "in case symmetrized parts do not extend enough", on the left: the
    extrema are mirrored again, about index 0, unless the symmetry point
    is index 1: [(lmax, lmin, tlmin, tlmax)]. *)
Definition left_fallback (indmin indmax t : list Z) (nbsym lsym : Z)
  (lmax lmin tlmin tlmax : list Z)
  : result (list Z * list Z * list Z * list Z) :=
  let end_max := (len indmax - 1)%Z in
  let end_min := (len indmin - 1)%Z in
  short <- short_left t tlmin tlmax ;;
  if short : bool then
    indmax0 <- getitem indmax 0 ;;
    let lmax' :=
      if (lsym =? indmax0)%Z
      then rev (slice_to indmax (Z.min (end_max + 1) nbsym)) else lmax in
    let lmin' :=
      if (lsym =? indmax0)%Z
      then lmin else rev (slice_to indmin (Z.min (end_min + 1) nbsym)) in
    if (lsym =? 1)%Z then Raise (SystemExit "bug")
    else
      tlmin <- mirror_about t 0 lmin' ;;
      tlmax <- mirror_about t 0 lmax' ;;
      Ok (lmax', lmin', tlmin, tlmax)
  else Ok (lmax, lmin, tlmin, tlmax).

(** The same on the right: the extrema are mirrored again, about the last
    index [lx], unless the symmetry point is [lx]:
    [(rmax, rmin, trmin, trmax)]. *)
Definition right_fallback (indmin indmax t : list Z) (lx nbsym rsym : Z)
  (rmax rmin trmin trmax : list Z)
  : result (list Z * list Z * list Z * list Z) :=
  let end_max := (len indmax - 1)%Z in
  let end_min := (len indmin - 1)%Z in
  short <- short_right t lx trmin trmax ;;
  if short : bool then
    indmaxL <- getitem indmax (-1) ;;
    let rmax' :=
      if (rsym =? indmaxL)%Z
      then rev (slice_from indmax (Z.max (end_max - nbsym + 1) 0))
      else rmax in
    let rmin' :=
      if (rsym =? indmaxL)%Z
      then rmin
      else rev (slice_from indmin (Z.max (end_min - nbsym + 1) 0)) in
    if (rsym =? lx)%Z then Raise (SystemExit "bug")
    else
      trmin <- mirror_about t lx rmin' ;;
      trmax <- mirror_about t lx rmax' ;;
      Ok (rmax', rmin', trmin, trmax)
  else Ok (rmax, rmin, trmin, trmax).

(** ** Stand-ins for the spline, used to exhibit runs *)

(** A spline that repeats the first row of its values: as the not-a-knot
    spline does, it returns the constant when all the values agree. *)
Definition const_spline (tk : list Z) (zk : mat) (t : list Z) : result mat :=
  Ok (map (fun _ => hd [] zk) t).

(** A spline that is zero everywhere: a sift with it changes nothing,
    which exhibits a mode that the policy never accepts. *)
Definition flat_spline (tk : list Z) (zk : mat) (t : list Z) : result mat :=
  Ok (map (fun _ => zeros1 (ncols zk)) t).

(** The runs of zeros are not needed by the runs exhibited here. *)
Definition no_zero_runs (x : list R) : result (list Z) := Raise ValueError.

(** [np.diff([0, zer, 0])] as numpy runs it from release 1.24 on: the
    list holds two scalars and an array, and its conversion to an array
    raises [ValueError]. *)
Definition ragged_diff_raises (x : list R) : result (list Z) :=
  Raise ValueError.

(** A sampler without points: with one channel the direction vector does
    not depend on the sample. *)
Definition no_samples (ndir N_dim : nat) : mat := [].

(** ** Signals used to exhibit runs *)

(** One channel, five samples alternating between [a] and [b]. *)
Definition oscillation (a b : R) : mat := [[a]; [b]; [a]; [b]; [a]].

(** One channel, five equal samples. *)
Definition constant5 (c : R) : mat := [[c]; [c]; [c]; [c]; [c]].

(** The time axis [np.arange(1, 6)]. *)
Definition axis5 : list Z := [1; 2; 3; 4; 5]%Z.

(** One channel, seven samples around the level [b]: two peaks of height
    [2 * e], then two samples at half that height. *)
Definition stepped (b e : R) : mat :=
  [[b]; [b + 2 * e]; [b]; [b + 2 * e]; [b + e]; [b + e]; [b]].

(** One channel, seven equal samples. *)
Definition constant7 (c : R) : mat := [[c]; [c]; [c]; [c]; [c]; [c]; [c]].

(** The time axis [np.arange(1, 8)]. *)
Definition axis7 : list Z := [1; 2; 3; 4; 5; 6; 7]%Z.

(** [2 ** -20], a step that doubles represent exactly. *)
Definition tiny : R := 1 / 1048576.

(** * Properties *)

(** ** Deciding comparisons of reals *)

Lemma Rltb_true (a b : R) : a < b -> Rltb a b = true.
Proof.
  intros H. unfold Rltb. destruct (Rlt_dec a b); [reflexivity | contradiction].
Qed.

Lemma Rltb_false (a b : R) : b <= a -> Rltb a b = false.
Proof.
  intros H. unfold Rltb. destruct (Rlt_dec a b); [lra | reflexivity].
Qed.

Lemma Reqb_true (a b : R) : a = b -> Reqb a b = true.
Proof.
  intros H. unfold Reqb. destruct (Req_dec_T a b); [reflexivity | contradiction].
Qed.

Lemma Reqb_false (a b : R) : a <> b -> Reqb a b = false.
Proof.
  intros H. unfold Reqb. destruct (Req_dec_T a b); [contradiction | reflexivity].
Qed.

Lemma np_sign_pos (v : R) : 0 < v -> np_sign v = 1.
Proof. intros H. unfold np_sign. now rewrite Rltb_true. Qed.

Lemma np_sign_neg (v : R) : v < 0 -> np_sign v = -1.
Proof.
  intros H. unfold np_sign. rewrite Rltb_false by lra. now rewrite Rltb_true.
Qed.

Lemma np_sign_zero (v : R) : v = 0 -> np_sign v = 0.
Proof. intros H. unfold np_sign. now rewrite !Rltb_false by lra. Qed.

(** Settle every comparison of the goal that linear arithmetic decides. *)
Ltac rdec :=
  repeat match goal with
  | |- context [np_sign ?v] =>
      first [ rewrite (np_sign_pos v) by lra
            | rewrite (np_sign_neg v) by lra
            | rewrite (np_sign_zero v) by lra ]
  | |- context [Rltb ?a ?b] =>
      first [ rewrite (Rltb_true a b) by lra
            | rewrite (Rltb_false a b) by lra ]
  | |- context [Reqb ?a ?b] =>
      first [ rewrite (Reqb_true a b) by lra
            | rewrite (Reqb_false a b) by lra ]
  end.

(** Run the list and integer part of the goal, leaving reals alone. A
    function that branches on a comparison waits until the comparison is
    settled. *)
#[local] Arguments filter : simpl nomatch.

Ltac rsimp :=
  cbn - [np_sign Rltb Reqb Rminus Rplus Rmult Rdiv Ropp Rinv IZR sqrt sin cos
         atan PI Rabs Rmax arctan2];
  repeat match goal with
  | |- context [Pos.to_nat ?p] =>
      let n := eval compute in (Pos.to_nat p) in
      change (Pos.to_nat p) with n
  end.

Ltac reval := repeat (progress (rdec; rsimp)).

(** Equality of results, tuples and arrays, entry by entry; the entries
    are equal by computation or by linear arithmetic. *)
Ltac entrywise :=
  repeat match goal with
  | |- Ok _ = Ok _ => apply f_equal
  | |- Some _ = Some _ => apply f_equal
  | |- (_, _) = (_, _) => apply f_equal2
  | |- (_ :: _) = (_ :: _) => apply f_equal2
  end;
  try reflexivity; try lra.

(** ** Slices and updates *)

Lemma len_nonneg {A : Type} (l : list A) : (0 <= len l)%Z.
Proof. unfold len. lia. Qed.

Lemma slice_to_0 {A : Type} (l : list A) : slice_to l 0 = [].
Proof.
  unfold slice_to, slice, slice_bound. cbn [Z.ltb Z.compare].
  pose proof (len_nonneg l).
  rewrite Z.min_l by lia. reflexivity.
Qed.

Lemma filter_step {A : Type} (p : A -> bool) (a : A) (l : list A) :
  filter p (a :: l) = if p a then a :: filter p l else filter p l.
Proof. reflexivity. Qed.

Lemma mapM_step {A B : Type} (f : A -> result B) (a : A) (l : list A) :
  mapM f (a :: l) = (b <- f a ;; bs <- mapM f l ;; Ok (b :: bs)).
Proof. reflexivity. Qed.

Lemma zip_with_nil_r {A B C : Type} (f : A -> B -> C) (l : list A) :
  zip_with f l [] = [].
Proof. destruct l; reflexivity. Qed.

Lemma set_nth_length {A : Type} (l : list A) (i : nat) (v : A) :
  length (set_nth l i v) = length l.
Proof.
  revert i. induction l as [|a l IH]; intros [|i]; cbn; auto.
Qed.

Lemma set_item_length {A : Type} (l : list A) (i : Z) (v : A) :
  length (set_item l i v) = length l.
Proof.
  unfold set_item. destruct (i <? 0)%Z; [reflexivity | apply set_nth_length].
Qed.

Lemma set_nth_Forall {A : Type} (P : A -> Prop) (l : list A) (i : nat) (v : A) :
  Forall P l -> P v -> Forall P (set_nth l i v).
Proof.
  intros Hl Hv. revert i.
  induction Hl as [|a l Ha Hl IH]; intros [|i]; cbn; auto.
Qed.

Lemma set_item_Forall {A : Type} (P : A -> Prop) (l : list A) (i : Z) (v : A) :
  Forall P l -> P v -> Forall P (set_item l i v).
Proof.
  intros Hl Hv. unfold set_item.
  destruct (i <? 0)%Z; [assumption | now apply set_nth_Forall].
Qed.

(** ** Projections of a signal without amplitude *)

Lemma dot_row_zeros (k : nat) (d : list R) : dot_row (zeros1 k) d = 0.
Proof.
  unfold dot_row, zeros1. revert d.
  induction k as [|k IH]; intros d; [reflexivity|].
  destruct d as [|c d]; [reflexivity|].
  cbn [repeat zip_with np_sum fold_right].
  fold (np_sum (zip_with Rmult (repeat 0 k) d)). rewrite IH. lra.
Qed.

Lemma np_dot_zeros (n k : nat) (d : list R) : np_dot (zeros n k) d = zeros1 n.
Proof.
  unfold np_dot, zeros, zeros1.
  induction n as [|n IH]; [reflexivity|].
  cbn [repeat map]. rewrite IH. f_equal.
  apply (dot_row_zeros k d).
Qed.

Lemma forallb_small_zeros (n : nat) :
  forallb (fun v => Rltb v (1 / 100000)) (zeros1 n) = true.
Proof.
  unfold zeros1. induction n as [|n IH]; [reflexivity|].
  cbn [repeat forallb]. rewrite IH, Rltb_true by lra. reflexivity.
Qed.

(** The differences of a one-row array, taken along its columns as
    [local_peaks] does, have no rows. *)
Lemma diff_of_one_row (l : list R) :
  transpose (map np_diff (transpose [l])) = [].
Proof.
  unfold transpose at 2. unfold ncols. cbn [hd].
  rewrite map_map.
  assert (E : forall js : list nat,
             map (fun j => np_diff (map (fun row => nth j row 0) [l])) js
             = map (fun _ => []) js).
  { intros js. apply map_ext. intros j. reflexivity. }
  rewrite E. unfold transpose, ncols.
  destruct (List.seq 0 (length l)); reflexivity.
Qed.

Lemma local_peaks_flat (y : list R) :
  forallb (fun v => Rltb v (1 / 100000)) y = true ->
  local_peaks y = ([], []).
Proof.
  intros H. unfold local_peaks. rewrite H, diff_of_one_row. reflexivity.
Qed.

Lemma local_peaks_zeros (n : nat) : local_peaks (zeros1 n) = ([], []).
Proof. apply local_peaks_flat, forallb_small_zeros. Qed.

(** ** Extrema detector (C8) *)

(** C8. [local_peaks] tests [x < 1e-5] on the signed samples, without an
    absolute value: a projection whose samples are all negative, whatever
    their size, is replaced by zeros and loses its extrema, while the same
    oscillation shifted above zero keeps its three. *)
Theorem local_peaks_negative_signal_is_flattened :
  forallb (fun v => Rltb v (1 / 100000)) [-5; -3; -5; -3; -5] = true /\
  local_peaks [-5; -3; -5; -3; -5] = ([], []) /\
  local_peaks [5; 7; 5; 7; 5] = ([2%Z], [1%Z; 3%Z]).
Proof.
  assert (H : forallb (fun v => Rltb v (1 / 100000)) [-5; -3; -5; -3; -5]
              = true).
  { cbn [forallb]. rdec. reflexivity. }
  split; [exact H|]. split.
  - now apply local_peaks_flat.
  - unfold local_peaks. cbn [forallb]. reval. reflexivity.
Qed.

(** ** Direction vectors (C3) *)

Lemma cos_arctan2_nonzero (y x : R) : x <> 0 -> cos (arctan2 y x) <> 0.
Proof.
  intros Hx. unfold arctan2.
  pose proof (atan_bound (y / x)) as [Hlo Hhi].
  assert (Hc : 0 < cos (atan (y / x))) by (apply cos_gt_0; lra).
  destruct (Rlt_dec 0 x) as [Hp|Hp].
  - rewrite Rltb_true by assumption. lra.
  - rewrite Rltb_false by lra.
    rewrite (Rltb_true x 0) by lra.
    destruct (Rltb y 0).
    + rewrite cos_minus, cos_PI, sin_PI. lra.
    + rewrite neg_cos. lra.
Qed.

Lemma make_dir_vectors_2d (s0 s1 : R) (dv : list R) :
  length dv = 2%nat ->
  make_dir_vectors [[s0; s1]] 0 2 dv
  = [1; cos (arctan2 (sqrt ((2 * s1 - 1) * (2 * s1 - 1))) (2 * s0 - 1)) * 1].
Proof.
  intros Hdv.
  destruct dv as [|d0 [|d1 [|d2 dv]]]; try discriminate Hdv.
  reflexivity.
Qed.

Lemma sum_squares_2d (c : R) : sum_squares [1; c * 1] = 1 + c * c.
Proof. unfold sum_squares, np_sum. cbn [map fold_right]. lra. Qed.

(** C3. For [N_dim = 2] the general construction returns [(1, cos tht)]:
    its first component is the constant 1.0 the source writes, so the
    squared components sum to more than 1 for every sample point whose
    first coordinate is not 1/2. *)
Theorem make_dir_vectors_not_unit :
  forall s0 s1 : R,
    s0 <> 1 / 2 ->
    1 < sum_squares (make_dir_vectors [[s0; s1]] 0 2 (zeros1 2)).
Proof.
  intros s0 s1 Hs.
  rewrite make_dir_vectors_2d by reflexivity.
  rewrite sum_squares_2d.
  set (c := cos _).
  assert (Hc : c <> 0) by (apply cos_arctan2_nonzero; lra).
  assert (0 < c * c) by nra.
  lra.
Qed.

Lemma make_dir_vectors_not_unit_witness :
  1 / 4 <> 1 / 2 /\
  1 < sum_squares (make_dir_vectors [[1 / 4; 2 / 3]] 0 2 (zeros1 2)).
Proof.
  split; [lra | apply make_dir_vectors_not_unit; lra].
Defined.

(** The trivariate construction does give unit vectors. *)
Lemma trivariate_dir_vec_unit (seq : mat) (it : nat) (dv : list R) :
  length dv = 3%nat ->
  sum_squares (trivariate_dir_vec seq it dv) = 1.
Proof.
  intros Hdv.
  destruct dv as [|d0 [|d1 [|d2 [|d3 dv]]]]; try discriminate Hdv.
  unfold trivariate_dir_vec.
  set (u := 2 * nth 0 (nth it seq []) 0 - 1).
  set (tt := if Rltb 1 u then 1 else if Rltb u (-1) then -1 else u).
  set (phi := nth 1 (nth it seq []) 0 * 2 * PI).
  assert (Htt : -1 <= tt <= 1).
  { unfold tt, Rltb.
    destruct (Rlt_dec 1 u); [lra|]. destruct (Rlt_dec u (-1)); lra. }
  assert (Hs : sqrt (1 - tt * tt) * sqrt (1 - tt * tt) = 1 - tt * tt).
  { apply sqrt_sqrt. nra. }
  unfold sum_squares, np_sum, set_item.
  cbv [set_nth Z.ltb Z.compare Z.to_nat Pos.to_nat Pos.iter_op Nat.add map
       fold_right].
  pose proof (sin2_cos2 phi) as Hsc. unfold Rsqr in Hsc.
  set (st := sqrt (1 - tt * tt)) in *.
  transitivity (st * st * (sin phi * sin phi + cos phi * cos phi) + tt * tt);
    [ring|].
  rewrite Hsc, Hs. ring.
Qed.

(** For every [N_dim >= 2] the general construction leaves the constant
    1.0 in the first component: the squared components sum to 1 plus the
    squares of the others. *)
Lemma set_item_hd (l : list R) (i : Z) (v : R) :
  (1 <= i)%Z -> hd 0 (set_item l i v) = hd 0 l.
Proof.
  intros Hi. unfold set_item.
  replace (i <? 0)%Z with false by (symmetry; apply Z.ltb_ge; lia).
  destruct (Z.to_nat i) as [|n] eqn:E; [lia|].
  destruct l; reflexivity.
Qed.

Lemma make_dir_vectors_hd (seq : mat) (it N_dim : nat) (dv : list R) :
  (2 <= N_dim)%nat -> dv <> [] ->
  hd 0 (make_dir_vectors seq it N_dim dv) = 1.
Proof.
  intros HN Hdv. unfold make_dir_vectors.
  rewrite set_item_hd by lia.
  set (tht := zip_with arctan2 _ _).
  assert (G : forall (its : list nat) (d : list R),
             Forall (fun i => (1 <= i)%nat) its ->
             hd 0 (fold_left
                     (fun dv i =>
                        set_item dv (Z.of_nat i)
                          (sin (nth (i - 1) tht 0)
                           * np_prod (map cos (slice_to tht (Z.of_nat i - 1)))))
                     its d)
             = hd 0 d).
  { induction its as [|i its IH]; intros d Hits; [reflexivity|].
    inversion Hits; subst. cbn [fold_left].
    rewrite IH by assumption. apply set_item_hd. lia. }
  rewrite G.
  - destruct dv; [contradiction | reflexivity].
  - apply Forall_forall. intros i Hi. apply in_seq in Hi. lia.
Qed.

Lemma sum_squares_cons (c : R) (v : list R) :
  sum_squares (c :: v) = c * c + sum_squares v.
Proof. reflexivity. Qed.

Lemma sum_squares_nonneg (v : list R) : 0 <= sum_squares v.
Proof.
  induction v as [|c v IH]; [unfold sum_squares; cbn; lra|].
  rewrite sum_squares_cons. nra.
Qed.

Lemma make_dir_vectors_norm_ge_1 (seq : mat) (it N_dim : nat) (dv : list R) :
  (2 <= N_dim)%nat -> dv <> [] ->
  1 <= sum_squares (make_dir_vectors seq it N_dim dv).
Proof.
  intros HN Hdv.
  pose proof (make_dir_vectors_hd seq it N_dim dv HN Hdv) as Hhd.
  destruct (make_dir_vectors seq it N_dim dv) as [|c v].
  - cbn in Hhd. lra.
  - cbn [hd] in Hhd. subst c. rewrite sum_squares_cons.
    pose proof (sum_squares_nonneg v). lra.
Qed.


(** ** Boundary extender on given arrays *)

(** A call that [memd] does not make: the time axis has a gap after its
    first sample. The maxima are at 1 and 3, the minima at 2 and 4, the
    mirrored minima fall inside the domain, and the test [lsym == 1] of
    the left fallback is met at the second sample (index 1). *)
Lemma boundary_conditions_left_exit_at_index_1 :
  forall z : mat,
    boundary_conditions [2; 4]%Z [1; 3]%Z [0; 10; 11; 12; 13; 14]%Z
                        [1 / 2; 1; 0; 1; 0; 1 / 2] z 2
    = Raise (SystemExit "bug").
Proof.
  intros z. unfold boundary_conditions.
  reval. reflexivity.
Qed.

(** The fallback on the axis of [memd]: the first maximum, at index
    4, is too far from the left edge for its mirror image to leave the
    domain; the extrema are mirrored again around index 0, and the
    extension that is returned reaches past both ends of the axis
    [1..9]. *)
Lemma boundary_conditions_left_fallback :
  boundary_conditions [5; 7]%Z [4; 6]%Z [1; 2; 3; 4; 5; 6; 7; 8; 9]%Z
                      [5; 11 / 2; 6; 13 / 2; 7; 0; 7; 0; 3]
                      [[5]; [11 / 2]; [6]; [13 / 2]; [7]; [0]; [7]; [0]; [3]]
                      2
  = Ok (Some ([-6; -4; 6; 8; 10]%Z, [-5; -3; 5; 7; 9; 11]%Z,
              [[0]; [0]; [0]; [0]; [0]],
              [[7]; [7]; [7]; [7]; [7]; [7]])).
Proof.
  unfold boundary_conditions.
  reval. reflexivity.
Qed.

(** With the time axis [1..N] that [memd] builds, the same extrema are
    mirrored around index 1 and the extension is returned. *)
Lemma boundary_conditions_uniform_axis :
  boundary_conditions [2; 4]%Z [1; 3]%Z [1; 2; 3; 4; 5; 6]%Z
                      [1 / 2; 1; 0; 1; 0; 1 / 2]
                      [[1 / 2]; [1]; [0]; [1]; [0]; [1 / 2]] 2
  = Ok (Some ([-1; 1; 3; 5; 7]%Z, [0; 2; 4; 6; 8]%Z,
              [[0]; [0]; [0]; [0]; [0]], [[1]; [1]; [1]; [1]; [1]])).
Proof.
  unfold boundary_conditions.
  reval. reflexivity.
Qed.

(** The bare [except:] of the two evaluators takes the [SystemExit] of the
    boundary extender like any other exception: the sifting of the mode
    stops with a zero envelope, the decomposition goes on. *)
Lemma stop_swallows_exceptions
  (CubicSpline : list Z -> mat -> list Z -> result mat)
  (zero_run_midpoints : list R -> result (list Z))
  (m : mat) (t : list Z) (sd sd2 tol : R) (seq : mat) (ndir N N_dim : nat)
  (e : exn) :
  envelope_mean CubicSpline zero_run_midpoints m t seq ndir N N_dim = Raise e ->
  stop CubicSpline zero_run_midpoints m t sd sd2 tol seq ndir N N_dim
  = (true, zeros N N_dim).
Proof. intros H. unfold stop. now rewrite H. Qed.

Lemma fix_swallows_exceptions
  (CubicSpline : list Z -> mat -> list Z -> result mat)
  (zero_run_midpoints : list R -> result (list Z))
  (m : mat) (t : list Z) (seq : mat) (ndir : nat) (stp_cnt counter : Z)
  (N N_dim : nat) (e : exn) :
  envelope_mean CubicSpline zero_run_midpoints m t seq ndir N N_dim = Raise e ->
  fix_ CubicSpline zero_run_midpoints m t seq ndir stp_cnt counter N N_dim
  = (true, zeros N N_dim, counter).
Proof. intros H. unfold fix_. now rewrite H. Qed.

(** ** Degenerate input (C9) *)

Section ZeroInput.

Variable CubicSpline : list Z -> mat -> list Z -> result mat.
Variable create_halton_samples : nat -> nat -> mat.
Variable zero_run_midpoints : list R -> result (list Z).

Lemma stop_emd_fold_small (r : mat) (seq : mat) (N_dim : nat) (its : list nat)
  (s : list Z * list R) :
  (forall d, local_peaks (np_dot r d) = ([], [])) ->
  Forall (fun e => (e < 3)%Z) (fst s) ->
  Forall (fun e => (e < 3)%Z)
    (fst (fold_left
            (fun (s : list Z * list R) it =>
               let dir_vec := next_dir_vec seq it N_dim (snd s) in
               let y := np_dot r dir_vec in
               let '(indmin, indmax) := local_peaks y in
               (set_item (fst s) (Z.of_nat it) (len indmin + len indmax)%Z,
                dir_vec))
            its s)).
Proof.
  intros Hflat. revert s.
  induction its as [|it its IH]; intros s Hs; [exact Hs|].
  cbn [fold_left]. apply IH.
  rewrite Hflat. cbn [fst].
  apply set_item_Forall; [exact Hs | cbn; lia].
Qed.

Lemma stop_emd_flat (r : mat) (seq : mat) (ndir N_dim : nat) :
  (forall d, local_peaks (np_dot r d) = ([], [])) ->
  stop_emd r seq ndir N_dim = true.
Proof.
  intros Hflat. unfold stop_emd.
  pose proof (stop_emd_fold_small r seq N_dim (List.seq 0 ndir)
                (repeat 0%Z ndir, zeros1 N_dim) Hflat) as H.
  destruct (fold_left _ _ _) as [ner dv]. cbn [fst] in H.
  apply forallb_forall. intros e He.
  assert (Hall : Forall (fun e => (e < 3)%Z) ner).
  { apply H. cbn [fst]. apply Forall_forall. intros e' He'.
    apply repeat_spec in He'. subst e'. lia. }
  rewrite Forall_forall in Hall. apply Z.ltb_lt. now apply Hall.
Qed.

(** C9. An all-zero [N x N_dim] input fails the entry check of the outer
    loop at once (every projected direction has fewer than 3 extrema),
    nothing is sifted or reported, and the returned sequence holds one
    array, the transposed zero residue; this for every number of
    directions, every direction sampler, every stopping criterion and every
    amount of fuel. *)
Theorem memd_zero_input :
  forall (fuel N N_dim ndir : nat) (maxnIMF : option Z) (stp_crit : string)
         (sd sd2 tol : R) (stp_cnt MaxIterations : Z) (seq : mat),
    (forall it : nat, direction_failed (zeros N N_dim) seq N_dim it = true) /\
    stop_emd (zeros N N_dim) seq ndir N_dim = true /\
    memd CubicSpline create_halton_samples zero_run_midpoints fuel
         (zeros N N_dim) ndir maxnIMF stp_crit sd sd2 tol stp_cnt MaxIterations
    = Some ([], Ok [transpose (zeros N N_dim)]).
Proof.
  intros.
  assert (Hflat : forall (n k : nat) (d : list R),
             local_peaks (np_dot (zeros n k) d) = ([], [])).
  { intros n k d. rewrite np_dot_zeros. apply local_peaks_zeros. }
  split; [|split].
  - intros it. unfold direction_failed, extrema_count, projection.
    rewrite Hflat. reflexivity.
  - apply stop_emd_flat. apply Hflat.
  - unfold memd.
    destruct fuel as [|fuel]; cbn [memd_loop];
      rewrite stop_emd_flat by apply Hflat; reflexivity.
Qed.

End ZeroInput.

(** ** Unvalidated stopping criterion (C10) *)

Section Criterion.

Variable CubicSpline : list Z -> mat -> list Z -> result mat.
Variable create_halton_samples : nat -> nat -> mat.
Variable zero_run_midpoints : list R -> result (list Z).

Lemma sift_policy_not_stop (ndir : nat) (s : string) (sd sd2 tol : R)
  (stp_cnt : Z) (t : list Z) (seq : mat) (N N_dim : nat) (m : mat) (c : Z) :
  s <> "stop"%string ->
  sift_policy CubicSpline zero_run_midpoints ndir s sd sd2 tol stp_cnt t seq
              N N_dim m c
  = fix_ CubicSpline zero_run_midpoints m t seq ndir stp_cnt c N N_dim.
Proof.
  intros Hs. unfold sift_policy.
  destruct (String.eqb_spec s "stop"); [contradiction | reflexivity].
Qed.

Lemma sift_loop_not_stop (ndir : nat) (s s' : string) (sd sd2 tol : R)
  (stp_cnt MaxIterations : Z) (t : list Z) (seq : mat) (N N_dim : nat) :
  s <> "stop"%string -> s' <> "stop"%string ->
  forall (fuel : nat) (m env : mat) (b : bool) (c nbit : Z)
         (log : list diagnostic),
    sift_loop CubicSpline zero_run_midpoints ndir s sd sd2 tol stp_cnt
              MaxIterations t seq N N_dim fuel m env b c nbit log
    = sift_loop CubicSpline zero_run_midpoints ndir s' sd sd2 tol stp_cnt
                MaxIterations t seq N N_dim fuel m env b c nbit log.
Proof.
  intros Hs Hs'. induction fuel as [|fuel IH]; intros; cbn [sift_loop].
  - reflexivity.
  - rewrite !sift_policy_not_stop by assumption.
    destruct (negb b && (nbit <? MaxIterations)%Z); [|reflexivity].
    destruct (fix_ _ _ _ _ _ _ _ _ _ _) as [[b' env'] c'].
    destruct ((nbit + 1 =? MaxIterations - 1)%Z && (100 <? nbit + 1)%Z).
    + destruct (w <- warnings_getattr "wanr" ;; _); [apply IH | reflexivity].
    + apply IH.
Qed.

Lemma memd_loop_not_stop (x : mat) (ndir : nat) (maxnIMF : option Z)
  (s s' : string) (sd sd2 tol : R) (stp_cnt MaxIterations : Z) (t : list Z)
  (seq : mat) (N N_dim : nat) :
  s <> "stop"%string -> s' <> "stop"%string ->
  forall (fuel : nat) (r : mat) (q : list mat) (n_imf nbit : Z)
         (log : list diagnostic),
    memd_loop CubicSpline zero_run_midpoints x ndir maxnIMF s sd sd2 tol
              stp_cnt MaxIterations t seq N N_dim fuel r q n_imf nbit log
    = memd_loop CubicSpline zero_run_midpoints x ndir maxnIMF s' sd sd2 tol
                stp_cnt MaxIterations t seq N N_dim fuel r q n_imf nbit log.
Proof.
  intros Hs Hs'. induction fuel as [|fuel IH]; intros; cbn [memd_loop].
  - reflexivity.
  - rewrite !sift_policy_not_stop by assumption.
    destruct (negb (stop_emd r seq ndir N_dim)); [|reflexivity].
    destruct (fix_ _ _ _ _ _ _ _ _ _ _) as [[b' env'] c'].
    destruct (a <- np_max_abs r ;; _) as [[|]|e]; try reflexivity.
    rewrite (sift_loop_not_stop ndir s s') by assumption.
    destruct (sift_loop _ _ _ _ _ _ _ _ _ _ _ _ _ _ _ _ _ _ _ _)
      as [[[m' log']|e]|]; try reflexivity.
    destruct (match maxnIMF with Some cap => _ | None => false end);
      [reflexivity | apply IH].
Qed.


End Criterion.

(** ** Fixed-count stopping policy (C2) *)

Section FixedCount.

Variable CubicSpline : list Z -> mat -> list Z -> result mat.
Variable zero_run_midpoints : list R -> result (list Z).
Variable ndir : nat.
Variable stp_crit : string.
Variables sd sd2 tol : R.
Variables stp_cnt : Z.
Variable t : list Z.
Variable seq : mat.
Variables N N_dim : nat.

Hypothesis not_stop : stp_crit <> "stop"%string.

Let policy := sift_policy CubicSpline zero_run_midpoints ndir stp_crit sd sd2
                          tol stp_cnt t seq N N_dim.
Let verdict := verdict_at CubicSpline zero_run_midpoints ndir stp_crit sd sd2
                          tol stp_cnt t seq N N_dim.
Let counter := counter_at CubicSpline zero_run_midpoints ndir stp_crit sd sd2
                          tol stp_cnt t seq N N_dim.
Let mode := mode_at CubicSpline zero_run_midpoints ndir stp_crit sd sd2
                    tol stp_cnt t seq N N_dim.
Let differ := counts_differ_at CubicSpline zero_run_midpoints ndir stp_crit
                               sd sd2 tol stp_cnt t seq N N_dim.
Let ok := envelope_ok_at CubicSpline zero_run_midpoints ndir stp_crit sd sd2
                         tol stp_cnt t seq N N_dim.

(** One evaluation of [fix] whose envelope was computed. *)
Lemma policy_fix (m : mat) (c : Z) (res : mat * list Z * list Z * list R) :
  envelope_mean CubicSpline zero_run_midpoints m t seq ndir N N_dim = Ok res ->
  let differ_m := counts_differ (snd (fst res)) (snd (fst (fst res))) in
  fst (fst (policy m c)) = negb differ_m && (stp_cnt <=? c + 1)%Z /\
  snd (policy m c) = if differ_m then 0%Z else (c + 1)%Z.
Proof.
  intros Hres. unfold policy.
  rewrite sift_policy_not_stop by exact not_stop.
  unfold fix_. rewrite Hres.
  destruct res as [[[env nem] nzm] amp]. cbn [fst snd].
  destruct (counts_differ nzm nem); cbn [fst snd negb andb]; auto.
Qed.

Lemma trace_first (r : mat) :
  ok r 0%nat ->
  verdict r 0%nat = negb (differ r 0%nat) && (stp_cnt <=? 1)%Z /\
  counter r 0%nat = if differ r 0%nat then 0%Z else 1%Z.
Proof.
  intros [res Hres].
  unfold verdict, counter, differ, verdict_at, counter_at, counts_differ_at,
         mode_at in *.
  cbn [sift_trace] in *. unfold sift_start in *. cbn [fst snd] in *.
  fold policy. destruct (policy_fix r 0%Z res Hres) as [Hv Hc].
  rewrite Hv, Hc, Hres. destruct res as [[[env nem] nzm] amp]. auto.
Qed.

Lemma trace_next (r : mat) (k : nat) :
  ok r (S k) ->
  verdict r (S k)
  = negb (differ r (S k)) && (stp_cnt <=? counter r k + 1)%Z /\
  counter r (S k) = if differ r (S k) then 0%Z else (counter r k + 1)%Z.
Proof.
  intros [res Hres].
  unfold verdict, counter, differ, verdict_at, counter_at, counts_differ_at,
         mode_at in *.
  cbn [sift_trace] in *.
  destruct (sift_trace _ _ _ _ _ _ _ _ _ _ _ _ r k) as [[[b env] c] m].
  unfold sift_step in *. cbn [fst snd] in *.
  fold policy. destruct (policy_fix _ c res Hres) as [Hv Hc].
  rewrite Hv, Hc, Hres. destruct res as [[[env' nem] nzm] amp]. auto.
Qed.

(** The counter is the length of the current streak of evaluations whose
    counts do not all differ. *)
Lemma counter_is_streak (r : mat) (k : nat) :
  (forall j, (j <= k)%nat -> ok r j) ->
  (0 <= counter r k)%Z /\
  forall n : Z,
    (1 <= n)%Z ->
    ((n <= counter r k)%Z <->
     (n <= Z.of_nat k + 1)%Z /\
     forall j, (j <= k)%nat -> (Z.of_nat k + 1 - n <= Z.of_nat j)%Z ->
               differ r j = false).
Proof.
  induction k as [|k IH]; intros Hok.
  - destruct (trace_first r (Hok 0%nat (le_n 0))) as [_ Hc]. rewrite Hc.
    destruct (differ r 0%nat) eqn:Hd; (split; [lia|]); intros n Hn; split.
    + lia.
    + intros [_ H]. specialize (H 0%nat (le_n 0)).
      rewrite Hd in H. assert (true = false) by (apply H; lia). discriminate.
    + intros Hle. split; [lia|]. intros j Hj _.
      assert (j = 0%nat) by lia. now subst j.
    + intros [Hle _]. lia.
  - destruct (trace_next r k (Hok (S k) (le_n _))) as [_ Hc]. rewrite Hc.
    destruct IH as [Hpos IH]; [intros j Hj; apply Hok; lia|].
    destruct (differ r (S k)) eqn:Hd; (split; [lia|]); intros n Hn; split.
    + lia.
    + intros [_ H]. specialize (H (S k) (le_n _)).
      rewrite Hd in H. assert (true = false) by (apply H; lia). discriminate.
    + intros Hle. destruct (Z.eq_dec n 1) as [->|Hn1].
      * split; [lia|]. intros j Hj Hlo.
        assert (j = S k) by lia. now subst j.
      * assert (Hn' : (1 <= n - 1)%Z) by lia.
        destruct (proj1 (IH (n - 1)%Z Hn')) as [Hb Hall]; [lia|].
        split; [lia|]. intros j Hj Hlo.
        destruct (Nat.eq_dec j (S k)) as [->|Hjk]; [exact Hd|].
        apply Hall; lia.
    + intros [Hle Hall]. destruct (Z.eq_dec n 1) as [->|Hn1]; [lia|].
      assert (Hn' : (1 <= n - 1)%Z) by lia.
      assert ((n - 1 <= counter r k)%Z); [|lia].
      apply (IH (n - 1)%Z Hn'). split; [lia|].
      intros j Hj Hlo. apply Hall; lia.
Qed.

(** C2, as the code has it. Under the fixed-count policy an evaluation
    halts the sifting exactly when it closes a streak of [stp_cnt]
    consecutive evaluations on which it is NOT the case that the two counts
    differ by more than one in every direction; an evaluation on which they
    do differ in every direction does not halt and resets the counter. *)
Theorem fix_halts_after_streak :
  forall (r : mat) (k : nat),
    (1 <= stp_cnt)%Z ->
    (forall j, (j <= k)%nat -> ok r j) ->
    (verdict r k = true <->
     (stp_cnt <= Z.of_nat k + 1)%Z /\
     forall j, (j <= k)%nat -> (Z.of_nat k + 1 - stp_cnt <= Z.of_nat j)%Z ->
               differ r j = false)
    /\ (differ r k = true -> verdict r k = false /\ counter r k = 0%Z).
Proof.
  intros r k Hcnt Hok.
  destruct (counter_is_streak r k Hok) as [Hpos Hstreak].
  assert (Hv : verdict r k = negb (differ r k) && (stp_cnt <=? counter r k)%Z
               /\ (differ r k = true -> counter r k = 0%Z)).
  { destruct k as [|k].
    - destruct (trace_first r (Hok 0%nat (le_n 0))) as [Hv Hc].
      rewrite Hv, Hc.
      destruct (differ r 0%nat); split; try reflexivity; intros; congruence.
    - destruct (trace_next r k (Hok (S k) (le_n _))) as [Hv Hc].
      rewrite Hv, Hc.
      destruct (differ r (S k)); split; try reflexivity; intros; congruence. }
  destruct Hv as [Hv Hreset]. split.
  - rewrite Hv. split.
    + intros H. apply andb_prop in H. destruct H as [_ H].
      apply Z.leb_le in H. now apply Hstreak.
    + intros H. pose proof (proj2 (Hstreak stp_cnt Hcnt) H) as Hle.
      destruct H as [Hb Hall].
      rewrite (Hall k (le_n k)) by lia. cbn [negb andb].
      now apply Z.leb_le.
  - intros Hd. split; [|now apply Hreset].
    rewrite Hv, Hd. reflexivity.
Qed.

End FixedCount.

(** ** Envelope estimator: failed directions *)

Lemma bind_Ok_inv {A B : Type} (c : result A) (k : A -> result B) (b : B) :
  bind c k = Ok b -> exists a, c = Ok a /\ k a = Ok b.
Proof. destruct c as [a|e]; cbn [bind]; [eauto | discriminate]. Qed.

(** [boundary_conditions] answers [mode = 0] exactly for fewer than three
    extrema. *)
Lemma boundary_conditions_few (indmin indmax t : list Z) (x : list R)
  (z : mat) (nbsym : Z) :
  (len indmin + len indmax < 3)%Z ->
  boundary_conditions indmin indmax t x z nbsym = Ok None.
Proof.
  intros H. unfold boundary_conditions.
  apply Z.ltb_lt in H. now rewrite H.
Qed.

Lemma boundary_conditions_enough (indmin indmax t : list Z) (x : list R)
  (z : mat) (nbsym : Z) :
  (3 <= len indmin + len indmax)%Z ->
  boundary_conditions indmin indmax t x z nbsym <> Ok None.
Proof.
  intros H. unfold boundary_conditions.
  apply Z.ltb_ge in H. rewrite H. intros E.
  repeat match type of E with
  | bind _ _ = Ok None =>
      apply bind_Ok_inv in E; destruct E as (? & _ & E)
  | (let '(_, _) := ?p in _) = Ok None => destruct p
  end.
  discriminate E.
Qed.

Section Envelope.

Variable CubicSpline : list Z -> mat -> list Z -> result mat.
Variable zero_run_midpoints : list R -> result (list Z).
Variable m : mat.
Variable t : list Z.
Variable seq : mat.
Variable N_dim : nat.

Let failed := direction_failed m seq N_dim.
Let good := fun it => negb (direction_failed m seq N_dim it).
Let contribution := direction_envelopes CubicSpline m t seq N_dim.
Let step := envelope_step CubicSpline zero_run_midpoints m t seq N_dim.
Let loop := envelope_loop CubicSpline zero_run_midpoints m t seq N_dim.

Lemma dir_vec_before_S (it : nat) :
  dir_vec_before seq N_dim (S it) = dir_vec_at seq N_dim it.
Proof.
  unfold dir_vec_before, dir_vec_at.
  rewrite seq_S, fold_left_app. reflexivity.
Qed.

(** One pass of the direction loop: a failed direction only moves the
    failure count, another one only the two running sums. *)
Lemma envelope_step_spec (s s1 : env_acc) (it : nat) :
  acc_dir_vec s = dir_vec_before seq N_dim it ->
  step s it = Ok s1 ->
  acc_dir_vec s1 = dir_vec_before seq N_dim (S it) /\
  acc_nem s1
  = set_item (acc_nem s) (Z.of_nat it) (extrema_count m seq N_dim it) /\
  (exists iz,
      zero_crossings zero_run_midpoints (projection m seq N_dim it) = Ok iz /\
      acc_nzm s1 = set_item (acc_nzm s) (Z.of_nat it) (len iz)) /\
  (if failed it
   then acc_count s1 = (acc_count s + 1)%Z /\
        acc_env_mean s1 = acc_env_mean s /\
        acc_amp s1 = acc_amp s
   else exists c,
        contribution it = Ok c /\
        acc_count s1 = acc_count s /\
        acc_env_mean s1 = mat_add (acc_env_mean s) (fst c) /\
        acc_amp s1 = zip_with Rplus (acc_amp s) (snd c)).
Proof.
  intros Hdv Hstep. rewrite dir_vec_before_S.
  unfold step, envelope_step in Hstep. rewrite Hdv in Hstep.
  fold (dir_vec_at seq N_dim it) in Hstep.
  fold (projection m seq N_dim it) in Hstep.
  unfold failed, contribution, direction_failed, direction_envelopes,
         extrema_count.
  destruct (local_peaks (projection m seq N_dim it)) as [indmin indmax].
  cbn [fst snd].
  apply bind_Ok_inv in Hstep. destruct Hstep as (iz & Hiz & Hstep).
  apply bind_Ok_inv in Hstep. destruct Hstep as (bc & Hbc & Hstep).
  rewrite Hbc. cbn [bind].
  destruct (len indmin + len indmax <? 3)%Z eqn:Hfew.
  - apply Z.ltb_lt in Hfew.
    rewrite boundary_conditions_few in Hbc by exact Hfew.
    injection Hbc as <-. injection Hstep as <-. cbn.
    repeat split; eauto.
  - apply Z.ltb_ge in Hfew.
    destruct bc as [[[[tmin tmax] zmin] zmax]|].
    + apply bind_Ok_inv in Hstep. destruct Hstep as (env_min & Hmin & Hstep).
      apply bind_Ok_inv in Hstep. destruct Hstep as (env_max & Hmax & Hstep).
      injection Hstep as <-. rewrite Hmin, Hmax. cbn.
      repeat split; eauto.
    + exfalso. now apply (boundary_conditions_enough _ _ _ _ _ _ Hfew Hbc).
Qed.

(** The direction loop from pass [it0] on. *)
Lemma envelope_loop_spec (n it0 : nat) (s s' : env_acc) :
  acc_dir_vec s = dir_vec_before seq N_dim it0 ->
  loop (List.seq it0 n) s = Ok s' ->
  exists contribs,
    mapM contribution (filter good (List.seq it0 n)) = Ok contribs /\
    acc_count s' = (acc_count s + len (filter failed (List.seq it0 n)))%Z /\
    acc_env_mean s' = fold_left mat_add (map fst contribs) (acc_env_mean s) /\
    acc_amp s'
    = fold_left (zip_with Rplus) (map snd contribs) (acc_amp s).
Proof.
  revert it0 s. induction n as [|n IH]; intros it0 s Hdv Hloop.
  - cbn in Hloop. injection Hloop as <-.
    exists []. cbn [List.seq filter mapM map fold_left].
    repeat split; try reflexivity. unfold len. cbn [length]. lia.
  - cbn [List.seq] in *. unfold loop in Hloop. cbn [envelope_loop] in Hloop.
    apply bind_Ok_inv in Hloop. destruct Hloop as (s1 & Hstep & Hloop).
    destruct (envelope_step_spec s s1 it0 Hdv Hstep)
      as (Hdv1 & _ & _ & Hcase).
    destruct (IH (S it0) s1 Hdv1 Hloop) as (cs & Hcs & Hcount & Hmean & Hamp).
    rewrite !filter_step. unfold good at 1. fold (failed it0).
    destruct (failed it0); cbn [negb].
    + destruct Hcase as (Hc1 & Hm1 & Ha1).
      exists cs. rewrite Hcount, Hmean, Hamp, Hc1, Hm1, Ha1.
      repeat split; try assumption.
      unfold len. cbn [length]. lia.
    + destruct Hcase as (c & Hc & Hc1 & Hm1 & Ha1).
      exists (c :: cs). rewrite mapM_step, Hc, Hcs. cbn [bind map fold_left].
      rewrite Hcount, Hmean, Hamp, Hc1, Hm1, Ha1.
      repeat split; reflexivity.
Qed.

(** When every direction fails the loop ends with all of them counted,
    provided the zero crossings of each projection can be computed. *)
Lemma envelope_loop_all_failed (n it0 : nat) (s : env_acc) :
  acc_dir_vec s = dir_vec_before seq N_dim it0 ->
  (forall it, (it0 <= it < it0 + n)%nat -> failed it = true) ->
  (forall it, (it0 <= it < it0 + n)%nat ->
     exists iz,
       zero_crossings zero_run_midpoints (projection m seq N_dim it) = Ok iz) ->
  exists s',
    loop (List.seq it0 n) s = Ok s' /\
    acc_count s' = (acc_count s + Z.of_nat n)%Z.
Proof.
  revert it0 s. induction n as [|n IH]; intros it0 s Hdv Hfail Hzero.
  - exists s. split; [reflexivity | lia].
  - cbn [List.seq]. unfold loop. cbn [envelope_loop].
    assert (Hin : (it0 <= it0 < it0 + S n)%nat) by lia.
    destruct (Hzero it0 Hin) as [iz Hiz].
    pose proof (Hfail it0 Hin) as Hf.
    unfold failed, direction_failed, extrema_count in Hf.
    apply Z.ltb_lt in Hf.
    assert (Hstep : exists s1, step s it0 = Ok s1).
    { unfold step, envelope_step. rewrite Hdv.
      fold (dir_vec_at seq N_dim it0). fold (projection m seq N_dim it0).
      destruct (local_peaks (projection m seq N_dim it0)) as [imin imax].
      cbn [fst snd] in Hf.
      rewrite Hiz. cbn [bind].
      rewrite boundary_conditions_few by exact Hf. cbn [bind]. eauto. }
    destruct Hstep as [s1 Hstep]. fold step. rewrite Hstep. cbn [bind].
    destruct (envelope_step_spec s s1 it0 Hdv Hstep)
      as (Hdv1 & _ & _ & Hcase).
    rewrite (Hfail it0 Hin) in Hcase. destruct Hcase as (Hc1 & _).
    destruct (IH (S it0) s1 Hdv1) as (s' & Hs' & Hc').
    + intros it Hit. apply Hfail. lia.
    + intros it Hit. apply Hzero. lia.
    + exists s'. split; [exact Hs'|]. rewrite Hc', Hc1. lia.
Qed.

Lemma filter_all_length {A : Type} (p : A -> bool) (l : list A) :
  length (filter p l) = length l -> forall a, In a l -> p a = true.
Proof.
  induction l as [|b l IH]; intros Hlen a Hin; [contradiction|].
  rewrite filter_step in Hlen. pose proof (filter_length_le p l) as Hle.
  destruct (p b) eqn:Hb; cbn [length] in Hlen; [|lia].
  destruct Hin as [->|Hin]; [exact Hb | apply IH; [lia | exact Hin]].
Qed.

(** X25. Whenever [envelope_mean] returns, a direction whose projection
    has fewer than 3 extrema has added nothing to the mean envelope and
    amplitude, the sums over the other directions have been divided by
    [ndir] minus the number of failed ones, and with all [ndir] directions
    failed the result is the zero [N x N_dim] envelope, the zero amplitude
    of length [N] and zero extrema counts. When all directions fail and
    [zero_crossings] returns on every projection, [envelope_mean] does
    return, with those zero arrays. *)
Theorem envelope_mean_failed_directions :
  forall ndir N : nat,
    let failures := filter failed (List.seq 0 ndir) in
    let k := IZR (Z.of_nat ndir - len failures) in
    (forall env_mean nem nzm amp,
        envelope_mean CubicSpline zero_run_midpoints m t seq ndir N N_dim
        = Ok (env_mean, nem, nzm, amp) ->
        exists contribs,
          mapM contribution (filter good (List.seq 0 ndir)) = Ok contribs /\
          ((length failures < ndir)%nat ->
           env_mean
           = mat_scale (fun v => v / k)
               (fold_left mat_add (map fst contribs)
                          (zeros (length t) N_dim)) /\
           amp
           = map (fun v => v / k)
               (fold_left (zip_with Rplus) (map snd contribs)
                          (zeros1 (length t)))) /\
          (length failures = ndir ->
           contribs = [] /\ env_mean = zeros N N_dim /\ amp = zeros1 N /\
           nem = repeat 0%Z ndir))
    /\
    ((forall it, (it < ndir)%nat -> failed it = true) ->
     (forall it, (it < ndir)%nat ->
        exists iz,
          zero_crossings zero_run_midpoints (projection m seq N_dim it)
          = Ok iz) ->
     exists nzm,
       envelope_mean CubicSpline zero_run_midpoints m t seq ndir N N_dim
       = Ok (zeros N N_dim, repeat 0%Z ndir, nzm, zeros1 N)).
Proof.
  intros ndir N failures k. split.
  - intros env_mean nem nzm amp H. unfold envelope_mean in H.
    apply bind_Ok_inv in H. destruct H as (s & Hloop & H).
    apply envelope_loop_spec in Hloop; [|reflexivity].
    destruct Hloop as (cs & Hcs & Hcount & Hmean & Hamp).
    cbn [acc_count acc_env_mean acc_amp] in Hcount, Hmean, Hamp.
    fold failures in Hcount.
    assert (Hle : (length failures <= ndir)%nat).
    { pose proof (filter_length_le failed (List.seq 0 ndir)) as Hl.
      now rewrite length_seq in Hl. }
    exists cs. split; [exact Hcs|]. split.
    + intros Hlt.
      assert (Hb : (acc_count s <? Z.of_nat ndir)%Z = true)
        by (apply Z.ltb_lt; unfold len in Hcount; lia).
      rewrite Hb in H. injection H as <- <- <- <-.
      rewrite Hmean, Hamp. unfold k.
      replace (Z.of_nat ndir - acc_count s)%Z
        with (Z.of_nat ndir - len failures)%Z by lia.
      split; reflexivity.
    + intros Hall.
      assert (Hb : (acc_count s <? Z.of_nat ndir)%Z = false)
        by (apply Z.ltb_ge; unfold len in Hcount; lia).
      rewrite Hb in H. injection H as <- <- <- <-.
      split; [|repeat split].
      assert (Hgood : filter good (List.seq 0 ndir) = []).
      { assert (Hf : forall a, In a (List.seq 0 ndir) -> failed a = true).
        { apply filter_all_length. fold failures.
          now rewrite length_seq. }
        clear - Hf. induction (List.seq 0 ndir) as [|a l IH]; [reflexivity|].
        rewrite filter_step. unfold good at 1. fold (failed a).
        rewrite (Hf a (or_introl eq_refl)). cbn [negb].
        apply IH. intros b Hb. apply Hf. now right. }
      rewrite Hgood in Hcs. cbn in Hcs. now injection Hcs as <-.
  - intros Hfail Hzero. unfold envelope_mean.
    destruct (envelope_loop_all_failed ndir 0
                (mk_env_acc (zeros1 N_dim) (zeros (length t) N_dim)
                            (zeros1 (length t)) (repeat 0%Z ndir)
                            (repeat 0%Z ndir) 0%Z))
      as (s & Hs & Hcount); [reflexivity | | |].
    + intros it Hit. apply Hfail. lia.
    + intros it Hit. apply Hzero. lia.
    + fold loop. rewrite Hs. cbn [bind]. cbn [acc_count] in Hcount.
      assert (Hb : (acc_count s <? Z.of_nat ndir)%Z = false)
        by (apply Z.ltb_ge; lia).
      rewrite Hb. eauto.
Qed.

End Envelope.

(** ** Sifting engine (C4, C5, C1) *)

Lemma np_max_abs_nonneg (m : mat) (a : R) : np_max_abs m = Ok a -> 0 <= a.
Proof.
  unfold np_max_abs. destruct (concat m) as [|v vs]; [discriminate|].
  intros H. injection H as <-.
  assert (G : forall l b, 0 <= b -> 0 <= fold_left Rmax l b).
  { induction l as [|c l IH]; intros b Hb; [exact Hb|].
    cbn [fold_left]. apply IH.
    apply Rle_trans with b; [exact Hb | apply Rmax_l]. }
  apply G, Rabs_pos.
Qed.

Section Sifting.

Variable CubicSpline : list Z -> mat -> list Z -> result mat.
Variable zero_run_midpoints : list R -> result (list Z).
Variable x : mat.
Variable ndir : nat.
Variable maxnIMF : option Z.
Variable stp_crit : string.
Variables sd sd2 tol : R.
Variables stp_cnt MaxIterations : Z.
Variable t : list Z.
Variable seq : mat.
Variables N N_dim : nat.

Let policy := sift_policy CubicSpline zero_run_midpoints ndir stp_crit sd sd2
                          tol stp_cnt t seq N N_dim.
Let sift := sift_loop CubicSpline zero_run_midpoints ndir stp_crit sd sd2 tol
                      stp_cnt MaxIterations t seq N N_dim.
Let outer := memd_loop CubicSpline zero_run_midpoints x ndir maxnIMF stp_crit
                       sd sd2 tol stp_cnt MaxIterations t seq N N_dim.
Let trace := sift_trace CubicSpline zero_run_midpoints ndir stp_crit sd sd2
                        tol stp_cnt t seq N N_dim.
Let verdict := verdict_at CubicSpline zero_run_midpoints ndir stp_crit sd sd2
                          tol stp_cnt t seq N N_dim.

(** The sifting loop entered after [k] sifts of [r], with [n + 1] passes
    left before [nbit] is [MaxIterations - 1]. *)
Lemma sift_loop_reaches_wanr (r : mat) (log : list diagnostic) (n : nat) :
  forall (k fuel : nat),
    (Z.of_nat k + Z.of_nat (S n) = MaxIterations - 1)%Z ->
    (102 <= MaxIterations)%Z ->
    (S n <= fuel)%nat ->
    (forall j, (k <= j <= k + n)%nat -> verdict r j = false) ->
    sift fuel (snd (trace r k)) (snd (fst (fst (trace r k))))
         (fst (fst (fst (trace r k)))) (snd (fst (trace r k))) (Z.of_nat k) log
    = Some (Raise AttributeError).
Proof.
  induction n as [|n IH]; intros k fuel Hk Hmax Hfuel Hv;
    (destruct fuel as [|fuel]; [lia|]);
    pose proof (Hv k ltac:(lia)) as Hvk;
    unfold verdict, verdict_at in Hvk; fold trace in Hvk;
    unfold sift; cbn [sift_loop]; rewrite Hvk;
    (replace (Z.of_nat k <? MaxIterations)%Z with true
      by (symmetry; apply Z.ltb_lt; lia));
    cbn [negb andb];
    pose proof (eq_refl (trace r (S k))) as Hstep;
    unfold trace at 1 in Hstep; cbn [sift_trace] in Hstep; fold trace in Hstep;
    destruct (trace r k) as [[[b env] c] m] eqn:Htk; cbn [fst snd];
    unfold sift_step in Hstep; fold policy in Hstep; fold policy;
    destruct (policy (mat_sub m env) c) as [[b' env'] c'] eqn:Hp.
  - replace (Z.of_nat k + 1 =? MaxIterations - 1)%Z with true
      by (symmetry; apply Z.eqb_eq; lia).
    replace (100 <? Z.of_nat k + 1)%Z with true
      by (symmetry; apply Z.ltb_lt; lia).
    reflexivity.
  - replace (Z.of_nat k + 1 =? MaxIterations - 1)%Z with false
      by (symmetry; apply Z.eqb_neq; lia).
    cbn [andb]. fold sift.
    specialize (IH (S k) fuel).
    rewrite <- Hstep in IH. cbn [fst snd] in IH.
    replace (Z.of_nat k + 1)%Z with (Z.of_nat (S k)) by lia.
    apply IH; try lia.
    intros j Hj. apply Hv. lia.
Qed.

(** With [MaxIterations >= 102], a mode that the stopping policy has not
    accepted after [MaxIterations - 2] sifts is not returned by the sifting
    loop: the next pass reaches [warnings.wanr]. *)
Lemma sift_loop_raises_at_cap (r : mat) (log : list diagnostic) (fuel : nat) :
  (102 <= MaxIterations)%Z ->
  (MaxIterations - 1 <= Z.of_nat fuel)%Z ->
  (forall j, (Z.of_nat j <= MaxIterations - 2)%Z -> verdict r j = false) ->
  sift fuel r (snd (fst (policy r 0%Z))) (fst (fst (policy r 0%Z)))
       (snd (policy r 0%Z)) 0%Z log
  = Some (Raise AttributeError).
Proof.
  intros Hmax Hfuel Hv.
  pose proof (sift_loop_reaches_wanr r log (Z.to_nat (MaxIterations - 2))
                0 fuel) as H.
  unfold trace in H. cbn [sift_trace] in H. unfold sift_start in H.
  fold policy in H. cbn [fst snd] in H.
  apply H; try lia.
  intros j Hj. apply Hv. lia.
Qed.

(** C4. When the amplitude test of the outer loop fires while the policy
    has not agreed to stop, [memd] calls [warnings.warn] with a string in
    the place of the warning category and ends with [TypeError]: no warning
    is emitted and no decomposition is returned. *)
Theorem memd_loop_collapse_raises :
  forall (fuel : nat) (r : mat) (q : list mat) (n_imf nbit : Z)
         (log : list diagnostic) (env_mean : mat) (counter : Z) (a b : R),
    stop_emd r seq ndir N_dim = false ->
    policy r 0%Z = (false, env_mean, counter) ->
    np_max_abs r = Ok a ->
    np_max_abs x = Ok b ->
    a < 1 / 10000000000 * b ->
    outer (S fuel) r q n_imf nbit log = Some (log, Raise TypeError).
Proof.
  intros fuel r q n_imf nbit log env_mean counter a b Hemd Hpol Ha Hb Hlt.
  unfold outer. cbn [memd_loop]. rewrite Hemd. cbn [negb].
  fold policy. rewrite Hpol, Ha, Hb. cbn [bind].
  rewrite Rltb_true by exact Hlt. reflexivity.
Qed.

(** When the policy has agreed, the same test prints a line and the
    residue is returned. *)
Lemma memd_loop_collapse_prints (fuel : nat) (r : mat) (q : list mat)
  (n_imf nbit : Z) (log : list diagnostic) (env_mean : mat) (counter : Z)
  (a b : R) :
  stop_emd r seq ndir N_dim = false ->
  policy r 0%Z = (true, env_mean, counter) ->
  np_max_abs r = Ok a ->
  np_max_abs x = Ok b ->
  a < 1 / 10000000000 * b ->
  outer (S fuel) r q n_imf nbit log
  = Some (log ++ [Printed "forced stop of EMD : too small amplitude"],
          Ok (q ++ [transpose r])).
Proof.
  intros Hemd Hpol Ha Hb Hlt.
  unfold outer. cbn [memd_loop]. rewrite Hemd. cbn [negb].
  fold policy. rewrite Hpol, Ha, Hb. cbn [bind].
  rewrite Rltb_true by exact Hlt. reflexivity.
Qed.

(** An exception of the sifting loop ends [memd]. *)
Lemma memd_loop_sift_raises (fuel : nat) (r : mat) (q : list mat)
  (n_imf nbit : Z) (log : list diagnostic) (b : bool) (env_mean : mat)
  (counter : Z) (a a' : R) (e : exn) :
  stop_emd r seq ndir N_dim = false ->
  policy r 0%Z = (b, env_mean, counter) ->
  np_max_abs r = Ok a ->
  np_max_abs x = Ok a' ->
  1 / 10000000000 * a' <= a ->
  sift fuel r env_mean b counter nbit log = Some (Raise e) ->
  outer (S fuel) r q n_imf nbit log = Some (log, Raise e).
Proof.
  intros Hemd Hpol Ha Ha' Hge Hsift.
  unfold outer. cbn [memd_loop]. rewrite Hemd. cbn [negb].
  fold policy. rewrite Hpol, Ha, Ha'. cbn [bind].
  rewrite Rltb_false by exact Hge. fold sift. now rewrite Hsift.
Qed.

(** C5. With [MaxIterations >= 102] (the default is 1000), a mode that
    the stopping policy has not accepted after [MaxIterations - 2] sifts
    is never extracted: the next pass of the sifting loop reaches
    [warnings.wanr], a name the module [warnings] does not have, and [memd]
    ends with [AttributeError], without a diagnostic and without a
    result. *)
Theorem memd_loop_cap_raises :
  forall (fuel : nat) (r : mat) (q : list mat) (n_imf : Z)
         (log : list diagnostic) (a a' : R),
    (102 <= MaxIterations)%Z ->
    (MaxIterations - 1 <= Z.of_nat fuel)%Z ->
    stop_emd r seq ndir N_dim = false ->
    np_max_abs r = Ok a ->
    np_max_abs x = Ok a' ->
    1 / 10000000000 * a' <= a ->
    (forall j, (Z.of_nat j <= MaxIterations - 2)%Z -> verdict r j = false) ->
    outer (S fuel) r q n_imf 0%Z log = Some (log, Raise AttributeError).
Proof.
  intros fuel r q n_imf log a a' Hmax Hfuel Hemd Ha Ha' Hge Hv.
  destruct (policy r 0%Z) as [[b env_mean] counter] eqn:Hpol.
  apply (memd_loop_sift_raises fuel r q n_imf 0%Z log b env_mean counter
           a a' AttributeError Hemd Hpol Ha Ha' Hge).
  pose proof (sift_loop_raises_at_cap r log fuel Hmax Hfuel Hv) as H.
  rewrite Hpol in H. exact H.
Qed.

End Sifting.

(** ** Runs on a five-sample oscillation *)

(** With one channel the direction vector is [1], whatever the sample. *)
Lemma next_dir_vec_1d (seq : mat) (it : nat) (v : R) :
  next_dir_vec seq it 1 [v] = [1].
Proof.
  unfold next_dir_vec, make_dir_vectors. cbn [Nat.eqb negb].
  change (Z.of_nat 1 - 1)%Z with 0%Z.
  rewrite slice_to_0, zip_with_nil_r. reflexivity.
Qed.

Lemma const_spline_reproduces_constants : reproduces_constants const_spline.
Proof.
  intros tk zk t row Hlen Hzk _ Hrows. unfold const_spline.
  destruct zk as [|r0 zk]; [rewrite <- Hzk in Hlen; cbn in Hlen; lia|].
  inversion Hrows; subst. reflexivity.
Qed.

Lemma np_dot_oscillation (a b : R) :
  np_dot (oscillation a b) [1] = [a; b; a; b; a].
Proof.
  unfold np_dot, oscillation, dot_row, np_sum.
  cbn [map zip_with fold_right]. entrywise.
Qed.

Lemma np_dot_constant5 (c : R) : np_dot (constant5 c) [1] = [c; c; c; c; c].
Proof. apply (np_dot_oscillation c c). Qed.

Lemma local_peaks_oscillation (a b : R) :
  a < b -> 1 / 100000 <= b ->
  local_peaks [a; b; a; b; a] = ([2%Z], [1%Z; 3%Z]).
Proof.
  intros Hab Hb. unfold local_peaks. cbn [forallb].
  rewrite (Rltb_false b) by lra. cbn [andb]. rewrite andb_false_r.
  reval. reflexivity.
Qed.

Lemma local_peaks_constant5 (c : R) :
  local_peaks [c; c; c; c; c] = ([], []).
Proof.
  destruct (Rlt_dec c (1 / 100000)) as [Hc|Hc].
  - apply local_peaks_flat. cbn [forallb].
    rewrite Rltb_true by exact Hc. reflexivity.
  - unfold local_peaks. cbn [forallb].
    rewrite Rltb_false by lra. cbn [andb].
    reval. reflexivity.
Qed.

Lemma boundary_conditions_oscillation (a b : R) :
  a < b ->
  boundary_conditions [2%Z] [1%Z; 3%Z] axis5 [a; b; a; b; a]
                      (oscillation a b) 2
  = Ok (Some ([-1; 1; 3; 5; 7]%Z, [-2; 0; 2; 4; 6; 8]%Z,
              constant5 a, [[b]; [b]; [b]; [b]; [b]; [b]])).
Proof.
  intros Hab. unfold boundary_conditions, axis5, oscillation.
  reval. reflexivity.
Qed.

Lemma zero_crossings_up_from_zero
  (zero_run_midpoints : list R -> result (list Z)) (b : R) :
  0 < b ->
  zero_crossings zero_run_midpoints [0; b; 0; b; 0] = Ok [0; 2; 4]%Z.
Proof.
  intros Hb. unfold zero_crossings. reval. reflexivity.
Qed.

Lemma zero_crossings_around_zero
  (zero_run_midpoints : list R -> result (list Z)) (a b : R) :
  a < 0 -> 0 < b ->
  zero_crossings zero_run_midpoints [a; b; a; b; a] = Ok [0; 1; 2; 3]%Z.
Proof.
  intros Ha Hb. unfold zero_crossings.
  assert (Hab : a * b < 0) by nra.
  assert (Hba : b * a < 0) by nra.
  reval. reflexivity.
Qed.

Lemma zero_crossings_above_zero
  (zero_run_midpoints : list R -> result (list Z)) (a b : R) :
  0 < a -> 0 < b ->
  zero_crossings zero_run_midpoints [a; b; a; b; a] = Ok [].
Proof.
  intros Ha Hb. unfold zero_crossings.
  assert (Hab : 0 < a * b) by nra.
  assert (Hba : 0 < b * a) by nra.
  reval. reflexivity.
Qed.

Lemma sqrt_square_plus_0 (c : R) : 0 <= c -> sqrt (c * c + 0) = c.
Proof. intros Hc. rewrite Rplus_0_r. now apply sqrt_square. Qed.

Section Oscillation.

Variable CubicSpline : list Z -> mat -> list Z -> result mat.
Variable zero_run_midpoints : list R -> result (list Z).
Hypothesis spline_constants : reproduces_constants CubicSpline.

Lemma spline_through_minima (a : R) :
  CubicSpline [-1; 1; 3; 5; 7]%Z (constant5 a) axis5 = Ok (constant5 a).
Proof.
  rewrite (spline_constants _ _ _ [a]); [reflexivity | cbn; lia | reflexivity
                                        | cbn; repeat constructor
                                        | repeat constructor].
Qed.

Lemma spline_through_maxima (b : R) :
  CubicSpline [-2; 0; 2; 4; 6; 8]%Z [[b]; [b]; [b]; [b]; [b]; [b]] axis5
  = Ok (constant5 b).
Proof.
  rewrite (spline_constants _ _ _ [b]); [reflexivity | cbn; lia | reflexivity
                                        | cbn; repeat constructor
                                        | repeat constructor].
Qed.

(** The envelope of the oscillation: the mean of the two levels, and half
    their distance as amplitude. *)
Lemma envelope_mean_oscillation (seq : mat) (a b : R) (iz : list Z) :
  a < b -> 1 / 100000 <= b ->
  zero_crossings zero_run_midpoints [a; b; a; b; a] = Ok iz ->
  envelope_mean CubicSpline zero_run_midpoints (oscillation a b) axis5 seq
                1 5 1
  = Ok (constant5 ((a + b) / 2), [3%Z], [len iz],
        [(b - a) / 2; (b - a) / 2; (b - a) / 2; (b - a) / 2; (b - a) / 2]).
Proof.
  intros Hab Hb Hiz.
  unfold envelope_mean. cbn [List.seq envelope_loop zeros1 repeat].
  unfold envelope_step. cbn [acc_dir_vec].
  rewrite next_dir_vec_1d, np_dot_oscillation,
          (local_peaks_oscillation a b Hab Hb), Hiz.
  cbn [bind].
  rewrite (boundary_conditions_oscillation a b Hab). cbn [bind].
  rewrite spline_through_minima, spline_through_maxima. cbn [bind].
  cbn [acc_count acc_nem acc_nzm acc_env_mean acc_amp length axis5].
  assert (Hs : sqrt ((b - a) * (b - a) + 0) = b - a)
    by (apply sqrt_square_plus_0; lra).
  unfold constant5, mat_scale, mat_add, mat_sub, zeros, zeros1, np_sum.
  rsimp. rewrite !Hs.
  entrywise.
Qed.

End Oscillation.

Section OscillationRun.

Variable CubicSpline : list Z -> mat -> list Z -> result mat.
Variable create_halton_samples : nat -> nat -> mat.
Variable zero_run_midpoints : list R -> result (list Z).
Hypothesis spline_constants : reproduces_constants CubicSpline.

(** The amplitude-ratio evaluator, with the default thresholds, on the
    oscillation between 0 and 1: the mean envelope is 1/2, sifting goes
    on. *)
Lemma stop_oscillation_0_1 (seq : mat) :
  stop CubicSpline zero_run_midpoints (oscillation 0 1) axis5
       (75 / 1000) (75 / 100) (75 / 1000) seq 1 5 1
  = (false, constant5 (1 / 2)).
Proof.
  unfold stop.
  rewrite (envelope_mean_oscillation CubicSpline zero_run_midpoints
             spline_constants seq 0 1 [0; 2; 4]%Z)
    by (try lra; apply zero_crossings_up_from_zero; lra).
  unfold constant5, np_sum. cbn [map fold_right].
  rewrite !(sqrt_square_plus_0 ((0 + 1) / 2)) by lra.
  unfold mean_gt. reval. entrywise.
Qed.

(** After one sift the oscillation is centred: the mean envelope is 0 and
    the evaluator halts. *)
Lemma stop_oscillation_centred (seq : mat) :
  stop CubicSpline zero_run_midpoints (oscillation (-1 / 2) (1 / 2)) axis5
       (75 / 1000) (75 / 100) (75 / 1000) seq 1 5 1
  = (true, constant5 0).
Proof.
  unfold stop.
  rewrite (envelope_mean_oscillation CubicSpline zero_run_midpoints
             spline_constants seq (-1 / 2) (1 / 2) [0; 1; 2; 3]%Z)
    by (try lra; apply zero_crossings_around_zero; lra).
  unfold constant5, np_sum. cbn [map fold_right].
  rewrite !(sqrt_square_plus_0 ((-1 / 2 + 1 / 2) / 2)) by lra.
  unfold mean_gt. reval. entrywise.
Qed.

Lemma sift_oscillation_0_1 :
  mat_sub (oscillation 0 1) (constant5 (1 / 2))
  = oscillation (-1 / 2) (1 / 2).
Proof. unfold mat_sub, oscillation, constant5. cbn [zip_with]. entrywise. Qed.

Lemma residue_oscillation_0_1 :
  mat_sub (oscillation 0 1) (oscillation (-1 / 2) (1 / 2))
  = constant5 (1 / 2).
Proof. unfold mat_sub, oscillation, constant5. cbn [zip_with]. entrywise. Qed.

Lemma np_max_abs_oscillation_0_1 : np_max_abs (oscillation 0 1) = Ok 1.
Proof.
  unfold np_max_abs, oscillation. cbn [concat app map fold_left].
  rewrite Rabs_R0, Rabs_R1.
  rewrite (Rmax_right 0 1) by lra. rewrite (Rmax_left 1 0) by lra.
  rewrite (Rmax_left 1 1) by lra. rewrite (Rmax_left 1 0) by lra.
  reflexivity.
Qed.

Lemma stop_emd_oscillation (seq : mat) (a b : R) :
  a < b -> 1 / 100000 <= b ->
  stop_emd (oscillation a b) seq 1 1 = false.
Proof.
  intros Hab Hb. unfold stop_emd.
  cbn [List.seq fold_left snd fst zeros1 repeat].
  rewrite next_dir_vec_1d, np_dot_oscillation,
          (local_peaks_oscillation a b Hab Hb).
  reflexivity.
Qed.

Lemma stop_emd_constant5 (seq : mat) (c : R) :
  stop_emd (constant5 c) seq 1 1 = true.
Proof.
  unfold stop_emd. cbn [List.seq fold_left snd fst zeros1 repeat].
  rewrite next_dir_vec_1d, np_dot_constant5, local_peaks_constant5.
  reflexivity.
Qed.

(** The sifting of the first mode: one pass. *)
Lemma sift_loop_oscillation_0_1 (seq : mat) (fuel : nat) (c : Z)
  (log : list diagnostic) :
  sift_loop CubicSpline zero_run_midpoints 1 "stop" (75 / 1000) (75 / 100)
            (75 / 1000) 2 1000 axis5 seq 5 1 (S fuel)
            (oscillation 0 1) (constant5 (1 / 2)) false c 0 log
  = Some (Ok (oscillation (-1 / 2) (1 / 2), log)).
Proof.
  cbn [sift_loop negb andb Z.ltb Z.compare].
  rewrite sift_oscillation_0_1. unfold sift_policy. cbn [String.eqb Ascii.eqb Bool.eqb].
  rewrite stop_oscillation_centred.
  cbn [Z.add Z.eqb Z.sub Z.opp Z.pos_sub Pos.pred_double Pos.eqb Pos.add
       andb].
  destruct fuel; reflexivity.
Qed.

(** C1. [memd] called with [maxnIMF = 2] on the oscillation between 0 and
    1 (one channel, one direction, the other arguments at their defaults,
    a spline that reproduces constants): the first mode is the centred
    oscillation, the cap is reached, and the loop is left before
    [r = r - m]; the array returned as residue is the input itself, so the
    returned arrays sum to the input plus the mode, not to the input. *)
Theorem memd_cap_returns_stale_residue :
  forall fuel : nat,
    memd CubicSpline create_halton_samples zero_run_midpoints (S (S fuel))
         (oscillation 0 1) 1 (Some 2%Z) "stop" (75 / 1000) (75 / 100)
         (75 / 1000) 2 1000
    = Some ([], Ok [transpose (oscillation (-1 / 2) (1 / 2));
                    transpose (oscillation 0 1)])
    /\ mat_add (oscillation (-1 / 2) (1 / 2)) (oscillation 0 1)
       <> oscillation 0 1.
Proof.
  intros fuel. split.
  - unfold memd.
    change (ncols (oscillation 0 1)) with 1%nat.
    change (length (oscillation 0 1)) with 5%nat.
    change (map Z.of_nat (List.seq 1 5)) with axis5.
    set (seq := transpose (create_halton_samples 1%nat 1%nat)).
    cbn [memd_loop].
    rewrite stop_emd_oscillation by lra. cbn [negb].
    unfold sift_policy at 1. cbn [String.eqb Ascii.eqb Bool.eqb].
    rewrite stop_oscillation_0_1, np_max_abs_oscillation_0_1. cbn [bind].
    rewrite Rltb_false by lra.
    rewrite sift_loop_oscillation_0_1. reflexivity.
  - unfold mat_add, oscillation. cbn [zip_with]. intros E.
    injection E as E _. lra.
Qed.

(** Without the cap the same input is decomposed into that mode and the
    constant 1/2, which do sum to the input. *)
Lemma memd_uncapped_oscillation (fuel : nat) :
  memd CubicSpline create_halton_samples zero_run_midpoints (S (S fuel))
       (oscillation 0 1) 1 None "stop" (75 / 1000) (75 / 100) (75 / 1000)
       2 1000
  = Some ([], Ok [transpose (oscillation (-1 / 2) (1 / 2));
                  transpose (constant5 (1 / 2))])
  /\ mat_add (oscillation (-1 / 2) (1 / 2)) (constant5 (1 / 2))
     = oscillation 0 1.
Proof.
  split.
  - unfold memd.
    change (ncols (oscillation 0 1)) with 1%nat.
    change (length (oscillation 0 1)) with 5%nat.
    change (map Z.of_nat (List.seq 1 5)) with axis5.
    set (seq := transpose (create_halton_samples 1%nat 1%nat)).
    cbn [memd_loop].
    rewrite stop_emd_oscillation by lra. cbn [negb].
    unfold sift_policy at 1. cbn [String.eqb Ascii.eqb Bool.eqb].
    rewrite stop_oscillation_0_1, np_max_abs_oscillation_0_1. cbn [bind].
    rewrite Rltb_false by lra.
    rewrite sift_loop_oscillation_0_1.
    rewrite residue_oscillation_0_1.
    destruct fuel; cbn [memd_loop]; rewrite stop_emd_constant5; reflexivity.
  - unfold mat_add, oscillation, constant5. cbn [zip_with]. entrywise.
Qed.

End OscillationRun.

Lemma memd_cap_returns_stale_residue_witness :
  memd const_spline no_samples no_zero_runs 2 (oscillation 0 1) 1 (Some 2%Z)
       "stop" (75 / 1000) (75 / 100) (75 / 1000) 2 1000
  = Some ([], Ok [transpose (oscillation (-1 / 2) (1 / 2));
                  transpose (oscillation 0 1)])
  /\ mat_add (oscillation (-1 / 2) (1 / 2)) (oscillation 0 1)
     <> oscillation 0 1.
Proof.
  apply (memd_cap_returns_stale_residue const_spline no_samples no_zero_runs
           const_spline_reproduces_constants 0).
Defined.

(** ** Reconstruction in the runs that the cap does not end *)

Lemma zip_with_row_length {A B C : Type} (f : A -> B -> C) (k : nat)
  (l : list A) (l' : list B) :
  length l = k -> length l' = k -> length (zip_with f l l') = k.
Proof.
  revert k l'. induction l as [|a l IH]; intros k [|b l'] Hl Hl';
    cbn in *; try congruence.
  destruct k as [|k]; [discriminate|]. f_equal. apply IH; congruence.
Qed.

Lemma mat_op_shaped (f : R -> R -> R) (n k : nat) (A B : mat) :
  shaped n k A -> shaped n k B -> shaped n k (zip_with (zip_with f) A B).
Proof.
  intros [HA HAr] [HB HBr]. split.
  - now apply zip_with_row_length.
  - clear HA HB. revert B HBr.
    induction HAr as [|a A Ha HAr IH]; intros B HBr; [constructor|].
    destruct HBr as [|b B Hb HBr]; [constructor|].
    cbn [zip_with]. constructor; [now apply zip_with_row_length | now apply IH].
Qed.

Lemma mat_scale_shaped (f : R -> R) (n k : nat) (A : mat) :
  shaped n k A -> shaped n k (mat_scale f A).
Proof.
  intros [HA HAr]. unfold mat_scale. split.
  - now rewrite length_map.
  - apply Forall_map. eapply Forall_impl; [|exact HAr].
    intros row Hrow. cbn. now rewrite length_map.
Qed.

Lemma zeros_shaped (n k : nat) : shaped n k (zeros n k).
Proof.
  unfold zeros, zeros1. split.
  - apply repeat_length.
  - apply Forall_forall. intros row Hrow.
    apply repeat_spec in Hrow. subst row. apply repeat_length.
Qed.

Lemma row_add_sub_cancel (m r : list R) :
  length r = length m -> zip_with Rplus m (zip_with Rminus r m) = r.
Proof.
  revert r. induction m as [|a m IH]; intros [|b r] H; cbn in *;
    try congruence.
  f_equal; [lra | apply IH; congruence].
Qed.

Lemma mat_add_sub_cancel (n k : nat) (M Rm : mat) :
  shaped n k M -> shaped n k Rm -> mat_add M (mat_sub Rm M) = Rm.
Proof.
  intros [HM HMr] [HR HRr]. subst n. revert Rm HR HRr.
  induction HMr as [|a M Ha HMr IH]; intros [|b Rm] HR HRr; cbn in *;
    try congruence.
  inversion HRr; subst.
  unfold mat_add, mat_sub. cbn [zip_with]. f_equal.
  - apply row_add_sub_cancel. congruence.
  - apply IH; [congruence | assumption].
Qed.

Lemma reconstruction_step (n k : nat) (modes : list mat) (m r : mat) :
  shaped n k m -> shaped n k r ->
  reconstruction (modes ++ [m]) (mat_sub r m) = reconstruction modes r.
Proof.
  intros Hm Hr. unfold reconstruction.
  rewrite fold_right_app. cbn [fold_right].
  now rewrite (mat_add_sub_cancel n k m r).
Qed.

Lemma getitem_In {A : Type} (l : list A) (i : Z) (a : A) :
  getitem l i = Ok a -> In a l.
Proof.
  unfold getitem. destruct (_ <? 0)%Z; [discriminate|].
  destruct (nth_error l _) eqn:E; [|discriminate].
  intros H. injection H as <-. eapply nth_error_In, E.
Qed.

Lemma take_Forall {A : Type} (P : A -> Prop) (l : list A) (idx : list Z)
  (out : list A) :
  Forall P l -> take l idx = Ok out -> Forall P out.
Proof.
  intros Hl. unfold take. revert out.
  induction idx as [|i idx IH]; intros out H.
  - injection H as <-. constructor.
  - rewrite mapM_step in H.
    apply bind_Ok_inv in H. destruct H as (a & Ha & H).
    apply bind_Ok_inv in H. destruct H as (bs & Hbs & H).
    injection H as <-. constructor; [|now apply IH].
    rewrite Forall_forall in Hl. apply Hl. eapply getitem_In, Ha.
Qed.

Lemma take_nonempty {A : Type} (l : list A) (idx : list Z) (out : list A) :
  idx <> [] -> take l idx = Ok out -> out <> [].
Proof.
  intros Hidx. unfold take. destruct idx as [|i idx]; [contradiction|].
  rewrite mapM_step. intros H.
  apply bind_Ok_inv in H. destruct H as (a & Ha & H).
  apply bind_Ok_inv in H. destruct H as (bs & Hbs & H).
  injection H as <-. discriminate.
Qed.

Lemma getitem_nonempty {A : Type} (l : list A) (i : Z) (a : A) :
  getitem l i = Ok a -> l <> [].
Proof. intros H E. subst l. apply getitem_In in H. contradiction. Qed.

(** The values handed to the two splines are rows of the current mode,
    and there is at least one row of each kind. *)
Lemma boundary_conditions_values (P : list R -> Prop)
  (indmin indmax t : list Z) (x : list R) (z : mat) (nbsym : Z)
  (tmin tmax : list Z) (zmin zmax : mat) :
  boundary_conditions indmin indmax t x z nbsym
  = Ok (Some (tmin, tmax, zmin, zmax)) ->
  Forall P z ->
  (Forall P zmin /\ zmin <> []) /\ (Forall P zmax /\ zmax <> []).
Proof.
  intros E Hz. unfold boundary_conditions in E.
  destruct (len indmin + len indmax <? 3)%Z; [discriminate|].
  apply bind_Ok_inv in E. destruct E as (imax0 & Himax & E).
  apply bind_Ok_inv in E. destruct E as (imin0 & Himin & E).
  apply getitem_nonempty in Himax. apply getitem_nonempty in Himin.
  repeat match type of E with
  | bind _ _ = Ok _ =>
      apply bind_Ok_inv in E; destruct E as (? & ? & E)
  | (let '(_, _) := ?p in _) = Ok _ => destruct p
  end.
  injection E as <- <- <- <-.
  repeat match goal with
  | H : take z _ = Ok _ |- _ =>
      pose proof (take_Forall P _ _ _ Hz H); 
      try pose proof (take_nonempty _ _ _ Himin H);
      try pose proof (take_nonempty _ _ _ Himax H);
      clear H
  end.
  repeat split.
  - repeat (apply Forall_app; split); assumption.
  - intros Happ. apply app_eq_nil in Happ. destruct Happ as [_ Happ].
    apply app_eq_nil in Happ. destruct Happ as [Happ _]. contradiction.
  - repeat (apply Forall_app; split); assumption.
  - intros Happ. apply app_eq_nil in Happ. destruct Happ as [_ Happ].
    apply app_eq_nil in Happ. destruct Happ as [Happ _]. contradiction.
Qed.

Section Reconstruction.

Variable CubicSpline : list Z -> mat -> list Z -> result mat.
Variable zero_run_midpoints : list R -> result (list Z).
Hypothesis spline_shaped : spline_shape CubicSpline.

Variable x : mat.
Variable ndir : nat.
Variable maxnIMF : option Z.
Variable stp_crit : string.
Variables sd sd2 tol : R.
Variables stp_cnt MaxIterations : Z.
Variable t : list Z.
Variable seq : mat.
Variables N N_dim : nat.

Hypothesis axis_length : length t = N.

Lemma envelope_step_shaped (n0 : nat) (m : mat) (s s1 : env_acc) (it : nat) :
  shaped n0 N_dim m ->
  shaped N N_dim (acc_env_mean s) ->
  envelope_step CubicSpline zero_run_midpoints m t seq N_dim s it = Ok s1 ->
  shaped N N_dim (acc_env_mean s1).
Proof.
  intros [_ Hm] Hs H. unfold envelope_step in H.
  destruct (local_peaks _) as [indmin indmax].
  apply bind_Ok_inv in H. destruct H as (iz & _ & H).
  apply bind_Ok_inv in H. destruct H as (bc & Hbc & H).
  destruct bc as [[[[tmin tmax] zmin] zmax]|].
  - apply bind_Ok_inv in H. destruct H as (env_min & Hmin & H).
    apply bind_Ok_inv in H. destruct H as (env_max & Hmax & H).
    injection H as <-. cbn [acc_env_mean].
    destruct (boundary_conditions_values (fun row => length row = N_dim)
                _ _ _ _ _ _ _ _ _ _ Hbc Hm)
      as [[Hzmin Hnmin] [Hzmax Hnmax]].
    pose proof (spline_shaped _ _ _ _ _ Hmin Hnmin Hzmin) as Smin.
    pose proof (spline_shaped _ _ _ _ _ Hmax Hnmax Hzmax) as Smax.
    rewrite axis_length in Smin, Smax.
    apply mat_op_shaped; [exact Hs|].
    apply mat_scale_shaped. now apply mat_op_shaped.
  - injection H as <-. exact Hs.
Qed.

Lemma envelope_loop_shaped (n0 : nat) (m : mat) (its : list nat)
  (s s' : env_acc) :
  shaped n0 N_dim m ->
  shaped N N_dim (acc_env_mean s) ->
  envelope_loop CubicSpline zero_run_midpoints m t seq N_dim its s = Ok s' ->
  shaped N N_dim (acc_env_mean s').
Proof.
  intros Hm. revert s. induction its as [|it its IH]; intros s Hs H.
  - injection H as <-. exact Hs.
  - cbn [envelope_loop] in H.
    apply bind_Ok_inv in H. destruct H as (s1 & Hstep & H).
    apply (IH s1); [|exact H].
    exact (envelope_step_shaped n0 m s s1 it Hm Hs Hstep).
Qed.

Lemma envelope_mean_shaped (n0 : nat) (m env_mean : mat) (nem nzm : list Z)
  (amp : list R) :
  shaped n0 N_dim m ->
  envelope_mean CubicSpline zero_run_midpoints m t seq ndir N N_dim
  = Ok (env_mean, nem, nzm, amp) ->
  shaped N N_dim env_mean.
Proof.
  intros Hm H. unfold envelope_mean in H.
  apply bind_Ok_inv in H. destruct H as (s & Hloop & H).
  apply (envelope_loop_shaped n0 m) in Hloop;
    [| exact Hm | cbn [acc_env_mean]; rewrite axis_length; apply zeros_shaped].
  destruct (acc_count s <? Z.of_nat ndir)%Z; injection H as <- <- <- <-.
  - now apply mat_scale_shaped.
  - apply zeros_shaped.
Qed.

(** Whatever the policy answers, its envelope has the shape of the
    signal. *)
Lemma sift_policy_shaped (n0 : nat) (m : mat) (c : Z) :
  shaped n0 N_dim m ->
  shaped N N_dim
    (snd (fst (sift_policy CubicSpline zero_run_midpoints ndir stp_crit sd
                           sd2 tol stp_cnt t seq N N_dim m c))).
Proof.
  intros Hm. unfold sift_policy, stop, fix_.
  destruct (envelope_mean _ _ _ _ _ _ _ _) as [[[[env nem] nzm] amp]|e] eqn:E.
  - apply (envelope_mean_shaped n0 m) in E; [|exact Hm].
    destruct (String.eqb stp_crit "stop").
    + destruct (negb _); exact E.
    + destruct (counts_differ nzm nem); exact E.
  - destruct (String.eqb stp_crit "stop"); apply zeros_shaped.
Qed.

Lemma sift_loop_shaped (fuel : nat) :
  forall (m env_mean : mat) (b : bool) (c nbit : Z) (log log' : list diagnostic)
         (m' : mat),
    shaped N N_dim m ->
    shaped N N_dim env_mean ->
    sift_loop CubicSpline zero_run_midpoints ndir stp_crit sd sd2 tol stp_cnt
              MaxIterations t seq N N_dim fuel m env_mean b c nbit log
    = Some (Ok (m', log')) ->
    shaped N N_dim m' /\ log' = log.
Proof.
  induction fuel as [|fuel IH]; intros m env_mean b c nbit log log' m' Hm He H;
    cbn [sift_loop] in H;
    (destruct (negb b && (nbit <? MaxIterations)%Z);
     [| injection H as <- <-; now split]).
  - discriminate.
  - pose proof (sift_policy_shaped N (mat_sub m env_mean) c
                  (mat_op_shaped Rminus N N_dim m env_mean Hm He)) as Hp.
    destruct (sift_policy _ _ _ _ _ _ _ _ _ _ _ _ (mat_sub m env_mean) c)
      as [[b' env'] c'].
    cbn [fst snd] in Hp.
    destruct ((nbit + 1 =? MaxIterations - 1)%Z && (100 <? nbit + 1)%Z).
    + discriminate.
    + eapply IH; [| exact Hp | exact H]. now apply mat_op_shaped.
Qed.

(** The outer loop keeps [sum(modes) + r == x]; only the exit through the
    optional cap returns a residue from which the last mode has not been
    subtracted. *)
Lemma memd_loop_reconstruction (fuel : nat) :
  forall (r : mat) (modes : list mat) (n_imf nbit : Z)
         (log log' : list diagnostic) (q' : list mat),
    shaped N N_dim r ->
    reconstruction modes r = x ->
    memd_loop CubicSpline zero_run_midpoints x ndir maxnIMF stp_crit sd sd2
              tol stp_cnt MaxIterations t seq N N_dim fuel r
              (map transpose modes) n_imf nbit log
    = Some (log', Ok q') ->
    exists (modes' : list mat) (residue : mat),
      q' = map transpose modes' ++ [transpose residue] /\
      (reconstruction modes' residue = x \/
       exists (cap : Z) (modes0 : list mat) (m : mat),
         maxnIMF = Some cap /\ modes' = modes0 ++ [m] /\
         reconstruction modes0 residue = x).
Proof.
  induction fuel as [|fuel IH];
    intros r modes n_imf nbit log log' q' Hr Hsum H;
    cbn [memd_loop] in H;
    (destruct (negb (stop_emd r seq ndir N_dim));
     [| injection H as <- <-; exists modes, r; split; [reflexivity | now left]]).
  - discriminate.
  - pose proof (sift_policy_shaped N r 0%Z Hr) as Hp.
    destruct (sift_policy _ _ _ _ _ _ _ _ _ _ _ _ r 0%Z) as [[b env] c].
    cbn [fst snd] in Hp.
    destruct (a <- np_max_abs r ;; _) as [[|]|e]; [| |discriminate].
    + destruct b; cbn [negb] in H.
      * injection H as <- <-. exists modes, r. split; [reflexivity | now left].
      * discriminate.
    + destruct (sift_loop _ _ _ _ _ _ _ _ _ _ _ _ _ _ _ _ _ _ _ _)
        as [[[m log1]|e]|] eqn:Hsift; try discriminate.
      apply sift_loop_shaped in Hsift; [|assumption|assumption].
      destruct Hsift as [Hm ->].
      destruct maxnIMF as [cap|] eqn:Hcap.
      * destruct (cap <=? n_imf + 1)%Z.
        -- injection H as <- <-. exists (modes ++ [m]), r. split.
           ++ now rewrite map_app.
           ++ right. exists cap, modes, m. auto.
        -- replace (map transpose modes ++ [transpose m])
             with (map transpose (modes ++ [m])) in H by now rewrite map_app.
           apply IH in H; [exact H | now apply mat_op_shaped |].
           rewrite (reconstruction_step N N_dim); assumption.
      * replace (map transpose modes ++ [transpose m])
          with (map transpose (modes ++ [m])) in H by now rewrite map_app.
        apply IH in H; [exact H | now apply mat_op_shaped |].
        rewrite (reconstruction_step N N_dim); assumption.
Qed.

End Reconstruction.

(** Reconstruction in the runs that return: the returned arrays are the
    transposed modes followed by a transposed residue, and
    [sum(modes) + residue] is the input - unless the run was ended by the
    cap [maxnIMF], when the residue still contains the last mode. *)
Lemma memd_reconstruction
  (CubicSpline : list Z -> mat -> list Z -> result mat)
  (create_halton_samples : nat -> nat -> mat)
  (zero_run_midpoints : list R -> result (list Z))
  (fuel : nat) (x : mat) (ndir : nat) (maxnIMF : option Z) (stp_crit : string)
  (sd sd2 tol : R) (stp_cnt MaxIterations : Z) (log : list diagnostic)
  (q : list mat) :
  spline_shape CubicSpline ->
  shaped (length x) (ncols x) x ->
  memd CubicSpline create_halton_samples zero_run_midpoints fuel x ndir
       maxnIMF stp_crit sd sd2 tol stp_cnt MaxIterations
  = Some (log, Ok q) ->
  exists (modes : list mat) (residue : mat),
    q = map transpose modes ++ [transpose residue] /\
    (reconstruction modes residue = x \/
     exists (cap : Z) (modes0 : list mat) (m : mat),
       maxnIMF = Some cap /\ modes = modes0 ++ [m] /\
       reconstruction modes0 residue = x).
Proof.
  intros Hspline Hx H. unfold memd in H.
  eapply (memd_loop_reconstruction CubicSpline zero_run_midpoints Hspline x
            ndir maxnIMF stp_crit sd sd2 tol stp_cnt MaxIterations
            (map Z.of_nat (List.seq 1 (length x)))
            (transpose (create_halton_samples ndir (ncols x)))
            (length x) (ncols x)
            ltac:(now rewrite length_map, length_seq)
            fuel x [] 1%Z 0%Z [] log q Hx eq_refl).
  exact H.
Qed.

(** Without [maxnIMF] the cap cannot end the run: in the exact
    arithmetic of the embedding [sum(modes) + residue] is the input. *)
Lemma memd_reconstruction_without_cap
  (CubicSpline : list Z -> mat -> list Z -> result mat)
  (create_halton_samples : nat -> nat -> mat)
  (zero_run_midpoints : list R -> result (list Z))
  (fuel : nat) (x : mat) (ndir : nat) (stp_crit : string)
  (sd sd2 tol : R) (stp_cnt MaxIterations : Z) (log : list diagnostic)
  (q : list mat) :
  spline_shape CubicSpline ->
  shaped (length x) (ncols x) x ->
  memd CubicSpline create_halton_samples zero_run_midpoints fuel x ndir
       None stp_crit sd sd2 tol stp_cnt MaxIterations
  = Some (log, Ok q) ->
  exists (modes : list mat) (residue : mat),
    q = map transpose modes ++ [transpose residue] /\
    reconstruction modes residue = x.
Proof.
  intros Hspline Hx H.
  destruct (memd_reconstruction _ _ _ _ _ _ _ _ _ _ _ _ _ _ _ Hspline Hx H)
    as (modes & residue & Hq & [Hsum | (cap & _ & _ & Hcap & _)]).
  - now exists modes, residue.
  - discriminate Hcap.
Qed.

(** ** Runs that exhibit the hypotheses of the theorems above *)

Lemma zero_crossings_constant
  (zero_run_midpoints : list R -> result (list Z)) (c : R) :
  0 < c ->
  zero_crossings zero_run_midpoints [c; c; c; c; c] = Ok [].
Proof. intros Hc. now apply zero_crossings_above_zero. Qed.

(** A constant signal: its only direction fails, whatever the spline. *)
Lemma envelope_mean_constant5
  (CubicSpline : list Z -> mat -> list Z -> result mat)
  (zero_run_midpoints : list R -> result (list Z)) (seq : mat) (c : R) :
  0 < c ->
  envelope_mean CubicSpline zero_run_midpoints (constant5 c) axis5 seq 1 5 1
  = Ok (zeros 5 1, [0%Z], [0%Z], zeros1 5).
Proof.
  intros Hc.
  unfold envelope_mean. cbn [List.seq envelope_loop zeros1 repeat].
  unfold envelope_step. cbn [acc_dir_vec].
  rewrite next_dir_vec_1d, np_dot_constant5, local_peaks_constant5,
          zero_crossings_constant by exact Hc.
  cbn [bind].
  rewrite boundary_conditions_few by (cbn; lia).
  reflexivity.
Qed.

Lemma projection_1d (m seq : mat) :
  projection m seq 1 0 = np_dot m [1].
Proof.
  unfold projection, dir_vec_at, dir_vec_before.
  cbn [List.seq fold_left zeros1 repeat]. now rewrite next_dir_vec_1d.
Qed.

Lemma np_max_abs_oscillation_up (b : R) :
  0 < b -> np_max_abs (oscillation 0 b) = Ok b.
Proof.
  intros Hb. unfold np_max_abs, oscillation. cbn [concat app map fold_left].
  rewrite Rabs_R0, (Rabs_right b) by lra.
  rewrite (Rmax_right 0 b) by lra. rewrite (Rmax_left b 0) by lra.
  rewrite (Rmax_left b b) by lra. rewrite (Rmax_left b 0) by lra.
  reflexivity.
Qed.

(** The fixed-count evaluator on a small oscillation: the first
    evaluation cannot halt, the counter is 1. *)
Lemma fix_small_oscillation (seq : mat) (b : R) :
  1 / 100000 <= b ->
  sift_policy const_spline no_zero_runs 1 "fix_h" (75 / 1000) (75 / 100)
              (75 / 1000) 2 axis5 seq 5 1 (oscillation 0 b) 0
  = (false, constant5 ((0 + b) / 2), 1%Z).
Proof.
  intros Hb. unfold sift_policy. cbn [String.eqb Ascii.eqb Bool.eqb].
  unfold fix_.
  rewrite (envelope_mean_oscillation const_spline no_zero_runs
             const_spline_reproduces_constants seq 0 b [0; 2; 4]%Z)
    by (try lra; apply zero_crossings_up_from_zero; lra).
  reflexivity.
Qed.

(** The fixed-count evaluator along the sifting of the oscillation between
    0 and 1, with the spline that reproduces constants: 3 extrema and 3
    zero crossings, then, centred, 3 extrema and 4 zero crossings. *)
Lemma envelope_mean_centred :
  envelope_mean const_spline no_zero_runs (oscillation (-1 / 2) (1 / 2))
                axis5 [] 1 5 1
  = Ok (constant5 ((-1 / 2 + 1 / 2) / 2), [3%Z], [4%Z],
        [(1 / 2 - -1 / 2) / 2; (1 / 2 - -1 / 2) / 2; (1 / 2 - -1 / 2) / 2;
         (1 / 2 - -1 / 2) / 2; (1 / 2 - -1 / 2) / 2]).
Proof.
  apply (envelope_mean_oscillation const_spline no_zero_runs
           const_spline_reproduces_constants [] (-1 / 2) (1 / 2)
           [0; 1; 2; 3]%Z); try lra.
  apply zero_crossings_around_zero; lra.
Qed.

Lemma fix_centred_halts :
  fix_ const_spline no_zero_runs (oscillation (-1 / 2) (1 / 2)) axis5 [] 1
       2 1 5 1
  = (true, constant5 ((-1 / 2 + 1 / 2) / 2), 2%Z).
Proof. unfold fix_. rewrite envelope_mean_centred. reflexivity. Qed.

(** C2, as stated, fails: with the default [stp_cnt = 2] the evaluator
    halts on the centred oscillation, where the two counts differ by one
    only. *)
Lemma fix_halts_with_close_counts : ~ fix_halts_only_when_counts_differ.
Proof.
  intros H.
  specialize (H const_spline no_zero_runs (oscillation (-1 / 2) (1 / 2))
                axis5 [] 1%nat 2%Z 1%Z 5%nat 1%nat _ _ _ _
                const_spline_reproduces_constants envelope_mean_centred).
  rewrite fix_centred_halts in H. specialize (H eq_refl).
  vm_compute in H. discriminate H.
Qed.

Lemma sift_trace_oscillation_0 :
  sift_trace const_spline no_zero_runs 1 "fix_h" (75 / 1000) (75 / 100)
             (75 / 1000) 2 axis5 [] 5 1 (oscillation 0 1) 0
  = (false, constant5 ((0 + 1) / 2), 1%Z, oscillation 0 1).
Proof.
  cbn [sift_trace]. unfold sift_start.
  rewrite fix_small_oscillation by lra. reflexivity.
Qed.

Lemma mode_at_oscillation_1 :
  mode_at const_spline no_zero_runs 1 "fix_h" (75 / 1000) (75 / 100)
          (75 / 1000) 2 axis5 [] 5 1 (oscillation 0 1) 1
  = oscillation (-1 / 2) (1 / 2).
Proof.
  unfold mode_at.
  change (sift_trace const_spline no_zero_runs 1 "fix_h" (75 / 1000)
                     (75 / 100) (75 / 1000) 2 axis5 [] 5 1 (oscillation 0 1)
                     1)
    with (sift_step const_spline no_zero_runs 1 "fix_h" (75 / 1000)
            (75 / 100) (75 / 1000) 2 axis5 [] 5 1
            (sift_trace const_spline no_zero_runs 1 "fix_h" (75 / 1000)
                        (75 / 100) (75 / 1000) 2 axis5 [] 5 1
                        (oscillation 0 1) 0)).
  rewrite sift_trace_oscillation_0. unfold sift_step. cbn [snd].
  unfold mat_sub, oscillation, constant5. cbn [zip_with]. entrywise.
Qed.

(** The sifting of the oscillation under the fixed-count policy: two
    evaluations, the second one halts. *)
Lemma fix_halts_after_streak_witness :
  (verdict_at const_spline no_zero_runs 1 "fix_h" (75 / 1000) (75 / 100)
              (75 / 1000) 2 axis5 [] 5 1 (oscillation 0 1) 1 = true <->
   (2 <= Z.of_nat 1 + 1)%Z /\
   forall j, (j <= 1)%nat -> (Z.of_nat 1 + 1 - 2 <= Z.of_nat j)%Z ->
             counts_differ_at const_spline no_zero_runs 1 "fix_h" (75 / 1000)
                              (75 / 100) (75 / 1000) 2 axis5 [] 5 1
                              (oscillation 0 1) j = false)
  /\ (counts_differ_at const_spline no_zero_runs 1 "fix_h" (75 / 1000)
                       (75 / 100) (75 / 1000) 2 axis5 [] 5 1
                       (oscillation 0 1) 1 = true ->
      verdict_at const_spline no_zero_runs 1 "fix_h" (75 / 1000) (75 / 100)
                 (75 / 1000) 2 axis5 [] 5 1 (oscillation 0 1) 1 = false /\
      counter_at const_spline no_zero_runs 1 "fix_h" (75 / 1000) (75 / 100)
                 (75 / 1000) 2 axis5 [] 5 1 (oscillation 0 1) 1 = 0%Z).
Proof.
  apply (fix_halts_after_streak const_spline no_zero_runs 1 "fix_h"
           (75 / 1000) (75 / 100) (75 / 1000) 2 axis5 [] 5 1).
  - discriminate.
  - lia.
  - intros j Hj. unfold envelope_ok_at.
    destruct j as [|[|j]]; [| |lia].
    + eexists.
      apply (envelope_mean_oscillation const_spline no_zero_runs
               const_spline_reproduces_constants [] 0 1 [0; 2; 4]%Z);
        try lra.
      apply zero_crossings_up_from_zero; lra.
    + rewrite mode_at_oscillation_1. eexists. apply envelope_mean_centred.
Defined.

(** The envelope estimator on the constant signal. *)
Lemma envelope_mean_failed_directions_witness :
  (exists contribs,
      mapM (direction_envelopes const_spline (constant5 1) axis5 [] 1)
           (filter (fun it => negb (direction_failed (constant5 1) [] 1 it))
                   (List.seq 0 1))
      = Ok contribs /\ contribs = [])
  /\ (exists nzm,
         envelope_mean const_spline no_zero_runs (constant5 1) axis5 [] 1 5 1
         = Ok (zeros 5 1, repeat 0%Z 1, nzm, zeros1 5)).
Proof.
  assert (Hfail : forall it, (it < 1)%nat ->
                    direction_failed (constant5 1) [] 1 it = true).
  { intros it Hit. assert (it = 0%nat) by lia. subst it.
    unfold direction_failed, extrema_count.
    rewrite projection_1d, np_dot_constant5, local_peaks_constant5.
    reflexivity. }
  destruct (envelope_mean_failed_directions const_spline no_zero_runs
              (constant5 1) axis5 [] 1 1 5) as [Hret Hall].
  split.
  - destruct (Hret (zeros 5 1) [0%Z] [0%Z] (zeros1 5))
      as (contribs & Hc & _ & Hzero).
    + apply envelope_mean_constant5. lra.
    + exists contribs. split; [exact Hc|].
      apply Hzero. cbn [List.seq].
      rewrite filter_step, (Hfail 0%nat) by lia. reflexivity.
  - apply Hall; [exact Hfail|].
    intros it Hit. assert (it = 0%nat) by lia. subst it.
    rewrite projection_1d, np_dot_constant5.
    eexists. apply zero_crossings_constant. lra.
Defined.


(** The residue [oscillation 0 (1/10000)] of an input of amplitude 10^7:
    the amplitude test fires on the first evaluation of the fixed-count
    policy, which never agrees to stop. *)
Lemma memd_loop_collapse_raises_witness :
  memd_loop const_spline no_zero_runs (oscillation 0 10000000) 1 None "fix_h"
            (75 / 1000) (75 / 100) (75 / 1000) 2 1000 axis5 [] 5 1
            1 (oscillation 0 (1 / 10000)) [] 2 0 []
  = Some ([], Raise TypeError).
Proof.
  apply (memd_loop_collapse_raises const_spline no_zero_runs
           (oscillation 0 10000000) 1 None "fix_h" (75 / 1000) (75 / 100)
           (75 / 1000) 2 1000 axis5 [] 5 1 0
           (oscillation 0 (1 / 10000)) [] 2 0 []
           (constant5 ((0 + 1 / 10000) / 2)) 1
           (1 / 10000) 10000000).
  - apply stop_emd_oscillation; lra.
  - apply fix_small_oscillation. lra.
  - apply np_max_abs_oscillation_up. lra.
  - apply np_max_abs_oscillation_up. lra.
  - lra.
Defined.

(** With the spline that is zero everywhere the oscillation between 1 and
    2 is never changed by a sift, and the fixed-count evaluator, which sees
    3 extrema and no zero crossing, never halts. *)
Lemma envelope_mean_oscillation_flat
  (zero_run_midpoints : list R -> result (list Z)) (seq : mat) (a b : R)
  (iz : list Z) :
  a < b -> 1 / 100000 <= b ->
  zero_crossings zero_run_midpoints [a; b; a; b; a] = Ok iz ->
  envelope_mean flat_spline zero_run_midpoints (oscillation a b) axis5 seq
                1 5 1
  = Ok (constant5 0, [3%Z], [len iz], [0; 0; 0; 0; 0]).
Proof.
  intros Hab Hb Hiz.
  unfold envelope_mean. cbn [List.seq envelope_loop zeros1 repeat].
  unfold envelope_step. cbn [acc_dir_vec].
  rewrite next_dir_vec_1d, np_dot_oscillation,
          (local_peaks_oscillation a b Hab Hb), Hiz.
  cbn [bind].
  rewrite (boundary_conditions_oscillation a b Hab). cbn [bind].
  unfold flat_spline. cbn [bind].
  cbn [acc_count acc_nem acc_nzm acc_env_mean acc_amp length axis5].
  assert (Hs : sqrt ((0 - 0) * (0 - 0) + 0) = 0).
  { rewrite sqrt_square_plus_0 by lra. lra. }
  unfold constant5, mat_scale, mat_add, mat_sub, zeros, zeros1, np_sum, ncols.
  rsimp. rewrite !Hs.
  entrywise.
Qed.

Lemma fix_oscillation_flat (seq : mat) (c : Z) :
  sift_policy flat_spline no_zero_runs 1 "fix_h" 0 0 0 2 axis5 seq 5 1
              (oscillation 1 2) c
  = (false, constant5 0, 0%Z).
Proof.
  unfold sift_policy. cbn [String.eqb Ascii.eqb Bool.eqb]. unfold fix_.
  rewrite (envelope_mean_oscillation_flat no_zero_runs seq 1 2 [])
    by (try lra; apply zero_crossings_above_zero; lra).
  reflexivity.
Qed.

Lemma sift_trace_flat (seq : mat) (k : nat) :
  sift_trace flat_spline no_zero_runs 1 "fix_h" 0 0 0 2 axis5 seq 5 1
             (oscillation 1 2) k
  = (false, constant5 0, 0%Z, oscillation 1 2).
Proof.
  induction k as [|k IH].
  - cbn [sift_trace]. unfold sift_start. now rewrite fix_oscillation_flat.
  - cbn [sift_trace]. rewrite IH. unfold sift_step.
    assert (E : mat_sub (oscillation 1 2) (constant5 0) = oscillation 1 2).
    { unfold mat_sub, oscillation, constant5. cbn [zip_with]. entrywise. }
    rewrite E. now rewrite fix_oscillation_flat.
Qed.

Lemma np_max_abs_oscillation_1_2 : np_max_abs (oscillation 1 2) = Ok 2.
Proof.
  unfold np_max_abs, oscillation. cbn [concat app map fold_left].
  rewrite Rabs_R1, (Rabs_right 2) by lra.
  rewrite (Rmax_right 1 2) by lra. rewrite (Rmax_left 2 1) by lra.
  rewrite (Rmax_left 2 2) by lra. rewrite (Rmax_left 2 1) by lra.
  reflexivity.
Qed.

Lemma memd_loop_cap_raises_witness :
  memd_loop flat_spline no_zero_runs (oscillation 1 2) 1 None "fix_h" 0 0 0 2
            102 axis5 [] 5 1 102 (oscillation 1 2) [] 1 0 []
  = Some ([], Raise AttributeError).
Proof.
  apply (memd_loop_cap_raises flat_spline no_zero_runs (oscillation 1 2) 1
           None "fix_h" 0 0 0 2 102 axis5 [] 5 1 101 (oscillation 1 2) [] 1
           [] 2 2).
  - lia.
  - lia.
  - apply stop_emd_oscillation; lra.
  - apply np_max_abs_oscillation_1_2.
  - apply np_max_abs_oscillation_1_2.
  - lra.
  - intros j _. unfold verdict_at. now rewrite sift_trace_flat.
Defined.

(** * Further properties *)

(** ** Prime numbers *)

Lemma In_range_from (k : nat) :
  forall lo v, In v (range_from lo k) <-> (lo <= v < lo + Z.of_nat k)%Z.
Proof.
  induction k as [|k IH]; intros lo v; cbn [range_from In].
  - lia.
  - rewrite IH. lia.
Qed.

Lemma In_range (lo hi k : Z) : In k (range lo hi) <-> (lo <= k < hi)%Z.
Proof. unfold range. rewrite In_range_from. lia. Qed.

Lemma is_prime_loop_true (x : Z) (numbers : list Z) :
  is_prime_loop x numbers = true <->
  forall d, In d numbers -> (x mod d <> 0 /\ x mod 2 <> 0)%Z.
Proof.
  induction numbers as [|a l IH]; cbn [is_prime_loop].
  - split; [intros _ d []|reflexivity].
  - destruct ((x mod a =? 0) || (x mod 2 =? 0))%Z eqn:E.
    + split; [discriminate|]. intros H.
      destruct (H a (or_introl eq_refl)) as [H1 H2].
      apply orb_true_iff in E. destruct E as [E|E]; apply Z.eqb_eq in E; lia.
    + rewrite IH. apply orb_false_iff in E. destruct E as [E1 E2].
      apply Z.eqb_neq in E1, E2.
      split.
      * intros H d [<-|Hd]; [split; assumption|apply H, Hd].
      * intros H d Hd. apply H. right. exact Hd.
Qed.

Lemma range_nil (lo hi : Z) : (hi <= lo)%Z -> range lo hi = [].
Proof.
  intros H. unfold range. replace (Z.to_nat (hi - lo)) with 0%nat by lia.
  reflexivity.
Qed.

Lemma is_prime_from_3 (x : Z) :
  (3 <= x)%Z -> is_prime x = true <-> Z.prime x.
Proof.
  intros Hx. unfold is_prime.
  replace (x =? 2)%Z with false by (symmetry; apply Z.eqb_neq; lia).
  rewrite is_prime_loop_true. split.
  - intros H. split; [lia|]. intros n Hn Hdiv.
    destruct (Z.eq_dec n 2) as [->|Hn2].
    + assert (Hx3 : (3 < x)%Z).
      { destruct (Z.eq_dec x 3) as [->|]; [|lia].
        apply Z.mod_divide in Hdiv; [|lia]. discriminate Hdiv. }
      destruct (H 3%Z) as [_ Hm]; [apply In_range; lia|].
      apply Hm. apply Z.mod_divide; [lia|exact Hdiv].
    + destruct (H n) as [Hm _]; [apply In_range; lia|].
      apply Hm. apply Z.mod_divide; [lia|exact Hdiv].
  - intros [_ Hp] d Hd. apply In_range in Hd.
    split; intros Hm.
    + apply (Hp d); [lia|]. apply Z.mod_divide; [lia|exact Hm].
    + apply (Hp 2%Z); [lia|]. apply Z.mod_divide; [lia|exact Hm].
Qed.

(** X4. [is_prime(x)] answers [True] exactly when [x] is a prime number
    or [x <= 1]: it is right for every [x >= 2], and it takes 0, 1 and
    the negative integers for primes. *)
Theorem is_prime_true_iff (x : Z) :
  is_prime x = true <-> Z.prime x \/ (x <= 1)%Z.
Proof.
  destruct (Z_le_gt_dec x 1) as [Hs|Hl].
  - split; [intros _; right; exact Hs|intros _].
    unfold is_prime.
    replace (x =? 2)%Z with false by (symmetry; apply Z.eqb_neq; lia).
    rewrite range_nil by lia. reflexivity.
  - destruct (Z.eq_dec x 2) as [->|H2].
    + split; [intros _; left; exact Z.prime_2|reflexivity].
    + rewrite is_prime_from_3 by lia.
      split; [intros H; left; exact H|intros [H|H]; [exact H|lia]].
Qed.

Lemma range_cons (lo hi : Z) :
  (lo < hi)%Z -> range lo hi = lo :: range (lo + 1) hi.
Proof.
  intros H. unfold range.
  replace (Z.to_nat (hi - lo)) with (S (Z.to_nat (hi - (lo + 1)))) by lia.
  reflexivity.
Qed.

Lemma range_split (pre post : list Z) (i : Z) :
  forall lo hi, range lo hi = pre ++ i :: post ->
    pre = range lo i /\ (lo <= i < hi)%Z.
Proof.
  induction pre as [|a pre IH]; intros lo hi H.
  - destruct (Z_lt_ge_dec lo hi) as [Hl|Hg].
    + rewrite (range_cons _ _ Hl) in H. injection H as H _. subst i.
      rewrite range_nil by lia. split; [reflexivity|lia].
    + rewrite range_nil in H by lia. discriminate H.
  - destruct (Z_lt_ge_dec lo hi) as [Hl|Hg].
    + rewrite (range_cons _ _ Hl) in H. cbn [app] in H.
      injection H as Ha H. subst a.
      destruct (IH _ _ H) as [-> Hi].
      rewrite (range_cons lo i) by lia. split; [reflexivity|lia].
    + rewrite range_nil in H by lia. discriminate H.
Qed.

Lemma range_sorted (lo hi : Z) : StronglySorted Z.lt (range lo hi).
Proof.
  unfold range. generalize (Z.to_nat (hi - lo)) as k. intros k. revert lo.
  induction k as [|k IH]; intros lo; cbn [range_from]; constructor.
  - apply IH.
  - apply Forall_forall. intros v Hv. apply In_range_from in Hv. lia.
Qed.

Lemma filter_sorted (p : Z -> bool) (l : list Z) :
  StronglySorted Z.lt l -> StronglySorted Z.lt (filter p l).
Proof.
  induction 1 as [|a l Hl IH Ha]; [constructor|].
  rewrite filter_step.
  destruct (p a); [|exact IH].
  constructor; [exact IH|].
  apply Forall_forall. intros v Hv. apply filter_In in Hv.
  rewrite Forall_forall in Ha. apply Ha, Hv.
Qed.

Lemma sorted_snoc (l : list Z) (i : Z) :
  StronglySorted Z.lt l -> Forall (fun v => (v < i)%Z) l ->
  StronglySorted Z.lt (l ++ [i]).
Proof.
  induction 1 as [|a l Hl IH Ha]; intros Hi; cbn [app].
  - constructor; constructor.
  - inversion Hi as [|? ? Hai Hli]; subst.
    constructor; [apply IH, Hli|].
    apply Forall_app. split; [exact Ha|]. constructor; [exact Hai|constructor].
Qed.

Lemma nth_prime_loop_full (n : Z) (rng : list Z) :
  forall lst, (n <= len lst)%Z -> nth_prime_loop n rng lst = None.
Proof.
  induction rng as [|i rng IH]; intros lst H; cbn [nth_prime_loop];
    [reflexivity|].
  destruct (is_prime i); [|apply IH, H].
  assert (Hl : len (lst ++ [i]) = (len lst + 1)%Z).
  { unfold len. rewrite length_app. cbn [length]. lia. }
  rewrite Hl. destruct (len lst + 1 =? n)%Z eqn:E;
    [apply Z.eqb_eq in E; lia|].
  apply IH. lia.
Qed.

Lemma nth_prime_loop_some (n : Z) (rng : list Z) :
  forall lst out, nth_prime_loop n rng lst = Some out ->
    exists pre i post,
      rng = pre ++ i :: post /\ is_prime i = true /\
      out = lst ++ filter is_prime pre ++ [i] /\ len out = n.
Proof.
  induction rng as [|i rng IH]; intros lst out H; cbn [nth_prime_loop] in H;
    [discriminate H|].
  destruct (is_prime i) eqn:Ep.
  - destruct (len (lst ++ [i]) =? n)%Z eqn:E.
    + injection H as <-. apply Z.eqb_eq in E.
      exists [], i, rng. repeat split; [exact Ep|exact E].
    + destruct (IH _ _ H) as (pre & j & post & -> & Hj & -> & Hn).
      exists (i :: pre), j, post. cbn [app]. rewrite filter_step, Ep.
      repeat split; [exact Hj| |exact Hn].
      rewrite <- app_assoc. reflexivity.
  - destruct (IH _ _ H) as (pre & j & post & -> & Hj & -> & Hn).
    exists (i :: pre), j, post. cbn [app]. rewrite filter_step, Ep.
    repeat split; [exact Hj|exact Hn].
Qed.

(** X5. [nth_prime(n)] for [n <= 1]: the list starts as [[2]] and its
    length is compared with [n] only after an append, so it never equals
    [n]; the loop runs off the end of its range and the function returns
    [None], not a list - also for [n = 1]. *)
Theorem nth_prime_below_two (n : Z) : (n <= 1)%Z -> nth_prime n = None.
Proof.
  intros H. apply nth_prime_loop_full. unfold len. cbn [length]. lia.
Qed.

Lemma nth_prime_below_two_witness : (1 <= 1)%Z /\ nth_prime 1 = None.
Proof. split; [lia|apply (nth_prime_below_two 1); lia]. Defined.

(** X6. When [nth_prime(n)] returns a list, [n >= 2] and the list is the
    list of the first [n] prime numbers: it has [n] entries, it is strictly
    increasing, and a number is in it exactly when it is prime and not
    larger than the last entry. *)
Theorem nth_prime_lists_first_primes (n : Z) (lst : list Z) :
  nth_prime n = Some lst ->
  len lst = n /\ (2 <= n)%Z /\ StronglySorted Z.lt lst /\
  forall p, In p lst <-> Z.prime p /\ (p <= last lst 0)%Z.
Proof.
  intros H. destruct (nth_prime_loop_some _ _ _ _ H)
    as (pre & i & post & Hr & Hi & -> & Hn).
  destruct (range_split _ _ _ _ _ Hr) as [-> Hb].
  assert (Hlast : last ([2%Z] ++ filter is_prime (range 3 i) ++ [i]) 0%Z = i).
  { rewrite app_assoc. apply last_last. }
  rewrite Hlast.
  pose proof is_prime_from_3 as Hprime.
  split; [exact Hn|]. split.
  { rewrite <- Hn. unfold len. rewrite !length_app. cbn [length]. lia. }
  split.
  - cbn [app]. constructor.
    + apply sorted_snoc; [apply filter_sorted, range_sorted|].
      apply Forall_forall. intros v Hv. apply filter_In in Hv.
      destruct Hv as [Hv _]. apply In_range in Hv. lia.
    + apply Forall_app. split.
      * apply Forall_forall. intros v Hv. apply filter_In in Hv.
        destruct Hv as [Hv _]. apply In_range in Hv. lia.
      * constructor; [lia|constructor].
  - intros p. cbn [app]. split.
    + intros [<-|Hp]; [split; [exact Z.prime_2|lia]|].
      apply in_app_or in Hp. destruct Hp as [Hp|[<-|[]]].
      * apply filter_In in Hp. destruct Hp as [Hr' Hp].
        apply In_range in Hr'. split; [apply Hprime; [lia|exact Hp]|lia].
      * split; [apply Hprime; [lia|exact Hi]|lia].
    + intros [Hp Hle]. assert (H1 : (1 < p)%Z) by apply Hp.
      destruct (Z.eq_dec p 2) as [->|H2]; [left; reflexivity|right].
      apply in_or_app. destruct (Z.eq_dec p i) as [->|Hpi].
      * right. left. reflexivity.
      * left. apply filter_In. split; [apply In_range; lia|].
        apply Hprime; [lia|exact Hp].
Qed.

Lemma nth_prime_lists_first_primes_witness :
  nth_prime 2 = Some [2; 3]%Z /\ len [2; 3]%Z = 2%Z.
Proof.
  assert (H : nth_prime 2 = Some [2; 3]%Z) by (vm_compute; reflexivity).
  split; [exact H|].
  exact (proj1 (nth_prime_lists_first_primes 2 [2; 3]%Z H)).
Defined.

(** ** Hammersley sequence *)

Lemma hamm_entry_step (base : Z) (b : R) (s : Z) (v : R) :
  (1 < base)%Z -> 0 < b -> hamm_entry base b s v ->
  hamm_entry base (b / IZR base) (s / base)
             (v + IZR (np_remainder s base) * b).
Proof.
  intros Hb Hpos (Hs & Hv & Hle & Hnz).
  unfold np_remainder. replace (base =? 0)%Z with false by (symmetry; lia).
  pose proof (Z.mod_pos_bound s base ltac:(lia)) as Hd.
  assert (Hq : (0 <= s / base)%Z) by (apply Z.div_pos; lia).
  assert (HB : 1 < IZR base) by (apply IZR_lt in Hb; exact Hb).
  assert (Hd0 : 0 <= IZR (s mod base)) by (apply IZR_le; lia).
  assert (Hd1 : IZR (s mod base) <= IZR base - 1).
  { rewrite <- minus_IZR. apply IZR_le. lia. }
  assert (Hcancel : IZR base * (b / IZR base) = b) by (field; lra).
  repeat split.
  - exact Hq.
  - nra.
  - rewrite Hcancel. nra.
  - destruct Hnz as [Hnz|Hnz]; [|right; nra].
    destruct (Z.eq_dec (s / base) 0) as [E|E]; [right|left; lia].
    assert (Hsd : (0 < s mod base)%Z).
    { pose proof (Z.div_mod s base ltac:(lia)). rewrite E in H. lia. }
    apply IZR_lt in Hsd. nra.
Qed.

Lemma hamm_loop_unit_interval (base : Z) (fuel : nat) :
  (1 < base)%Z ->
  forall seed seq b,
    0 < b -> Forall2 (hamm_entry base b) seed seq ->
    Forall (fun s => (s < 2 ^ Z.of_nat fuel)%Z) seed ->
    exists out, hamm_loop fuel base seed seq b = Some out /\
                length out = length seq /\
                Forall (fun v => 0 < v < 1) out.
Proof.
  intros Hb.
  assert (HB : 1 < IZR base) by (apply IZR_lt in Hb; exact Hb).
  assert (Hdone : forall seed seq b,
             0 < b -> Forall2 (hamm_entry base b) seed seq ->
             existsb (fun x => negb (x =? 0)%Z) seed = false ->
             Forall (fun v => 0 < v < 1) seq).
  { intros seed seq b Hpos HI. induction HI as [|s v seed seq Hsv HI IH];
      cbn [existsb]; intros He; [constructor|].
    apply orb_false_iff in He. destruct He as [He1 He2].
    constructor; [|apply IH, He2].
    destruct Hsv as (Hs & Hv & Hle & Hnz).
    assert (s = 0%Z) by (destruct (Z.eqb_spec s 0); [assumption|discriminate]).
    destruct Hnz as [Hnz|Hnz]; [lia|]. nra. }
  induction fuel as [|fuel IH]; intros seed seq b Hpos HI Hlt;
    cbn [hamm_loop];
    destruct (existsb (fun x => negb (x =? 0)%Z) seed) eqn:He.
  - exfalso. apply existsb_exists in He. destruct He as [s [Hin Hs]].
    rewrite Forall_forall in Hlt. specialize (Hlt s Hin). cbn in Hlt.
    assert (Hs0 : (0 <= s)%Z).
    { clear - HI Hin. induction HI as [|? ? ? ? Hsv]; [destruct Hin|].
      destruct Hin as [<-|Hin]; [apply Hsv|apply IHHI, Hin]. }
    destruct (Z.eqb_spec s 0); [discriminate Hs|lia].
  - exists seq. split; [reflexivity|]. split; [reflexivity|].
    eapply Hdone; eassumption.
  - destruct (IH (map (fun s => (s / base)%Z) seed)
                 (zip_with Rplus seq
                    (map (fun d => IZR d * b)
                         (map (fun s => np_remainder s base) seed)))
                 (b / IZR base)) as (out & Hout & Hlen & Hall).
    + apply Rdiv_lt_0_compat; lra.
    + clear - HI Hb Hpos. induction HI as [|s v seed seq Hsv HI IH];
        cbn [map zip_with]; constructor; [|exact IH].
      apply hamm_entry_step; assumption.
    + apply Forall_map. clear - HI Hlt Hb.
      induction HI as [|s v seed seq Hsv HI IH]; [constructor|].
      inversion Hlt as [|? ? Hs Hrest]; subst.
      constructor; [|apply IH, Hrest].
      apply Z.div_lt_upper_bound; [lia|].
      replace (Z.of_nat (S fuel)) with (Z.succ (Z.of_nat fuel)) in Hs by lia.
      rewrite Z.pow_succ_r in Hs by lia.
      assert (0 < 2 ^ Z.of_nat fuel)%Z by (apply Z.pow_pos_nonneg; lia).
      nia.
    + exists out. split; [exact Hout|]. split; [|exact Hall].
      rewrite Hlen. clear - HI.
      induction HI as [|s v seed seq Hsv HI IH]; [reflexivity|].
      cbn [map zip_with length]. f_equal. exact IH.
  - exists seq. split; [reflexivity|]. split; [reflexivity|].
    eapply Hdone; eassumption.
Qed.

Lemma range_from_length (k : nat) : forall lo, length (range_from lo k) = k.
Proof. induction k as [|k IH]; intros lo; cbn; [reflexivity|now rewrite IH]. Qed.

Lemma hamm_entry_init (base : Z) (k : nat) :
  (1 < base)%Z ->
  forall lo, (1 <= lo)%Z ->
    Forall2 (hamm_entry base (1 / IZR base)) (range_from lo k) (zeros1 k).
Proof.
  intros Hb. assert (HB : 1 < IZR base) by (apply IZR_lt in Hb; exact Hb).
  induction k as [|k IH]; intros lo Hlo; cbn [range_from zeros1 repeat];
    constructor.
  - unfold hamm_entry. repeat split; [lia|lra| |left; lia].
    replace (IZR base * (1 / IZR base)) with 1 by (field; lra). lra.
  - apply IH. lia.
Qed.

(** X1. [hamm(n, base)] for a base greater than 1: the loop ends - [fuel]
    passes are enough as soon as [n < 2 ^ fuel] - and the function returns
    a [(1,n)] array whose [n] values all lie strictly between 0 and 1. *)
Theorem hamm_unit_interval (fuel n : nat) (base : Z) :
  (1 < base)%Z -> (Z.of_nat n < 2 ^ Z.of_nat fuel)%Z ->
  exists row, hamm fuel n base = Some (Array2 [row]) /\
              length row = n /\ Forall (fun v => 0 < v < 1) row.
Proof.
  intros Hb Hfuel. unfold hamm.
  replace (1 <? base)%Z with true by (symmetry; lia).
  assert (HB : 1 < IZR base) by (apply IZR_lt in Hb; exact Hb).
  destruct (hamm_loop_unit_interval base fuel Hb
              (range 1 (Z.of_nat n + 1)) (zeros1 n) (1 / IZR base))
    as (out & Hout & Hlen & Hall).
  - apply Rdiv_lt_0_compat; lra.
  - unfold range.
    replace (Z.to_nat (Z.of_nat n + 1 - 1)) with n by lia.
    apply hamm_entry_init; [exact Hb|lia].
  - apply Forall_forall. intros s Hs. apply In_range in Hs. lia.
  - exists out. rewrite Hout. split; [reflexivity|]. split; [|exact Hall].
    rewrite Hlen. unfold zeros1. apply repeat_length.
Qed.

Lemma hamm_unit_interval_witness :
  exists row, hamm 2 3 2 = Some (Array2 [row]) /\
              length row = 3%nat /\ Forall (fun v => 0 < v < 1) row.
Proof. apply (hamm_unit_interval 2 3 2); reflexivity. Defined.

Lemma hamm_digits_zero (fuel : nat) (base : Z) :
  forall b, hamm_digits fuel base 0 b = 0.
Proof.
  induction fuel as [|fuel IH]; intros b; cbn [hamm_digits]; [reflexivity|].
  rewrite Zdiv_0_l, IH. unfold np_remainder.
  destruct (base =? 0)%Z; [|rewrite Zmod_0_l]; lra.
Qed.

Lemma hamm_digits_scale (fuel : nat) (base : Z) (c : R) :
  forall s b, hamm_digits fuel base s (b / c) = hamm_digits fuel base s b / c.
Proof.
  induction fuel as [|fuel IH]; intros s b; cbn [hamm_digits].
  - unfold Rdiv. lra.
  - replace (b / c / IZR base) with (b / IZR base / c)
      by (unfold Rdiv; lra).
    rewrite IH. unfold Rdiv. lra.
Qed.

Lemma hamm_digits_more_fuel (base : Z) (fuel : nat) :
  (1 < base)%Z ->
  forall s b, (0 <= s < 2 ^ Z.of_nat fuel)%Z ->
    hamm_digits (S fuel) base s b = hamm_digits fuel base s b.
Proof.
  intros Hb. induction fuel as [|fuel IH]; intros s b Hs.
  - assert (s = 0%Z) by (cbn in Hs; lia). subst s.
    rewrite !hamm_digits_zero. reflexivity.
  - change (hamm_digits (S (S fuel)) base s b)
      with (IZR (np_remainder s base) * b
            + hamm_digits (S fuel) base (s / base)%Z (b / IZR base)).
    rewrite IH; [reflexivity|].
    split; [apply Z.div_pos; lia|].
    apply Z.div_lt_upper_bound; [lia|].
    replace (Z.of_nat (S fuel)) with (Z.succ (Z.of_nat fuel)) in Hs by lia.
    rewrite Z.pow_succ_r in Hs by lia.
    assert (0 < 2 ^ Z.of_nat fuel)%Z by (apply Z.pow_pos_nonneg; lia).
    nia.
Qed.

Lemma hamm_loop_digits (base : Z) (fuel : nat) :
  forall seed seq b out,
    length seed = length seq ->
    hamm_loop fuel base seed seq b = Some out ->
    out = zip_with Rplus seq (map (fun s => hamm_digits fuel base s b) seed).
Proof.
  assert (Hdone : forall f seed seq b,
             length seed = length seq ->
             existsb (fun x => negb (x =? 0)%Z) seed = false ->
             seq = zip_with Rplus seq
                     (map (fun s => hamm_digits f base s b) seed)).
  { intros f seed. induction seed as [|s seed IH]; intros [|v seq] b Hl He;
      try discriminate Hl; [reflexivity|].
    cbn [existsb] in He. apply orb_false_iff in He. destruct He as [He1 He2].
    assert (s = 0%Z) by (destruct (Z.eqb_spec s 0); [assumption|discriminate]).
    subst s. cbn [map zip_with]. rewrite hamm_digits_zero.
    f_equal; [lra|]. apply IH; [now injection Hl|exact He2]. }
  induction fuel as [|fuel IH]; intros seed seq b out Hl H;
    cbn [hamm_loop] in H;
    destruct (existsb (fun x => negb (x =? 0)%Z) seed) eqn:He;
    try discriminate H.
  - injection H as <-. apply Hdone; assumption.
  - apply IH in H.
    + subst out. clear - Hl. revert seq Hl.
      induction seed as [|s seed IHs]; intros [|v seq] Hl;
        try discriminate Hl; [reflexivity|].
      cbn [map zip_with hamm_digits]. f_equal; [lra|].
      apply IHs. now injection Hl.
    + clear - Hl. revert seq Hl.
      induction seed as [|s seed IHs]; intros [|v seq] Hl;
        try discriminate Hl; [reflexivity|].
      cbn [map zip_with length]. f_equal. apply IHs. now injection Hl.
  - injection H as <-. apply Hdone; assumption.
Qed.

Lemma nth_range_from (k : nat) :
  forall lo j d, (j < k)%nat -> nth j (range_from lo k) d = (lo + Z.of_nat j)%Z.
Proof.
  induction k as [|k IH]; intros lo j d Hj; [lia|].
  destruct j as [|j]; cbn [range_from nth]; [lia|].
  rewrite IH by lia. lia.
Qed.

Lemma nth_zeros_plus (f : Z -> R) (k : nat) :
  forall lo j, (j < k)%nat ->
    nth j (zip_with Rplus (zeros1 k) (map f (range_from lo k))) 0
    = f (lo + Z.of_nat j)%Z.
Proof.
  induction k as [|k IH]; intros lo j Hj; [lia|].
  destruct j as [|j]; cbn [range_from zeros1 repeat map zip_with nth].
  - replace (lo + Z.of_nat 0)%Z with lo by lia. lra.
  - fold (zeros1 k). rewrite IH by lia. f_equal. lia.
Qed.



Lemma nth_map_range_from (f : Z -> R) (k : nat) :
  forall lo j, (j < k)%nat ->
    nth j (map f (range_from lo k)) 0 = f (lo + Z.of_nat j)%Z.
Proof.
  induction k as [|k IH]; intros lo j Hj; [lia|].
  destruct j as [|j]; cbn [range_from map nth].
  - f_equal. lia.
  - rewrite IH by lia. f_equal. lia.
Qed.

(** X3. [hamm(n, -n)] with [n >= 1], the call that was prepared for the
    first coordinate of the point set: the branch for [base <= 1] returns a
    1-D array of length [n], the grid [(k + 1/2) / n] for [k = 1 .. n],
    and the last point of that grid is larger than 1. *)
Theorem hamm_negative_base_grid (fuel n : nat) :
  (1 <= n)%nat ->
  exists row, hamm fuel n (- Z.of_nat n) = Some (Array1 row) /\
    length row = n /\
    (forall j, (j < n)%nat ->
       nth j row 0 = (IZR (Z.of_nat j) + 3 / 2) / IZR (Z.of_nat n)) /\
    1 < nth (n - 1) row 0.
Proof.
  intros Hn. unfold hamm.
  replace (1 <? - Z.of_nat n)%Z with false by (symmetry; lia).
  eexists. split; [reflexivity|].
  assert (Hk : Z.to_nat (Z.of_nat n + 1 - 1) = n) by lia.
  assert (HN : 1 <= IZR (Z.of_nat n)) by (apply IZR_le; lia).
  assert (Hentry : forall j, (j < n)%nat ->
            nth j (map (fun k => (IZR (np_remainder k (- - Z.of_nat n + 1))
                                  + 1 / 2) / IZR (- - Z.of_nat n))
                       (range 1 (Z.of_nat n + 1))) 0
            = (IZR (Z.of_nat j) + 3 / 2) / IZR (Z.of_nat n)).
  { intros j Hj. unfold range. rewrite Hk, nth_map_range_from by exact Hj.
    unfold np_remainder.
    replace (- - Z.of_nat n + 1 =? 0)%Z with false by (symmetry; lia).
    rewrite Z.mod_small by lia. rewrite Z.opp_involutive, plus_IZR.
    field. lra. }
  split; [|split].
  - rewrite length_map. unfold range. rewrite Hk. apply range_from_length.
  - exact Hentry.
  - rewrite Hentry by lia.
    replace (Z.of_nat (n - 1)) with (Z.of_nat n - 1)%Z by lia.
    rewrite minus_IZR. apply (Rmult_lt_reg_r (IZR (Z.of_nat n))); [lra|].
    unfold Rdiv. rewrite Rmult_assoc, Rinv_l by lra. lra.
Qed.

Lemma hamm_negative_base_grid_witness :
  exists row, hamm 0 2 (- Z.of_nat 2) = Some (Array1 row) /\
    length row = 2%nat /\
    (forall j, (j < 2)%nat ->
       nth j row 0 = (IZR (Z.of_nat j) + 3 / 2) / IZR (Z.of_nat 2)) /\
    1 < nth (2 - 1) row 0.
Proof. apply (hamm_negative_base_grid 0 2); lia. Defined.

(** ** Extrema and zero-crossing counts of the direction loops *)

Lemma set_nth_app_length {A : Type} (l l' : list A) (a v : A) :
  set_nth (l ++ a :: l') (length l) v = l ++ v :: l'.
Proof.
  induction l as [|b l IH]; cbn [app length set_nth]; [reflexivity|].
  now rewrite IH.
Qed.

(** Writing entry [k] of a count array whose first [k] entries are
    written already. *)
Lemma counts_step (f : nat -> Z) (k n : nat) :
  (k < n)%nat ->
  set_item (map f (List.seq 0 k) ++ repeat 0%Z (n - k)) (Z.of_nat k) (f k)
  = map f (List.seq 0 (S k)) ++ repeat 0%Z (n - S k).
Proof.
  intros Hk. unfold set_item.
  replace (Z.of_nat k <? 0)%Z with false by (symmetry; lia).
  rewrite Nat2Z.id.
  replace (n - k)%nat with (S (n - S k)) by lia. cbn [repeat].
  assert (Hl : length (map f (List.seq 0 k)) = k)
    by now rewrite length_map, length_seq.
  pose proof (set_nth_app_length (map f (List.seq 0 k))
                (repeat 0%Z (n - S k)) 0%Z (f k)) as Hset.
  rewrite Hl in Hset. rewrite Hset, seq_S, map_app, <- app_assoc.
  reflexivity.
Qed.

Lemma counts_fold (f : nat -> Z) (n k : nat) :
  (k <= n)%nat ->
  fold_left (fun l it => set_item l (Z.of_nat it) (f it)) (List.seq 0 k)
            (repeat 0%Z n)
  = map f (List.seq 0 k) ++ repeat 0%Z (n - k).
Proof.
  induction k as [|k IH]; intros Hk.
  - cbn. now rewrite Nat.sub_0_r.
  - rewrite seq_S at 1. rewrite fold_left_app, IH by lia.
    cbn [fold_left Nat.add].
    apply counts_step. lia.
Qed.

Lemma stop_emd_fold_counts (r seq : mat) (ndir N_dim k : nat) :
  (k <= ndir)%nat ->
  fold_left
    (fun (s : list Z * list R) it =>
       let dir_vec := next_dir_vec seq it N_dim (snd s) in
       let y := np_dot r dir_vec in
       let '(indmin, indmax) := local_peaks y in
       (set_item (fst s) (Z.of_nat it) (len indmin + len indmax)%Z, dir_vec))
    (List.seq 0 k) (repeat 0%Z ndir, zeros1 N_dim)
  = (map (extrema_count r seq N_dim) (List.seq 0 k) ++ repeat 0%Z (ndir - k),
     dir_vec_before seq N_dim k).
Proof.
  induction k as [|k IH]; intros Hk.
  - cbn. now rewrite Nat.sub_0_r.
  - rewrite seq_S at 1. rewrite fold_left_app, IH by lia.
    cbn [fold_left Nat.add fst snd].
    fold (dir_vec_at seq N_dim k). fold (projection r seq N_dim k).
    rewrite dir_vec_before_S.
    pose proof (counts_step (extrema_count r seq N_dim) k ndir ltac:(lia))
      as Hstep.
    unfold extrema_count at 2 in Hstep.
    destruct (local_peaks (projection r seq N_dim k)) as [indmin indmax].
    cbn [fst snd] in Hstep. rewrite Hstep. reflexivity.
Qed.

Lemma stop_emd_forallb (r seq : mat) (ndir N_dim : nat) :
  stop_emd r seq ndir N_dim
  = forallb (direction_failed r seq N_dim) (List.seq 0 ndir).
Proof.
  unfold stop_emd. rewrite stop_emd_fold_counts by lia.
  rewrite Nat.sub_diag. cbn [repeat]. rewrite app_nil_r.
  unfold direction_failed.
  induction (List.seq 0 ndir) as [|it its IH]; [reflexivity|].
  cbn [map forallb]. now rewrite IH.
Qed.

(** X12. [stop_emd] answers [True] exactly when every one of the [ndir]
    projections of the residue has fewer than 3 extrema; each direction is
    built from the vector left by the pass before it, as in
    [envelope_mean]. *)
Theorem stop_emd_all_directions_failed (r seq : mat) (ndir N_dim : nat) :
  stop_emd r seq ndir N_dim = true <->
  forall it, (it < ndir)%nat -> direction_failed r seq N_dim it = true.
Proof.
  rewrite stop_emd_forallb, forallb_forall. split.
  - intros H it Hit. apply H, in_seq. lia.
  - intros H it Hit. apply H. apply in_seq in Hit. lia.
Qed.

Lemma forallb_filter_length {A : Type} (p : A -> bool) (l : list A) :
  forallb p l = (Z.of_nat (length l) <=? len (filter p l))%Z.
Proof.
  unfold len. induction l as [|a l IH]; [reflexivity|].
  rewrite filter_step. cbn [forallb length].
  pose proof (filter_length_le p l) as Hle.
  destruct (p a); cbn [andb length].
  - rewrite IH. destruct (Z.leb_spec (Z.of_nat (length l))
                            (Z.of_nat (length (filter p l))));
      symmetry; [apply Z.leb_le|apply Z.leb_gt]; lia.
  - symmetry. apply Z.leb_gt. lia.
Qed.

Section Counts.

Variable CubicSpline : list Z -> mat -> list Z -> result mat.
Variable zero_run_midpoints : list R -> result (list Z).
Variable m : mat.
Variable t : list Z.
Variable seq : mat.
Variable N_dim : nat.

Let crossings := fun it =>
  zero_crossings zero_run_midpoints (projection m seq N_dim it).
Let crossing_count := fun it =>
  match crossings it with
  | Ok iz => len iz
  | Raise _ => 0%Z
  end.

(** The two count arrays after the direction loop from pass [it0] on. *)
Lemma envelope_loop_counts (n it0 : nat) (s s' : env_acc) :
  acc_dir_vec s = dir_vec_before seq N_dim it0 ->
  envelope_loop CubicSpline zero_run_midpoints m t seq N_dim
                (List.seq it0 n) s = Ok s' ->
  (exists izs, mapM crossings (List.seq it0 n) = Ok izs /\
               map len izs = map crossing_count (List.seq it0 n)) /\
  acc_nem s'
  = fold_left (fun l it => set_item l (Z.of_nat it)
                                    (extrema_count m seq N_dim it))
              (List.seq it0 n) (acc_nem s) /\
  acc_nzm s'
  = fold_left (fun l it => set_item l (Z.of_nat it) (crossing_count it))
              (List.seq it0 n) (acc_nzm s).
Proof.
  revert it0 s. induction n as [|n IH]; intros it0 s Hdv Hloop.
  - cbn in Hloop. injection Hloop as <-. cbn [List.seq fold_left].
    split; [exists []|]; split; reflexivity.
  - cbn [List.seq envelope_loop] in Hloop.
    apply bind_Ok_inv in Hloop. destruct Hloop as (s1 & Hstep & Hloop).
    destruct (envelope_step_spec _ _ _ _ _ _ s s1 it0 Hdv Hstep)
      as (Hdv1 & Hnem & (iz & Hiz & Hnzm) & _).
    destruct (IH (S it0) s1 Hdv1 Hloop) as ((izs & Hizs & Hmap) & Hn & Hz).
    cbn [List.seq fold_left]. split; [|split].
    + exists (iz :: izs). rewrite mapM_step. fold (crossings it0) in Hiz.
      rewrite Hiz, Hizs. cbn [bind map]. split; [reflexivity|].
      rewrite Hmap. unfold crossing_count at 2. now rewrite Hiz.
    + now rewrite Hn, Hnem.
    + rewrite Hz, Hnzm. unfold crossing_count at 3.
      fold (crossings it0) in Hiz. now rewrite Hiz.
Qed.

Lemma envelope_mean_inv (ndir N : nat) (env_mean : mat) (nem nzm : list Z)
  (amp : list R) :
  envelope_mean CubicSpline zero_run_midpoints m t seq ndir N N_dim
  = Ok (env_mean, nem, nzm, amp) ->
  (exists izs, mapM crossings (List.seq 0 ndir) = Ok izs /\ nzm = map len izs)
  /\ (if forallb (direction_failed m seq N_dim) (List.seq 0 ndir)
      then nem = repeat 0%Z ndir /\ env_mean = zeros N N_dim /\
           amp = zeros1 N
      else nem = map (extrema_count m seq N_dim) (List.seq 0 ndir)).
Proof.
  intros H. unfold envelope_mean in H.
  apply bind_Ok_inv in H. destruct H as (s & Hloop & H).
  pose proof Hloop as Hcounts.
  apply envelope_loop_counts in Hcounts; [|reflexivity].
  destruct Hcounts as ((izs & Hizs & Hmap) & Hnem & Hnzm).
  apply envelope_loop_spec in Hloop; [|reflexivity].
  destruct Hloop as (_ & _ & Hcount & _).
  cbn [acc_nem acc_nzm acc_count] in Hnem, Hnzm, Hcount.
  rewrite counts_fold in Hnem, Hnzm by lia.
  rewrite Nat.sub_diag in Hnem, Hnzm. cbn [repeat] in Hnem, Hnzm.
  rewrite app_nil_r in Hnem, Hnzm.
  rewrite Z.add_0_l in Hcount.
  rewrite forallb_filter_length, length_seq, <- Hcount, Z.leb_antisym.
  destruct (acc_count s <? Z.of_nat ndir)%Z; cbn [negb];
    injection H as <- <- <- <-.
  - split; [|exact Hnem]. exists izs. now rewrite Hnzm, Hmap.
  - split; [|repeat split]. exists izs. now rewrite Hnzm, Hmap.
Qed.

(** X13. The counts returned by [envelope_mean]: [nzm] always holds the
    number of zero crossings of each projection; [nem] holds the number of
    extrema of each projection when some direction has at least 3 of them,
    and is all zeros when every direction failed - although the zero
    crossings of those directions are still reported. *)
Theorem envelope_mean_counts (ndir N : nat) (env_mean : mat)
  (nem nzm : list Z) (amp : list R) :
  envelope_mean CubicSpline zero_run_midpoints m t seq ndir N N_dim
  = Ok (env_mean, nem, nzm, amp) ->
  (exists izs,
      mapM (fun it => zero_crossings zero_run_midpoints
                        (projection m seq N_dim it)) (List.seq 0 ndir)
      = Ok izs /\ nzm = map len izs) /\
  nem = if forallb (direction_failed m seq N_dim) (List.seq 0 ndir)
        then repeat 0%Z ndir
        else map (extrema_count m seq N_dim) (List.seq 0 ndir).
Proof.
  intros H. apply envelope_mean_inv in H. destruct H as [Hz Hn].
  split; [exact Hz|].
  destruct (forallb _ _); [apply Hn|exact Hn].
Qed.

(** X14. When every projection of the current mode has fewer than 3
    extrema, [stop] answers [True] with the zero [N x N_dim] envelope,
    whatever the thresholds, and also when the envelope estimator
    raised. *)
Theorem stop_halts_when_all_directions_fail (sd sd2 tol : R) (ndir N : nat) :
  forallb (direction_failed m seq N_dim) (List.seq 0 ndir) = true ->
  stop CubicSpline zero_run_midpoints m t sd sd2 tol seq ndir N N_dim
  = (true, zeros N N_dim).
Proof.
  intros Hall. unfold stop.
  destruct (envelope_mean CubicSpline zero_run_midpoints m t seq ndir N N_dim)
    as [[[[env_mean nem] nzm] amp]|e] eqn:He; [|reflexivity].
  apply envelope_mean_inv in He. destruct He as [_ He].
  rewrite Hall in He. destruct He as (-> & -> & ->).
  assert (Hnem : existsb (fun e => (2 <? e)%Z) (repeat 0%Z ndir) = false).
  { clear. induction ndir as [|n IH]; [reflexivity|exact IH]. }
  rewrite Hnem, andb_false_r. reflexivity.
Qed.

End Counts.

(** ** Diagnostics, iteration cap and mode cap of the engine *)

Section EngineBounds.

Variable CubicSpline : list Z -> mat -> list Z -> result mat.
Variable create_halton_samples : nat -> nat -> mat.
Variable zero_run_midpoints : list R -> result (list Z).
Variable x : mat.
Variable ndir : nat.
Variable maxnIMF : option Z.
Variable stp_crit : string.
Variables sd sd2 tol : R.
Variables stp_cnt MaxIterations : Z.
Variable t : list Z.
Variable seq : mat.
Variables N N_dim : nat.

Let sift := sift_loop CubicSpline zero_run_midpoints ndir stp_crit sd sd2 tol
                      stp_cnt MaxIterations t seq N N_dim.
Let outer := memd_loop CubicSpline zero_run_midpoints x ndir maxnIMF stp_crit
                       sd sd2 tol stp_cnt MaxIterations t seq N N_dim.

(** The sifting loop writes nothing to the log. *)
Lemma sift_loop_log (fuel : nat) :
  forall (m env_mean : mat) (b : bool) (c nbit : Z)
         (log log' : list diagnostic) (m' : mat),
    sift fuel m env_mean b c nbit log = Some (Ok (m', log')) -> log' = log.
Proof.
  unfold sift.
  induction fuel as [|fuel IH]; intros m env_mean b c nbit log log' m' H;
    cbn [sift_loop] in H;
    (destruct (negb b && (nbit <? MaxIterations)%Z);
     [| now injection H as _ <-]).
  - discriminate.
  - destruct (sift_policy _ _ _ _ _ _ _ _ _ _ _ _ (mat_sub m env_mean) c)
      as [[b' env'] c'].
    destruct ((nbit + 1 =? MaxIterations - 1)%Z && (100 <? nbit + 1)%Z).
    + discriminate.
    + eapply IH. exact H.
Qed.

Lemma memd_loop_log (fuel : nat) :
  forall (r : mat) (q : list mat) (n_imf nbit : Z)
         (log log' : list diagnostic) (res : result (list mat)),
    outer fuel r q n_imf nbit log = Some (log', res) ->
    log' = log \/
    (log' = log ++ [Printed "forced stop of EMD : too small amplitude"] /\
     exists q', res = Ok q').
Proof.
  unfold outer.
  induction fuel as [|fuel IH]; intros r q n_imf nbit log log' res H;
    cbn [memd_loop] in H;
    (destruct (negb (stop_emd r seq ndir N_dim));
     [| injection H as <- <-; now left]).
  - discriminate.
  - destruct (sift_policy _ _ _ _ _ _ _ _ _ _ _ _ r 0%Z) as [[b env] c].
    destruct (a <- np_max_abs r ;; _) as [[|]|e].
    + destruct b; cbn [negb] in H; injection H as <- <-.
      * right. eauto.
      * now left.
    + destruct (sift_loop _ _ _ _ _ _ _ _ _ _ _ _ _ _ _ _ _ _ _ _)
        as [[[m log1]|e]|] eqn:Hsift; try discriminate.
      * apply sift_loop_log in Hsift. subst log1.
        destruct (match maxnIMF with
                  | Some cap => (cap <=? n_imf + 1)%Z
                  | None => false
                  end).
        -- injection H as <- <-. now left.
        -- eapply IH. exact H.
      * injection H as <- <-. now left.
    + injection H as <- <-. now left.
Qed.

(** X15. The sifting loop with [MaxIterations <= 101]: it ends within
    [MaxIterations - nbit] passes, it never reaches the call of the
    iteration-cap diagnostic (that needs [nbit > 100]), so it neither
    raises nor writes anything, and it hands back a mode. *)
Theorem sift_loop_small_cap (fuel : nat) :
  (MaxIterations <= 101)%Z ->
  forall (m env_mean : mat) (b : bool) (c nbit : Z) (log : list diagnostic),
    (MaxIterations - nbit <= Z.of_nat fuel)%Z ->
    exists m', sift fuel m env_mean b c nbit log = Some (Ok (m', log)).
Proof.
  intros Hcap. unfold sift.
  induction fuel as [|fuel IH]; intros m env_mean b c nbit log Hfuel;
    cbn [sift_loop];
    (destruct (negb b && (nbit <? MaxIterations)%Z) eqn:Hgo;
     [| eexists; reflexivity]);
    apply andb_true_iff in Hgo; destruct Hgo as [_ Hgo];
    apply Z.ltb_lt in Hgo.
  - lia.
  - destruct (sift_policy _ _ _ _ _ _ _ _ _ _ _ _ (mat_sub m env_mean) c)
      as [[b' env'] c'].
    replace ((nbit + 1 =? MaxIterations - 1)%Z && (100 <? nbit + 1)%Z)
      with false.
    + apply IH. lia.
    + symmetry. apply andb_false_iff.
      destruct (Z.eqb_spec (nbit + 1) (MaxIterations - 1));
        [right; apply Z.ltb_ge; lia|left; reflexivity].
Qed.

(** The number of arrays collected so far is [n_imf - 1]; the cap ends the
    loop as soon as [n_imf] reaches it, but not before the first mode. *)
Lemma memd_loop_cap (cap : Z) (fuel : nat) :
  maxnIMF = Some cap ->
  forall (r : mat) (q : list mat) (n_imf nbit : Z)
         (log log' : list diagnostic) (q' : list mat),
    len q = (n_imf - 1)%Z ->
    (n_imf < cap \/ n_imf = 1)%Z ->
    outer fuel r q n_imf nbit log = Some (log', Ok q') ->
    (1 <= len q' <= Z.max cap 2)%Z.
Proof.
  intros Hcap. unfold outer. rewrite Hcap.
  assert (Hlen : forall (l : list mat) (a : mat), len (l ++ [a]) = (len l + 1)%Z).
  { intros l a. unfold len. rewrite length_app. cbn [length]. lia. }
  induction fuel as [|fuel IH]; intros r q n_imf nbit log log' q' Hq Hn H;
    pose proof (len_nonneg q) as Hq0;
    cbn [memd_loop] in H;
    (destruct (negb (stop_emd r seq ndir N_dim));
     [| injection H as _ <-; rewrite Hlen; lia]).
  - discriminate.
  - destruct (sift_policy _ _ _ _ _ _ _ _ _ _ _ _ r 0%Z) as [[b env] c].
    destruct (a <- np_max_abs r ;; _) as [[|]|e]; [| |discriminate].
    + destruct b; cbn [negb] in H; [|discriminate].
      injection H as _ <-. rewrite Hlen. lia.
    + destruct (sift_loop _ _ _ _ _ _ _ _ _ _ _ _ _ _ _ _ _ _ _ _)
        as [[[m log1]|e]|]; try discriminate.
      destruct (cap <=? n_imf + 1)%Z eqn:Hc.
      * injection H as _ <-. rewrite !Hlen. apply Z.leb_le in Hc. lia.
      * apply Z.leb_gt in Hc. eapply IH; [| |exact H].
        -- rewrite Hlen. lia.
        -- lia.
Qed.

End EngineBounds.

(** X16. Whatever [memd] does - return, or raise - it has delivered at
    most one diagnostic, the printed line [forced stop of EMD : too small
    amplitude], and only in a run that returns: no run ever delivers a
    warning through the [warnings] module. *)
Theorem memd_only_prints
  (CubicSpline : list Z -> mat -> list Z -> result mat)
  (create_halton_samples : nat -> nat -> mat)
  (zero_run_midpoints : list R -> result (list Z))
  (fuel : nat) (x : mat) (ndir : nat) (maxnIMF : option Z) (stp_crit : string)
  (sd sd2 tol : R) (stp_cnt MaxIterations : Z) (log : list diagnostic)
  (res : result (list mat)) :
  memd CubicSpline create_halton_samples zero_run_midpoints fuel x ndir
       maxnIMF stp_crit sd sd2 tol stp_cnt MaxIterations = Some (log, res) ->
  log = [] \/
  (log = [Printed "forced stop of EMD : too small amplitude"] /\
   exists q, res = Ok q).
Proof.
  intros H. unfold memd in H. apply memd_loop_log in H. exact H.
Qed.

(** X17. With [maxnIMF = cap], a run of [memd] that returns hands back
    at least one array and at most [max(cap, 2)]: the cap is tested only
    after a mode has been appended, so a cap of 1 (or less) still lets one
    mode through, followed by the residue. *)
Theorem memd_cap_bounds_output
  (CubicSpline : list Z -> mat -> list Z -> result mat)
  (create_halton_samples : nat -> nat -> mat)
  (zero_run_midpoints : list R -> result (list Z))
  (fuel : nat) (x : mat) (ndir : nat) (cap : Z) (stp_crit : string)
  (sd sd2 tol : R) (stp_cnt MaxIterations : Z) (log : list diagnostic)
  (q : list mat) :
  memd CubicSpline create_halton_samples zero_run_midpoints fuel x ndir
       (Some cap) stp_crit sd sd2 tol stp_cnt MaxIterations
  = Some (log, Ok q) ->
  (1 <= len q <= Z.max cap 2)%Z.
Proof.
  intros H. unfold memd in H.
  eapply memd_loop_cap in H; [exact H|reflexivity|reflexivity|lia].
Qed.

(** ** Arrays with one column *)

Lemma map_nth_seq {A B : Type} (f : A -> B) (d : A) (l : list A) :
  map (fun j => f (nth j l d)) (List.seq 0 (length l)) = map f l.
Proof.
  induction l as [|a l IH]; [reflexivity|].
  cbn [length List.seq map nth]. f_equal.
  rewrite <- seq_shift, map_map. exact IH.
Qed.

(** The transpose of an [(N,1)] array is its one row, and back. *)
Lemma transpose_column (y : list R) :
  y <> [] -> transpose (map (fun v => [v]) y) = [y].
Proof.
  intros Hy. destruct y as [|v y]; [contradiction|].
  unfold transpose, ncols. cbn [map hd length List.seq].
  f_equal. f_equal. rewrite map_map. cbn [nth]. apply map_id.
Qed.

Lemma transpose_row (l : list R) : transpose [l] = map (fun v => [v]) l.
Proof.
  unfold transpose, ncols. cbn [hd map].
  apply (map_nth_seq (fun v => [v]) 0 l).
Qed.

Lemma np_where_rows_column_from (b : list bool) :
  forall i0,
    flat_map (fun ir : Z * list bool =>
                map (fun _ => fst ir) (filter (fun c => c) (snd ir)))
             (enumerate_from i0 (map (fun c => [c]) b))
    = map fst (filter snd (enumerate_from i0 b)).
Proof.
  induction b as [|c b IH]; intros i0; [reflexivity|].
  cbn [map enumerate_from flat_map]. rewrite IH, !filter_step.
  cbn [fst snd]. destruct c; reflexivity.
Qed.

(** [np.where(b)[0]] on an [(N,1)] boolean array. *)
Lemma np_where_rows_column (b : list bool) :
  np_where_rows (map (fun c => [c]) b) = np_where b.
Proof. apply np_where_rows_column_from. Qed.

Lemma In_np_where_from (b : list bool) :
  forall i0 i,
    In i (map fst (filter snd (enumerate_from i0 b))) <->
    (i0 <= i)%Z /\ nth (Z.to_nat (i - i0)) b false = true.
Proof.
  induction b as [|c b IH]; intros i0 i.
  - cbn. split; [intros []|intros [_ H]]. destruct (Z.to_nat (i - i0));
      discriminate H.
  - cbn [enumerate_from]. rewrite filter_step. cbn [snd].
    assert (Hrest : In i (map fst (filter snd (enumerate_from (i0 + 1) b)))
                    <-> (i0 < i)%Z /\ nth (Z.to_nat (i - i0)) (c :: b) false
                                      = true).
    { rewrite IH. split; intros [H1 H2]; (split; [lia|]).
      - replace (Z.to_nat (i - i0)) with (S (Z.to_nat (i - (i0 + 1)))) by lia.
        exact H2.
      - replace (Z.to_nat (i - i0)) with (S (Z.to_nat (i - (i0 + 1))))
          in H2 by lia.
        exact H2. }
    destruct c; cbn [map fst In].
    + rewrite Hrest. split.
      * intros [<-|[H1 H2]]; [|split; [lia|exact H2]].
        split; [lia|]. now rewrite Z.sub_diag.
      * intros [H1 H2]. destruct (Z.eq_dec i0 i) as [E|E]; [now left|right].
        split; [lia|exact H2].
    + rewrite Hrest. split; intros [H1 H2]; (split; [lia|exact H2]) || idtac.
      split; [|exact H2].
      destruct (Z.eq_dec i0 i) as [E|E]; [|lia].
      subst i. rewrite Z.sub_diag in H2. discriminate H2.
Qed.

Lemma In_np_where (b : list bool) (i : Z) :
  In i (np_where b) <-> (0 <= i)%Z /\ nth (Z.to_nat i) b false = true.
Proof.
  unfold np_where. rewrite In_np_where_from, Z.sub_0_r. reflexivity.
Qed.

Lemma np_where_sorted (b : list bool) : StronglySorted Z.lt (np_where b).
Proof.
  unfold np_where. generalize 0%Z as i0. induction b as [|c b IH]; intros i0.
  - constructor.
  - cbn [enumerate_from]. rewrite filter_step. cbn [snd].
    destruct c; [|apply IH]. cbn [map fst]. constructor; [apply IH|].
    apply Forall_forall. intros i Hi. apply In_np_where_from in Hi. lia.
Qed.

Lemma np_where_all_true (k : nat) :
  forall i0,
    map fst (filter snd (enumerate_from i0 (repeat true k))) = range_from i0 k.
Proof.
  induction k as [|k IH]; intros i0; [reflexivity|].
  cbn [repeat enumerate_from range_from]. rewrite filter_step. cbn [snd map fst].
  now rewrite IH.
Qed.

Lemma np_where_repeat_true (k : nat) :
  np_where (repeat true k) = range_from 0 k.
Proof. apply np_where_all_true. Qed.

Lemma np_where_all_false (k : nat) : np_where (repeat false k) = [].
Proof.
  unfold np_where. generalize 0%Z as i0.
  induction k as [|k IH]; intros i0; [reflexivity|].
  cbn [repeat enumerate_from]. rewrite filter_step. cbn [snd]. apply IH.
Qed.

Lemma map_constant {A B : Type} (f : A -> B) (b : B) (l : list A) :
  Forall (fun a => f a = b) l -> map f l = repeat b (length l).
Proof.
  induction 1 as [|a l Ha Hl IH]; [reflexivity|].
  cbn [map length repeat]. now rewrite Ha, IH.
Qed.

Lemma np_diffZ_range_from (k : nat) :
  forall lo, np_diffZ (range_from lo k) = repeat 1%Z (k - 1).
Proof.
  unfold np_diffZ.
  induction k as [|k IH]; intros lo; [reflexivity|].
  destruct k as [|k]; [reflexivity|].
  specialize (IH (lo + 1)%Z).
  cbn [range_from tl zip_with] in *.
  rewrite IH. cbn [Nat.sub repeat]. rewrite Nat.sub_0_r.
  f_equal. lia.
Qed.

Lemma range_from_snoc (k : nat) :
  forall lo, range_from lo k ++ [(lo + Z.of_nat k)%Z] = range_from lo (S k).
Proof.
  induction k as [|k IH]; intros lo.
  - cbn. f_equal. lia.
  - change (range_from lo (S (S k))) with (lo :: range_from (lo + 1) (S k)).
    rewrite <- (IH (lo + 1)%Z). cbn [range_from app].
    f_equal. f_equal. f_equal. lia.
Qed.

Lemma map_nth_range_from {A : Type} (d : A) (l : list A) :
  forall lo,
    map (fun i => nth (Z.to_nat (i - lo)) l d) (range_from lo (length l)) = l.
Proof.
  induction l as [|a l IH]; intros lo; [reflexivity|].
  cbn [length range_from map]. rewrite Z.sub_diag. cbn [Z.to_nat nth].
  f_equal. rewrite <- (IH (lo + 1)%Z) at 2.
  apply map_ext_in. intros i Hi. apply In_range_from in Hi.
  replace (Z.to_nat (i - lo)) with (S (Z.to_nat (i - (lo + 1)))) by lia.
  reflexivity.
Qed.

Lemma slice_to_last {A : Type} (l : list A) :
  slice_to l (-1) = firstn (length l - 1) l.
Proof.
  unfold slice_to, slice, slice_bound, len.
  cbn [Z.ltb Z.compare]. rewrite Z.min_l by lia.
  cbn [Z.to_nat skipn]. f_equal. lia.
Qed.

Lemma slice_from_1 {A : Type} (l : list A) : slice_from l 1 = tl l.
Proof.
  unfold slice_from, slice, slice_bound, len.
  destruct l as [|a l]; [reflexivity|].
  set (n := Z.of_nat (length (a :: l))).
  assert (Hn : (1 <= n)%Z) by (subst n; cbn [length]; lia).
  replace (1 <? 0)%Z with false by reflexivity.
  destruct (Z.ltb_spec n 0); [lia|].
  rewrite !Z.min_l by lia.
  change (Z.to_nat 1) with 1%nat. cbn [skipn tl].
  apply firstn_all2. subst n. cbn [length]. lia.
Qed.

Lemma zip_with_column {A B C : Type} (f : A -> B -> C) (u : list A)
  (w : list B) :
  zip_with (zip_with f) (map (fun v => [v]) u) (map (fun v => [v]) w)
  = map (fun c => [c]) (zip_with f u w).
Proof.
  revert w. induction u as [|a u IH]; intros [|b w]; try reflexivity.
  cbn [map zip_with]. now rewrite IH.
Qed.

Lemma map_column {A B : Type} (f : A -> B) (l : list A) :
  map (map f) (map (fun v => [v]) l) = map (fun c => [c]) (map f l).
Proof. rewrite !map_map. reflexivity. Qed.

Lemma peaks_column (y : list R) :
  y <> [] ->
  snd (peaks (map (fun v => [v]) y))
  = map (fun i => (i + 1)%Z) (np_where (rise_then_fall y)) /\
  length (fst (peaks (map (fun v => [v]) y)))
  = length (snd (peaks (map (fun v => [v]) y))).
Proof.
  intros Hy. unfold peaks. cbn [fst snd]. split; [|now rewrite length_map].
  rewrite (transpose_column y Hy). cbn [map]. rewrite transpose_row.
  rewrite slice_to_last, slice_from_1, !length_map, firstn_map, tl_map.
  rewrite !map_column, zip_with_column, np_where_rows_column.
  unfold rise_then_fall.
  rewrite firstn_map, tl_map, !map_map. reflexivity.
Qed.

Lemma np_diff_cons (a b : R) (l : list R) :
  np_diff (a :: b :: l) = (b - a) :: np_diff (b :: l).
Proof. reflexivity. Qed.

Lemma np_diff_length (y : list R) : length (np_diff y) = (length y - 1)%nat.
Proof.
  destruct y as [|a y]; [reflexivity|]. revert a.
  induction y as [|b y IH]; intros a; [reflexivity|].
  rewrite np_diff_cons. cbn [length]. rewrite IH. cbn [length]. lia.
Qed.

Lemma nth_np_diff (y : list R) :
  forall j, (S j < length y)%nat ->
    nth j (np_diff y) 0 = nth (S j) y 0 - nth j y 0.
Proof.
  destruct y as [|a y]; [intros j Hj; cbn in Hj; lia|]. revert a.
  induction y as [|b y IH]; intros a j Hj; [cbn in Hj; lia|].
  rewrite np_diff_cons. destruct j as [|j]; [reflexivity|].
  cbn [nth]. rewrite IH by (cbn [length] in *; lia). reflexivity.
Qed.

Lemma nth_zip_with_andb (u w : list bool) :
  forall j, nth j (zip_with andb u w) false
            = nth j u false && nth j w false.
Proof.
  revert w. induction u as [|a u IH]; intros [|b w] j; cbn [zip_with].
  - destruct j; reflexivity.
  - destruct j; reflexivity.
  - destruct j; cbn [nth]; now rewrite andb_false_r.
  - destruct j; cbn [nth]; [reflexivity|apply IH].
Qed.

Lemma nth_map_true {A : Type} (p : A -> bool) (d : A) (l : list A) (j : nat) :
  nth j (map p l) false = true <-> (j < length l)%nat /\ p (nth j l d) = true.
Proof.
  revert j. induction l as [|a l IH]; intros j.
  - cbn. split; [destruct j; discriminate|intros [H _]; lia].
  - destruct j as [|j]; cbn [map nth length].
    + split; [intros H; split; [lia|exact H]|intros [_ H]; exact H].
    + rewrite IH. split; intros [H1 H2]; (split; [lia|exact H2]).
Qed.

Lemma Rltb_iff (a b : R) : Rltb a b = true <-> a < b.
Proof. unfold Rltb. destruct (Rlt_dec a b); split; auto; discriminate. Qed.

Lemma np_sign_pos_iff (v : R) : Rltb 0 (np_sign v) = true <-> 0 < v.
Proof.
  rewrite Rltb_iff. unfold np_sign.
  destruct (Rltb 0 v) eqn:E1; [apply Rltb_iff in E1; split; intros; lra|].
  destruct (Rltb v 0) eqn:E2.
  - apply Rltb_iff in E2. split; intros; lra.
  - assert (~ 0 < v) by (intros H; apply Rltb_iff in H; congruence).
    split; intros; lra.
Qed.

Lemma np_sign_neg_iff (v : R) : Rltb (np_sign v) 0 = true <-> v < 0.
Proof.
  rewrite Rltb_iff. unfold np_sign.
  destruct (Rltb 0 v) eqn:E1; [apply Rltb_iff in E1; split; intros; lra|].
  destruct (Rltb v 0) eqn:E2.
  - apply Rltb_iff in E2. split; intros; lra.
  - assert (~ v < 0) by (intros H; apply Rltb_iff in H; congruence).
    split; intros; lra.
Qed.

(** Entry [j] of [rise_then_fall]: sample [j + 1] lies above both its
    neighbours. *)
Lemma rise_then_fall_spec (y : list R) (j : nat) :
  nth j (rise_then_fall y) false = true <->
  (j + 2 < length y)%nat /\
  nth j y 0 < nth (S j) y 0 /\ nth (S (S j)) y 0 < nth (S j) y 0.
Proof.
  unfold rise_then_fall. rewrite nth_zip_with_andb, andb_true_iff.
  rewrite (nth_map_true _ 0), (nth_map_true _ 0).
  rewrite np_sign_pos_iff, np_sign_neg_iff.
  rewrite length_firstn, nth_firstn.
  assert (Htl : forall l : list R, nth j (tl l) 0 = nth (S j) l 0)
    by (intros [|a l]; [destruct j|]; reflexivity).
  assert (Hlt : forall l : list R, length (tl l) = (length l - 1)%nat)
    by (intros [|a l]; cbn [tl length]; lia).
  rewrite Htl, Hlt, np_diff_length.
  split.
  - intros [[H1 H2] [H3 H4]].
    destruct (Nat.ltb_spec j (length y - 1 - 1)); [|lra].
    rewrite nth_np_diff in H2, H4 by lia.
    split; [lia|]. lra.
  - intros [H1 [H2 H3]].
    destruct (Nat.ltb_spec j (length y - 1 - 1)); [|lia].
    rewrite !nth_np_diff by lia.
    repeat split; try lia; lra.
Qed.

Lemma In_rise_then_fall (y : list R) (i : Z) :
  In i (map (fun i => (i + 1)%Z) (np_where (rise_then_fall y))) <->
  (1 <= i)%Z /\ (i + 1 < len y)%Z /\
  nth (Z.to_nat (i - 1)) y 0 < nth (Z.to_nat i) y 0 /\
  nth (Z.to_nat (i + 1)) y 0 < nth (Z.to_nat i) y 0.
Proof.
  rewrite in_map_iff. unfold len. split.
  - intros (j & <- & Hj). apply In_np_where in Hj. destruct Hj as [Hj0 Hj].
    apply rise_then_fall_spec in Hj. destruct Hj as (Hlen & Hup & Hdown).
    replace (Z.to_nat (j + 1 - 1)) with (Z.to_nat j) by lia.
    replace (Z.to_nat (j + 1)) with (S (Z.to_nat j)) by lia.
    replace (Z.to_nat (j + 1 + 1)) with (S (S (Z.to_nat j))) by lia.
    repeat split; try lia; assumption.
  - intros (H1 & Hlen & Hup & Hdown). exists (i - 1)%Z. split; [lia|].
    apply In_np_where. split; [lia|]. apply rise_then_fall_spec.
    replace (S (Z.to_nat (i - 1))) with (Z.to_nat i) by lia.
    replace (S (Z.to_nat i)) with (Z.to_nat (i + 1)) by lia.
    repeat split; try lia; assumption.
Qed.

Lemma strict_extrema_sorted (b : list bool) :
  StronglySorted Z.lt (map (fun i => (i + 1)%Z) (np_where b)).
Proof.
  pose proof (np_where_sorted b) as H.
  induction H as [|a l Hl IH Ha]; cbn [map]; constructor; [exact IH|].
  apply Forall_forall. intros v Hv. apply in_map_iff in Hv.
  destruct Hv as (w & <- & Hw). rewrite Forall_forall in Ha.
  specialize (Ha w Hw). lia.
Qed.

(** [local_peaks] on a signal without two equal neighbours, and not
    replaced by zeros: nothing is merged, and the extrema are those of
    [peaks] on the signal and on its opposite. *)
Lemma local_peaks_without_plateaus (y : list R) :
  forallb (fun v => Rltb v (1 / 100000)) y = false ->
  Forall (fun d => d <> 0) (np_diff y) ->
  local_peaks y
  = (map (fun i => (i + 1)%Z) (np_where (rise_then_fall (map Ropp y))),
     map (fun i => (i + 1)%Z) (np_where (rise_then_fall y))).
Proof.
  intros Hbig Hdiff.
  assert (Hy : y <> []) by (intros ->; discriminate Hbig).
  assert (Hn : (1 <= length y)%nat)
    by (destruct y; [contradiction|cbn [length]; lia]).
  unfold local_peaks. rewrite Hbig.
  rewrite (transpose_column y Hy). cbn [map]. rewrite transpose_row.
  rewrite map_column, np_where_rows_column.
  rewrite (map_constant (fun d => negb (Reqb d 0)) true).
  2:{ eapply Forall_impl; [|exact Hdiff]. cbn. intros d Hd.
      now rewrite Reqb_false. }
  rewrite np_where_repeat_true, np_diff_length.
  rewrite np_diffZ_range_from.
  rewrite (map_constant (fun d => negb (d =? 1)%Z) false).
  2:{ apply Forall_forall. intros d Hd. apply repeat_spec in Hd. now subst d. }
  rewrite np_where_all_false. cbn [map combine fold_left].
  assert (Hm : (len (map (fun v : R => [v]) y) - 1)%Z
               = (0 + Z.of_nat (length y - 1))%Z).
  { unfold len. rewrite length_map. lia. }
  rewrite Hm, range_from_snoc.
  replace (S (length y - 1)) with (length (map (fun v : R => [v]) y))
    by (rewrite length_map; lia).
  rewrite (map_ext (fun i => nth (Z.to_nat i) (map (fun v : R => [v]) y) [])
                   (fun i => nth (Z.to_nat (i - 0))
                                 (map (fun v : R => [v]) y) []))
    by (intros i; now rewrite Z.sub_0_r).
  rewrite map_nth_range_from.
  destruct (1 <? len (map (fun v : R => [v]) y))%Z eqn:Hlen.
  - rewrite map_column.
    assert (Hy' : map Ropp y <> []) by (destruct y; [contradiction|discriminate]).
    destruct (peaks_column y Hy) as [Hmax Hmaxl].
    destruct (peaks_column (map Ropp y) Hy') as [Hmin Hminl].
    destruct (peaks (map (fun v => [v]) y)) as [pks_max loc_max].
    destruct (peaks (map (fun v => [v]) (map Ropp y))) as [pks_min loc_min].
    cbn [fst snd] in *.
    assert (Hkeep : forall (z : list R) (pks : mat) (loc : list Z),
              length z = length y ->
              loc = map (fun i => (i + 1)%Z) (np_where (rise_then_fall z)) ->
              length pks = length loc ->
              (if (0 <? len pks)%Z
               then map (fun i => nth (Z.to_nat i)
                                      (range_from 0 (length
                                         (map (fun v : R => [v]) y))) 0%Z) loc
               else []) = loc).
    { intros z pks loc Hz Hloc Hpl. unfold len. rewrite Hpl.
      destruct loc as [|i0 loc0] eqn:Eloc; [reflexivity|].
      replace (0 <? Z.of_nat (length (i0 :: loc0)))%Z with true
        by (symmetry; apply Z.ltb_lt; cbn [length]; lia).
      rewrite <- (map_id (i0 :: loc0)) at 2. apply map_ext_in.
      intros i Hi. rewrite Hloc in Hi. apply In_rise_then_fall in Hi.
      destruct Hi as (H1 & H2 & _). unfold len in H2.
      rewrite nth_range_from by (rewrite length_map; lia). lia. }
    rewrite (Hkeep y pks_max loc_max eq_refl Hmax Hmaxl).
    rewrite (Hkeep (map Ropp y) pks_min loc_min (length_map _ _) Hmin Hminl).
    now rewrite Hmax, Hmin.
  - unfold len in Hlen. rewrite length_map in Hlen.
    apply Z.ltb_ge in Hlen.
    destruct y as [|v [|w y]]; [contradiction| |cbn [length] in Hlen; lia].
    reflexivity.
Qed.

Lemma nth_map_Ropp (y : list R) (k : nat) :
  nth k (map Ropp y) 0 = - nth k y 0.
Proof.
  replace 0 with (- 0) at 1 by lra. apply map_nth.
Qed.

(** X8. [local_peaks] on a signal that has a sample of at least [1e-5]
    and no two equal neighbours: the two index arrays are strictly
    increasing, [indmax] holds exactly the interior indices whose sample
    lies above both neighbours and [indmin] those whose sample lies below
    both; the first and the last sample are never extrema. *)
Theorem local_peaks_strict_extrema (y : list R) :
  (exists v, In v y /\ 1 / 100000 <= v) ->
  (forall j, (S j < length y)%nat -> nth j y 0 <> nth (S j) y 0) ->
  StronglySorted Z.lt (fst (local_peaks y)) /\
  StronglySorted Z.lt (snd (local_peaks y)) /\
  forall i,
    (In i (fst (local_peaks y)) <->
     (1 <= i)%Z /\ (i + 1 < len y)%Z /\
     nth (Z.to_nat i) y 0 < nth (Z.to_nat (i - 1)) y 0 /\
     nth (Z.to_nat i) y 0 < nth (Z.to_nat (i + 1)) y 0) /\
    (In i (snd (local_peaks y)) <->
     (1 <= i)%Z /\ (i + 1 < len y)%Z /\
     nth (Z.to_nat (i - 1)) y 0 < nth (Z.to_nat i) y 0 /\
     nth (Z.to_nat (i + 1)) y 0 < nth (Z.to_nat i) y 0).
Proof.
  intros (v & Hv & Hbig) Hneq.
  rewrite local_peaks_without_plateaus.
  - cbn [fst snd]. split; [apply strict_extrema_sorted|].
    split; [apply strict_extrema_sorted|].
    intros i. split; [|apply In_rise_then_fall].
    rewrite In_rise_then_fall. unfold len. rewrite length_map.
    rewrite !nth_map_Ropp.
    split; intros (H1 & H2 & H3 & H4); repeat split; try assumption; lra.
  - destruct (forallb _ y) eqn:E; [|reflexivity].
    rewrite forallb_forall in E. specialize (E v Hv).
    apply Rltb_iff in E. lra.
  - apply Forall_nth. intros j d Hj. rewrite np_diff_length in Hj.
    rewrite (nth_indep _ d 0) by (rewrite np_diff_length; exact Hj).
    rewrite nth_np_diff by lia.
    specialize (Hneq j ltac:(lia)). lra.
Qed.

Lemma local_peaks_strict_extrema_witness :
  StronglySorted Z.lt (fst (local_peaks [5; 7; 5; 7; 5])) /\
  In 2%Z (fst (local_peaks [5; 7; 5; 7; 5])).
Proof.
  assert (Hbig : exists v, In v [5; 7; 5; 7; 5] /\ 1 / 100000 <= v).
  { exists 5. split; [left; reflexivity|lra]. }
  assert (Hneq : forall j, (S j < length [5; 7; 5; 7; 5])%nat ->
                   nth j [5; 7; 5; 7; 5] 0 <> nth (S j) [5; 7; 5; 7; 5] 0).
  { intros j Hj. cbn [length] in Hj.
    destruct j as [|[|[|[|j]]]]; cbn [nth]; try lra; lia. }
  destruct (local_peaks_strict_extrema [5; 7; 5; 7; 5] Hbig Hneq)
    as (Hmin & _ & Hin).
  split; [exact Hmin|].
  apply (proj1 (Hin 2%Z)). unfold len. cbn [length].
  repeat split; try lia;
    change (Z.to_nat 2) with 2%nat; change (Z.to_nat (2 - 1)) with 1%nat;
    change (Z.to_nat (2 + 1)) with 3%nat; cbn [nth]; lra.
Defined.

(** ** Signals too short to have three extrema *)

Lemma local_peaks_four (a b c d : R) :
  let '(indmin, indmax) := local_peaks [a; b; c; d] in
  (len indmin + len indmax < 3)%Z.
Proof.
  destruct (forallb (fun v => Rltb v (1 / 100000)) [a; b; c; d]) eqn:Hbig.
  - rewrite local_peaks_flat by exact Hbig. reflexivity.
  - unfold local_peaks. rewrite Hbig.
    destruct (Rtotal_order (b - a) 0) as [H1|[H1|H1]];
    destruct (Rtotal_order (c - b) 0) as [H2|[H2|H2]];
    destruct (Rtotal_order (d - c) 0) as [H3|[H3|H3]];
    reval; reflexivity.
Qed.

Lemma local_peaks_three (a b c : R) :
  let '(indmin, indmax) := local_peaks [a; b; c] in
  (len indmin + len indmax < 3)%Z.
Proof.
  destruct (forallb (fun v => Rltb v (1 / 100000)) [a; b; c]) eqn:Hbig.
  - rewrite local_peaks_flat by exact Hbig. reflexivity.
  - unfold local_peaks. rewrite Hbig.
    destruct (Rtotal_order (b - a) 0) as [H1|[H1|H1]];
    destruct (Rtotal_order (c - b) 0) as [H2|[H2|H2]];
    reval; reflexivity.
Qed.

Lemma local_peaks_two (a b : R) :
  let '(indmin, indmax) := local_peaks [a; b] in
  (len indmin + len indmax < 3)%Z.
Proof.
  destruct (forallb (fun v => Rltb v (1 / 100000)) [a; b]) eqn:Hbig.
  - rewrite local_peaks_flat by exact Hbig. reflexivity.
  - unfold local_peaks. rewrite Hbig.
    destruct (Rtotal_order (b - a) 0) as [H1|[H1|H1]];
    reval; reflexivity.
Qed.

Lemma local_peaks_one (a : R) :
  let '(indmin, indmax) := local_peaks [a] in
  (len indmin + len indmax < 3)%Z.
Proof.
  destruct (forallb (fun v => Rltb v (1 / 100000)) [a]) eqn:Hbig.
  - rewrite local_peaks_flat by exact Hbig. reflexivity.
  - unfold local_peaks. rewrite Hbig. reflexivity.
Qed.

(** A signal needs five samples to have three extrema. *)
Lemma local_peaks_short (y : list R) :
  (length y <= 4)%nat ->
  (len (fst (local_peaks y)) + len (snd (local_peaks y)) < 3)%Z.
Proof.
  intros Hy.
  destruct y as [|a [|b [|c [|d [|e y]]]]]; [| | | | |cbn [length] in Hy; lia].
  - reflexivity.
  - pose proof (local_peaks_one a) as H.
    destruct (local_peaks [a]); exact H.
  - pose proof (local_peaks_two a b) as H.
    destruct (local_peaks [a; b]); exact H.
  - pose proof (local_peaks_three a b c) as H.
    destruct (local_peaks [a; b; c]); exact H.
  - pose proof (local_peaks_four a b c d) as H.
    destruct (local_peaks [a; b; c; d]); exact H.
Qed.

(** X18. A signal of fewer than five samples cannot show three extrema
    along any direction: [memd] returns it at once as the only array, the
    transposed residue, without a diagnostic - whatever the number of
    channels and the other arguments. *)
Theorem memd_short_input
  (CubicSpline : list Z -> mat -> list Z -> result mat)
  (create_halton_samples : nat -> nat -> mat)
  (zero_run_midpoints : list R -> result (list Z))
  (fuel : nat) (x : mat) (ndir : nat) (maxnIMF : option Z) (stp_crit : string)
  (sd sd2 tol : R) (stp_cnt MaxIterations : Z) :
  (length x <= 4)%nat ->
  memd CubicSpline create_halton_samples zero_run_midpoints fuel x ndir
       maxnIMF stp_crit sd sd2 tol stp_cnt MaxIterations
  = Some ([], Ok [transpose x]).
Proof.
  intros Hx. unfold memd.
  assert (Hstop : forall seq N_dim, stop_emd x seq ndir N_dim = true).
  { intros seq N_dim. rewrite stop_emd_forallb. apply forallb_forall.
    intros it _. unfold direction_failed, extrema_count. apply Z.ltb_lt.
    apply local_peaks_short. unfold projection, np_dot.
    now rewrite length_map. }
  destruct fuel; cbn [memd_loop]; rewrite Hstop; reflexivity.
Qed.

Lemma memd_short_input_witness :
  memd const_spline no_samples no_zero_runs 1 [[0; 3]; [2; 1]; [0; 3]; [2; 1]]
       4 None "stop" (75 / 1000) (75 / 100) (75 / 1000) 2 1000
  = Some ([], Ok [transpose [[0; 3]; [2; 1]; [0; 3]; [2; 1]]]).
Proof.
  apply (memd_short_input const_spline no_samples no_zero_runs 1
           [[0; 3]; [2; 1]; [0; 3]; [2; 1]] 4 None "stop").
  cbn [length]. lia.
Defined.

(** ** Signals that are constant in time *)

Lemma local_peaks_constant (c : R) (n : nat) :
  local_peaks (repeat c n) = ([], []).
Proof.
  destruct (forallb (fun v => Rltb v (1 / 100000)) (repeat c n)) eqn:Hbig;
    [now apply local_peaks_flat|].
  assert (Hy : repeat c n <> []) by (intros E; rewrite E in Hbig; discriminate).
  unfold local_peaks. rewrite Hbig.
  rewrite (transpose_column _ Hy). cbn [map]. rewrite transpose_row.
  rewrite map_column, np_where_rows_column.
  rewrite (map_constant (fun d => negb (Reqb d 0)) false).
  2:{ apply Forall_nth. intros j d Hj. rewrite np_diff_length in Hj.
      rewrite (nth_indep _ d 0) by (rewrite np_diff_length; exact Hj).
      rewrite nth_np_diff by lia.
      rewrite repeat_length in Hj. rewrite !nth_repeat_lt by lia.
      rewrite Reqb_true by lra. reflexivity. }
  rewrite np_where_all_false. reflexivity.
Qed.

(** X19. A signal whose samples are all the same row (every channel
    constant in time) has no extremum along any direction: [memd] returns
    it at once as the only array, the transposed residue, without a
    diagnostic. *)
Theorem memd_constant_in_time
  (CubicSpline : list Z -> mat -> list Z -> result mat)
  (create_halton_samples : nat -> nat -> mat)
  (zero_run_midpoints : list R -> result (list Z))
  (fuel N : nat) (row : list R) (ndir : nat) (maxnIMF : option Z)
  (stp_crit : string) (sd sd2 tol : R) (stp_cnt MaxIterations : Z) :
  memd CubicSpline create_halton_samples zero_run_midpoints fuel
       (repeat row N) ndir maxnIMF stp_crit sd sd2 tol stp_cnt MaxIterations
  = Some ([], Ok [transpose (repeat row N)]).
Proof.
  unfold memd.
  assert (Hstop : forall seq N_dim,
             stop_emd (repeat row N) seq ndir N_dim = true).
  { intros seq N_dim. apply stop_emd_flat. intros d.
    unfold np_dot. rewrite map_repeat. apply local_peaks_constant. }
  destruct fuel; cbn [memd_loop]; rewrite Hstop; reflexivity.
Qed.

(** ** Zero crossings *)

Lemma insert_sorted_perm (v : Z) (l : list Z) :
  Permutation (insert_sorted v l) (v :: l).
Proof.
  induction l as [|a l IH]; cbn [insert_sorted]; [reflexivity|].
  destruct (v <=? a)%Z; [reflexivity|].
  rewrite IH. apply perm_swap.
Qed.

Lemma np_sort_perm (l : list Z) : Permutation (np_sort l) l.
Proof.
  unfold np_sort. induction l as [|a l IH]; cbn [fold_right]; [reflexivity|].
  rewrite insert_sorted_perm. now constructor.
Qed.

Lemma insert_sorted_sorted (v : Z) (l : list Z) :
  StronglySorted Z.le l -> StronglySorted Z.le (insert_sorted v l).
Proof.
  induction 1 as [|a l Hl IH Ha]; cbn [insert_sorted].
  - constructor; constructor.
  - destruct (Z.leb_spec v a) as [Hva|Hva].
    + constructor; [constructor; assumption|].
      constructor; [exact Hva|].
      eapply Forall_impl; [|exact Ha]. cbn. intros; lia.
    + constructor; [exact IH|].
      rewrite (Forall_forall). intros w Hw.
      apply (Permutation_in _ (insert_sorted_perm v l)) in Hw.
      destruct Hw as [<-|Hw]; [lia|].
      rewrite Forall_forall in Ha. apply Ha, Hw.
Qed.

Lemma np_sort_sorted (l : list Z) : StronglySorted Z.le (np_sort l).
Proof.
  unfold np_sort. induction l as [|a l IH]; cbn [fold_right]; [constructor|].
  apply insert_sorted_sorted, IH.
Qed.

Lemma sorted_NoDup (l : list Z) : StronglySorted Z.lt l -> NoDup l.
Proof.
  induction 1 as [|a l Hl IH Ha]; constructor; [|exact IH].
  intros Hin. rewrite Forall_forall in Ha. specialize (Ha a Hin). lia.
Qed.

Lemma sorted_le_NoDup (l : list Z) :
  StronglySorted Z.le l -> NoDup l -> StronglySorted Z.lt l.
Proof.
  induction 1 as [|a l Hl IH Ha]; intros Hnd; [constructor|].
  inversion Hnd as [|? ? Hnotin Hnd']; subst.
  constructor; [apply IH, Hnd'|].
  rewrite Forall_forall in *. intros w Hw. specialize (Ha w Hw).
  assert (w <> a) by (intros ->; contradiction). lia.
Qed.

Lemma In_np_diffZ (l : list Z) (d : Z) :
  In d (np_diffZ l) -> exists a b, In a l /\ In b l /\ d = (b - a)%Z.
Proof.
  unfold np_diffZ. destruct l as [|a l]; [intros []|]. revert a.
  induction l as [|b l IH]; intros a; cbn [tl zip_with]; [intros []|].
  intros [<-|Hd].
  - exists a, b. cbn [In]. auto.
  - destruct (IH b Hd) as (u & w & Hu & Hw & ->).
    exists u, w. cbn [In] in *. auto.
Qed.

Lemma zip_with_firstn {A B C : Type} (f : A -> B -> C) (l : list A) :
  forall l' : list B, zip_with f (firstn (length l') l) l' = zip_with f l l'.
Proof.
  induction l as [|a l IH]; intros [|b l']; try reflexivity.
  cbn [length firstn zip_with]. now rewrite IH.
Qed.

Lemma neighbour_products_length (x : list R) :
  length (zip_with Rmult x (tl x)) = (length x - 1)%nat.
Proof.
  destruct x as [|a x]; [reflexivity|]. revert a.
  induction x as [|b x IH]; intros a; [reflexivity|].
  cbn [tl zip_with length] in *. rewrite IH. lia.
Qed.

Lemma nth_neighbour_products (x : list R) :
  forall j, (S j < length x)%nat ->
    nth j (zip_with Rmult x (tl x)) 0 = nth j x 0 * nth (S j) x 0.
Proof.
  destruct x as [|a x]; [intros j Hj; cbn in Hj; lia|]. revert a.
  induction x as [|b x IH]; intros a j Hj; [cbn in Hj; lia|].
  destruct j as [|j]; [reflexivity|].
  cbn [tl zip_with nth] in *. rewrite IH by (cbn [length] in *; lia).
  reflexivity.
Qed.

Lemma Reqb_iff (a b : R) : Reqb a b = true <-> a = b.
Proof. unfold Reqb. destruct (Req_dec_T a b); split; auto; discriminate. Qed.

(** The sign changes between neighbours: the array [indzer]. *)
Lemma In_sign_changes (x : list R) (i : Z) :
  In i (np_where (map (fun p => Rltb p 0)
                      (zip_with Rmult (slice x 0 (-1)) (slice_from x 1)))) <->
  (0 <= i)%Z /\ (i + 1 < len x)%Z /\
  nth (Z.to_nat i) x 0 * nth (Z.to_nat (i + 1)) x 0 < 0.
Proof.
  change (slice x 0 (-1)) with (slice_to x (-1)).
  rewrite slice_to_last, slice_from_1.
  assert (Htl : length (tl x) = (length x - 1)%nat)
    by (destruct x; cbn [tl length]; lia).
  rewrite <- Htl, zip_with_firstn.
  rewrite In_np_where, (nth_map_true _ 0), neighbour_products_length, Rltb_iff.
  unfold len. split.
  - intros (H0 & Hlen & Hneg).
    rewrite nth_neighbour_products in Hneg by lia.
    replace (Z.to_nat (i + 1)) with (S (Z.to_nat i)) by lia.
    repeat split; try lia. exact Hneg.
  - intros (H0 & Hlen & Hneg).
    rewrite nth_neighbour_products by lia.
    replace (Z.to_nat (i + 1)) with (S (Z.to_nat i)) in Hneg by lia.
    repeat split; try lia. exact Hneg.
Qed.

(** The exact zeros: the array [iz]. *)
Lemma In_zeros (x : list R) (i : Z) :
  In i (np_where (map (fun v => Reqb v 0) x)) <->
  (0 <= i)%Z /\ (i < len x)%Z /\ nth (Z.to_nat i) x 0 = 0.
Proof.
  rewrite In_np_where, (nth_map_true _ 0), Reqb_iff. unfold len.
  split; intros (H0 & H1 & H2); repeat split; try lia; exact H2.
Qed.

Section ZeroCrossings.

Variable zero_run_midpoints : list R -> result (list Z).

(** X7. [zero_crossings] on a signal in which no two neighbouring samples
    are both exactly zero: the function returns without consulting the
    numpy call whose outcome depends on the release, and the result is the
    strictly increasing list of the indices [i] at which the sample is zero
    or the signal changes sign between [i] and [i + 1]. *)
Theorem zero_crossings_without_zero_runs (x : list R) :
  (forall j, (S j < length x)%nat ->
     ~ (nth j x 0 = 0 /\ nth (S j) x 0 = 0)) ->
  exists l,
    zero_crossings zero_run_midpoints x = Ok l /\
    StronglySorted Z.lt l /\
    forall i, In i l <->
      (0 <= i < len x)%Z /\
      (nth (Z.to_nat i) x 0 = 0 \/
       ((i + 1 < len x)%Z /\
        nth (Z.to_nat i) x 0 * nth (Z.to_nat (i + 1)) x 0 < 0)).
Proof.
  intros Hruns. unfold zero_crossings.
  set (indzer := np_where (map (fun p => Rltb p 0)
                    (zip_with Rmult (slice x 0 (-1)) (slice_from x 1)))).
  set (iz := np_where (map (fun v => Reqb v 0) x)).
  assert (Hzer : forall i, In i indzer <->
            (0 <= i)%Z /\ (i + 1 < len x)%Z /\
            nth (Z.to_nat i) x 0 * nth (Z.to_nat (i + 1)) x 0 < 0)
    by (intros i; apply In_sign_changes).
  assert (Hiz : forall i, In i iz <->
            (0 <= i)%Z /\ (i < len x)%Z /\ nth (Z.to_nat i) x 0 = 0)
    by (intros i; apply In_zeros).
  destruct (existsb (fun v => Reqb v 0) x) eqn:Hex.
  - assert (Hno : existsb (fun d => (d =? 1)%Z) (np_diffZ iz) = false).
    { destruct (existsb _ (np_diffZ iz)) eqn:E; [exfalso|reflexivity].
      apply existsb_exists in E. destruct E as (d & Hd & Hd1).
      apply Z.eqb_eq in Hd1. subst d.
      apply In_np_diffZ in Hd. destruct Hd as (a & b & Ha & Hb & Hab).
      apply Hiz in Ha, Hb. destruct Ha as (Ha0 & Ha1 & Ha2).
      destruct Hb as (Hb0 & Hb1 & Hb2). unfold len in *.
      apply (Hruns (Z.to_nat a)); [lia|].
      split; [exact Ha2|].
      replace (S (Z.to_nat a)) with (Z.to_nat b) by lia. exact Hb2. }
    rewrite Hno. cbn [bind]. eexists. split; [reflexivity|].
    assert (Hin : forall i, In i (np_sort (indzer ++ iz)) <->
                            In i indzer \/ In i iz).
    { intros i. rewrite <- in_app_iff. split; apply Permutation_in;
        [|symmetry]; apply np_sort_perm. }
    split.
    + apply sorted_le_NoDup; [apply np_sort_sorted|].
      apply (Permutation_NoDup (Permutation_sym (np_sort_perm _))).
      apply NoDup_app.
      * apply sorted_NoDup, np_where_sorted.
      * apply sorted_NoDup, np_where_sorted.
      * intros i Hi Hi'. apply Hzer in Hi. apply Hiz in Hi'.
        destruct Hi as (_ & _ & Hneg). destruct Hi' as (_ & _ & Hz).
        rewrite Hz in Hneg. lra.
    + intros i. rewrite Hin, Hzer, Hiz. split.
      * intros [(H0 & H1 & H2)|(H0 & H1 & H2)]; (split; [lia|]);
          [right|left]; auto.
      * intros [[H0 H1] [H2|[H2 H3]]]; [right|left]; auto.
  - eexists. split; [reflexivity|]. split; [apply np_where_sorted|].
    intros i. rewrite Hzer. split.
    + intros (H0 & H1 & H2). split; [lia|]. right. auto.
    + intros [[H0 H1] [H2|[H2 H3]]]; [exfalso|auto].
      assert (Hz : existsb (fun v => Reqb v 0) x = true); [|congruence].
      apply existsb_exists. exists (nth (Z.to_nat i) x 0). split.
      * apply nth_In. unfold len in H1. lia.
      * now apply Reqb_iff.
Qed.

End ZeroCrossings.

(** ** Boundary extender *)

Lemma take_length {A : Type} (l : list A) (idx : list Z) (out : list A) :
  take l idx = Ok out -> length out = length idx.
Proof.
  unfold take. revert out. induction idx as [|i idx IH]; intros out H.
  - now injection H as <-.
  - rewrite mapM_step in H.
    apply bind_Ok_inv in H. destruct H as (a & Ha & H).
    apply bind_Ok_inv in H. destruct H as (bs & Hbs & H).
    injection H as <-. cbn [length]. f_equal. now apply IH.
Qed.

Lemma mirror_about_length (t : list Z) (sym : Z) (idx out : list Z) :
  mirror_about t sym idx = Ok out -> length out = length idx.
Proof.
  unfold mirror_about. intros H.
  apply bind_Ok_inv in H. destruct H as (ts & _ & H).
  apply bind_Ok_inv in H. destruct H as (ti & Hti & H).
  injection H as <-. rewrite length_map. eapply take_length, Hti.
Qed.

Tactic Notation "inv_bind" hyp(E) "as" simple_intropattern(v) ident(Hv) :=
  apply bind_Ok_inv in E; destruct E as (v & Hv & E).

Lemma rev_slice_to_nonempty (l : list Z) (nbsym : Z) :
  l <> [] -> (1 <= nbsym)%Z ->
  rev (slice_to l (Z.min (len l - 1 + 1) nbsym)) <> [].
Proof.
  intros Hl Hnb. destruct l as [|a l]; [contradiction|].
  unfold slice_to, slice, slice_bound, len. cbn [length].
  replace (0 <? 0)%Z with false by reflexivity.
  destruct (Z.ltb_spec (Z.min (Z.of_nat (S (length l)) - 1 + 1) nbsym) 0);
    [lia|].
  rewrite Z.min_l by lia. cbn [Z.to_nat skipn].
  set (k := Z.to_nat _). assert (Hk : (1 <= k)%nat) by (subst k; lia).
  destruct k as [|k]; [lia|]. cbn [firstn rev].
  intros E. apply app_eq_nil in E. destruct E as [_ E]. discriminate E.
Qed.

Lemma rev_slice_from_nonempty (l : list Z) (nbsym : Z) :
  l <> [] -> (1 <= nbsym)%Z ->
  rev (slice_from l (Z.max (len l - 1 - nbsym + 1) 0)) <> [].
Proof.
  intros Hl Hnb. unfold slice_from, slice, slice_bound.
  assert (Hn : (1 <= len l)%Z)
    by (unfold len; destruct l; [contradiction|cbn [length]; lia]).
  destruct (Z.ltb_spec (Z.max (len l - 1 - nbsym + 1) 0) 0); [lia|].
  destruct (Z.ltb_spec (len l) 0); [lia|].
  rewrite Z.min_id.
  set (a := Z.min _ _). assert (Ha : (0 <= a < len l)%Z) by (subst a; lia).
  intros E. apply (f_equal (@length Z)) in E.
  rewrite length_rev, length_firstn, length_skipn in E.
  unfold len in *. cbn [length] in E. lia.
Qed.

(** The extended knots and the extended values of [boundary_conditions],
    piece by piece: what is mirrored on each side, after the two
    [if ... : lsym = 0 / rsym = lx] corrections. *)
Lemma boundary_conditions_pieces
  (indmin indmax t : list Z) (x : list R) (z : mat) (nbsym : Z)
  (tmin tmax : list Z) (zmin zmax : mat) :
  boundary_conditions indmin indmax t x z nbsym
  = Ok (Some (tmin, tmax, zmin, zmax)) ->
  exists (lmin lmax rmin rmax : list Z) (lsym rsym : Z)
         (tlmin tlmax trmin trmax tmid_min tmid_max : list Z)
         (zlmin zlmax zrmin zrmax zmid_min zmid_max : mat),
    mirror_about t lsym lmin = Ok tlmin /\
    mirror_about t lsym lmax = Ok tlmax /\
    mirror_about t rsym rmin = Ok trmin /\
    mirror_about t rsym rmax = Ok trmax /\
    take z lmin = Ok zlmin /\ take z lmax = Ok zlmax /\
    take z rmin = Ok zrmin /\ take z rmax = Ok zrmax /\
    take t indmin = Ok tmid_min /\ take t indmax = Ok tmid_max /\
    take z indmin = Ok zmid_min /\ take z indmax = Ok zmid_max /\
    tmin = tlmin ++ tmid_min ++ trmin /\
    tmax = tlmax ++ tmid_max ++ trmax /\
    zmin = zlmin ++ zmid_min ++ zrmin /\
    zmax = zlmax ++ zmid_max ++ zrmax /\
    (exists t0, getitem t 0 = Ok t0 /\
       ((exists a b, getitem tlmin 0 = Ok a /\ getitem tlmax 0 = Ok b /\
                     (a <= t0)%Z /\ (b <= t0)%Z) \/
        (lsym = 0%Z /\ ((1 <= nbsym)%Z -> lmin <> [] /\ lmax <> [])))) /\
    (exists tL, getitem t (len x - 1) = Ok tL /\
       ((exists a b, getitem trmin (-1) = Ok a /\ getitem trmax (-1) = Ok b /\
                     (tL <= a)%Z /\ (tL <= b)%Z) \/
        (rsym = (len x - 1)%Z /\
         ((1 <= nbsym)%Z -> rmin <> [] /\ rmax <> [])))).
Proof.
  intros E. unfold boundary_conditions in E.
  destruct (len indmin + len indmax <? 3)%Z; [discriminate|].
  cbv zeta in E.
  inv_bind E as indmax0 Himax. inv_bind E as indmin0 Himin.
  inv_bind E as x0 Hx0. inv_bind E as [[lmax lmin] lsym] Hleft.
  inv_bind E as indmaxL HimaxL. inv_bind E as indminL HiminL.
  inv_bind E as xL HxL. inv_bind E as [[rmax rmin] rsym] Hright.
  inv_bind E as tlmin Htlmin. inv_bind E as tlmax Htlmax.
  inv_bind E as trmin Htrmin. inv_bind E as trmax Htrmax.
  inv_bind E as t0 Ht0. inv_bind E as short_left Hsl.
  inv_bind E as [[[lmax' lmin'] tlmin'] tlmax'] Hfl.
  inv_bind E as tlx Htlx. inv_bind E as short_right Hsr.
  inv_bind E as [[[rmax' rmin'] trmin'] trmax'] Hfr.
  inv_bind E as zlmax Hzlmax. inv_bind E as zlmin Hzlmin.
  inv_bind E as zrmax Hzrmax. inv_bind E as zrmin Hzrmin.
  inv_bind E as tmid_min Htmin. inv_bind E as tmid_max Htmax.
  inv_bind E as zmid_min Hzmin. inv_bind E as zmid_max Hzmax.
  injection E as <- <- <- <-.
  assert (Hnemax : indmax <> []) by (eapply getitem_nonempty, Himax).
  assert (Hnemin : indmin <> []) by (eapply getitem_nonempty, Himin).
  assert (Hl : exists lsym',
             mirror_about t lsym' lmin' = Ok tlmin' /\
             mirror_about t lsym' lmax' = Ok tlmax' /\
             ((exists a b, getitem tlmin' 0 = Ok a /\ getitem tlmax' 0 = Ok b /\
                           (a <= t0)%Z /\ (b <= t0)%Z) \/
              (lsym' = 0%Z /\
               ((1 <= nbsym)%Z -> lmin' <> [] /\ lmax' <> [])))).
  { destruct short_left.
    - destruct (lsym =? 1)%Z; [discriminate|].
      inv_bind Hfl as a Ha. inv_bind Hfl as b Hb.
      injection Hfl as <- <- <- <-.
      exists 0%Z. split; [assumption|]. split; [assumption|].
      right. split; [reflexivity|]. intros Hnb.
      inv_bind Hsl as a0 Ha0. apply getitem_nonempty in Ha0.
      assert (Hlmin : lmin <> []).
      { intros ->. apply mirror_about_length in Htlmin.
        destruct tlmin; [contradiction|discriminate]. }
      destruct (lsym =? indmax0)%Z eqn:Hsym.
      + split; [exact Hlmin|]. now apply rev_slice_to_nonempty.
      + split; [now apply rev_slice_to_nonempty|].
        apply Z.eqb_neq in Hsym.
        destruct (indmax0 <? indmin0)%Z.
        * inv_bind Hleft as xm Hxm. destruct (Rltb xm x0);
            injection Hleft as <- <- <-; [contradiction|].
          now apply rev_slice_to_nonempty.
        * inv_bind Hleft as xM HxM. destruct (Rltb x0 xM);
            injection Hleft as <- <- <-.
          -- now apply rev_slice_to_nonempty.
          -- intros Happ. apply app_eq_nil in Happ. destruct Happ as [_ Happ].
             discriminate Happ.
    - injection Hfl as <- <- <- <-. exists lsym.
      split; [assumption|]. split; [assumption|]. left.
      inv_bind Hsl as a Ha. destruct (Z.ltb_spec t0 a); [discriminate|].
      inv_bind Hsl as b Hb. injection Hsl as Hsl.
      apply Z.ltb_ge in Hsl. exists a, b. auto. }
  assert (Hr : exists rsym',
             mirror_about t rsym' rmin' = Ok trmin' /\
             mirror_about t rsym' rmax' = Ok trmax' /\
             ((exists a b, getitem trmin' (-1) = Ok a /\
                           getitem trmax' (-1) = Ok b /\
                           (tlx <= a)%Z /\ (tlx <= b)%Z) \/
              (rsym' = (len x - 1)%Z /\
               ((1 <= nbsym)%Z -> rmin' <> [] /\ rmax' <> [])))).
  { destruct short_right.
    - destruct (rsym =? len x - 1)%Z; [discriminate|].
      inv_bind Hfr as a Ha. inv_bind Hfr as b Hb.
      injection Hfr as <- <- <- <-.
      exists (len x - 1)%Z. split; [assumption|]. split; [assumption|].
      right. split; [reflexivity|]. intros Hnb.
      inv_bind Hsr as a0 Ha0. apply getitem_nonempty in Ha0.
      assert (Hrmin : rmin <> []).
      { intros ->. apply mirror_about_length in Htrmin.
        destruct trmin; [contradiction|discriminate]. }
      destruct (rsym =? indmaxL)%Z eqn:Hsym.
      + split; [exact Hrmin|]. now apply rev_slice_from_nonempty.
      + split; [now apply rev_slice_from_nonempty|].
        apply Z.eqb_neq in Hsym.
        destruct (indmaxL <? indminL)%Z.
        * inv_bind Hright as xM HxM. destruct (Rltb xL xM);
            injection Hright as <- <- <-.
          -- now apply rev_slice_from_nonempty.
          -- discriminate.
        * inv_bind Hright as xm Hxm. destruct (Rltb xm xL);
            injection Hright as <- <- <-; [contradiction|].
          now apply rev_slice_from_nonempty.
    - injection Hfr as <- <- <- <-. exists rsym.
      split; [assumption|]. split; [assumption|]. left.
      inv_bind Hsr as a Ha. destruct (Z.ltb_spec a tlx); [discriminate|].
      inv_bind Hsr as b Hb. injection Hsr as Hsr.
      apply Z.ltb_ge in Hsr. exists a, b. auto. }
  destruct Hl as (lsym' & Hl1 & Hl2 & Hl3).
  destruct Hr as (rsym' & Hr1 & Hr2 & Hr3).
  exists lmin', lmax', rmin', rmax', lsym', rsym', tlmin', tlmax', trmin',
         trmax', tmid_min, tmid_max, zlmin, zlmax, zrmin, zrmax, zmid_min,
         zmid_max.
  repeat (split; [assumption || reflexivity|]).
  split; [exists t0|exists tlx]; split; assumption.
Qed.

(** X9. Whenever [boundary_conditions] returns extended arrays, each
    extended axis has as many knots as the extended values it goes with
    have rows ([tmin] with [zmin], [tmax] with [zmax]), and no fewer than
    the extrema it was given. *)
Theorem boundary_conditions_knots_match_values
  (indmin indmax t : list Z) (x : list R) (z : mat) (nbsym : Z)
  (tmin tmax : list Z) (zmin zmax : mat) :
  boundary_conditions indmin indmax t x z nbsym
  = Ok (Some (tmin, tmax, zmin, zmax)) ->
  length tmin = length zmin /\ length tmax = length zmax /\
  (length indmin <= length tmin)%nat /\ (length indmax <= length tmax)%nat.
Proof.
  intros E. apply boundary_conditions_pieces in E.
  destruct E as (lmin & lmax & rmin & rmax & lsym & rsym & tlmin & tlmax &
                 trmin & trmax & tmid_min & tmid_max & zlmin & zlmax &
                 zrmin & zrmax & zmid_min & zmid_max & H).
  destruct H as (H1 & H2 & H3 & H4 & H5 & H6 & H7 & H8 & H9 & H10 & H11 &
                 H12 & -> & -> & -> & -> & _).
  apply mirror_about_length in H1, H2, H3, H4.
  apply take_length in H5, H6, H7, H8, H9, H10, H11, H12.
  rewrite !length_app. lia.
Qed.

Lemma Ok_inj {A : Type} (a b : A) : Ok a = Ok b -> a = b.
Proof. intros H. now injection H. Qed.

Lemma getitem_0_hd {A : Type} (l : list A) (a d : A) :
  getitem l 0 = Ok a -> hd d l = a.
Proof.
  unfold getitem. cbn [Z.ltb Z.compare Z.to_nat].
  destruct l as [|b l]; cbn [nth_error hd]; [discriminate|].
  intros H. now injection H as ->.
Qed.

Lemma nth_error_last {A : Type} (l : list A) (a d : A) :
  nth_error l (length l - 1) = Some a -> last l d = a.
Proof.
  induction l as [|b l IH]; [discriminate|].
  destruct l as [|c l]; [cbn; intros H; now injection H as ->|].
  cbn [length Nat.sub] in *. rewrite Nat.sub_0_r in IH.
  intros H. cbn [nth_error] in H. apply IH in H. exact H.
Qed.

Lemma getitem_last {A : Type} (l : list A) (a d : A) :
  getitem l (-1) = Ok a -> last l d = a.
Proof.
  unfold getitem. cbn [Z.ltb Z.compare].
  destruct (-1 + len l <? 0)%Z eqn:E; [discriminate|].
  destruct (nth_error l (Z.to_nat (-1 + len l))) eqn:En; [|discriminate].
  intros H. injection H as <-. apply nth_error_last.
  rewrite <- En. f_equal. unfold len. lia.
Qed.

Lemma getitem_end {A : Type} (l : list A) (n : Z) (a d : A) :
  len l = n -> getitem l (n - 1) = Ok a -> last l d = a.
Proof.
  intros Hn. unfold getitem.
  destruct (n - 1 <? 0)%Z eqn:E.
  - destruct (n - 1 + len l <? 0)%Z; [discriminate|].
    destruct (nth_error l (Z.to_nat (n - 1 + len l))) eqn:En; [|discriminate].
    apply Z.ltb_lt in E. assert (l = []).
    { destruct l; [reflexivity|]. unfold len in Hn. cbn [length] in Hn. lia. }
    subst l. destruct (Z.to_nat _); discriminate En.
  - rewrite E.
    destruct (nth_error l (Z.to_nat (n - 1))) eqn:En; [|discriminate].
    intros H. injection H as <-. apply nth_error_last.
    rewrite <- En. f_equal. unfold len in Hn. lia.
Qed.

Lemma last_In {A : Type} (l : list A) (d : A) : l <> [] -> In (last l d) l.
Proof.
  intros Hl. destruct (exists_last Hl) as (l0 & a & ->).
  rewrite last_last. apply in_or_app. right. left. reflexivity.
Qed.

Lemma sorted_between (t : list Z) (v : Z) :
  StronglySorted Z.le t -> In v t -> (hd 0 t <= v <= last t 0)%Z.
Proof.
  intros Ht Hv. split.
  - destruct Ht as [|a t Ht Ha]; [contradiction|]. cbn [hd].
    destruct Hv as [<-|Hv]; [lia|].
    rewrite Forall_forall in Ha. now apply Ha.
  - induction Ht as [|a t Ht IH Ha]; [contradiction|].
    destruct t as [|b t]; [destruct Hv as [<-|[]]; cbn; lia|].
    change (last (a :: b :: t) 0%Z) with (last (b :: t) 0%Z).
    destruct Hv as [<-|Hv]; [|now apply IH].
    rewrite Forall_forall in Ha. apply Ha, last_In. discriminate.
Qed.

Lemma take_In {A : Type} (l : list A) (idx : list Z) (out : list A) :
  take l idx = Ok out -> forall a, In a out -> In a l.
Proof.
  intros H. apply Forall_forall.
  apply (take_Forall (fun a => In a l) l idx out); [|exact H].
  apply Forall_forall. auto.
Qed.

Lemma last_app_nonempty {A : Type} (l l' : list A) (d : A) :
  l' <> [] -> last (l ++ l') d = last l' d.
Proof.
  intros Hl'. destruct (exists_last Hl') as (l0 & a & ->).
  now rewrite app_assoc, !last_last.
Qed.

(** The extended axes reach the edges of the axis, whichever way the
    mirrored knots were obtained. *)
Lemma boundary_conditions_edges
  (indmin indmax t : list Z) (x : list R) (z : mat) (nbsym : Z)
  (tmin tmax : list Z) (zmin zmax : mat) :
  StronglySorted Z.le t -> length t = length x -> (1 <= nbsym)%Z ->
  boundary_conditions indmin indmax t x z nbsym
  = Ok (Some (tmin, tmax, zmin, zmax)) ->
  (hd 0 tmin <= hd 0 t)%Z /\ (hd 0 tmax <= hd 0 t)%Z /\
  (last t 0 <= last tmin 0)%Z /\ (last t 0 <= last tmax 0)%Z.
Proof.
  intros Hsorted Hlen Hnb E. apply boundary_conditions_pieces in E.
  destruct E as (lmin & lmax & rmin & rmax & lsym & rsym & tlmin & tlmax &
                 trmin & trmax & tmid_min & tmid_max & zlmin & zlmax &
                 zrmin & zrmax & zmid_min & zmid_max & H).
  destruct H as (H1 & H2 & H3 & H4 & _ & _ & _ & _ & _ & _ & _ & _ &
                 -> & -> & _ & _ & Hleft & Hright).
  destruct Hleft as (t0 & Ht0 & Hleft).
  destruct Hright as (tL & HtL & Hright).
  rewrite (getitem_0_hd t t0 0%Z Ht0).
  rewrite (getitem_end t (len x) tL 0%Z) by
    (unfold len; try (f_equal; exact Hlen); exact HtL).
  assert (Hmirror_left : forall idx out,
            idx <> [] -> mirror_about t 0 idx = Ok out ->
            out <> [] /\ (hd 0 out <= t0)%Z).
  { intros idx out Hidx Hm. pose proof (mirror_about_length _ _ _ _ Hm) as Hl.
    unfold mirror_about in Hm.
    apply bind_Ok_inv in Hm. destruct Hm as (ts & Hts & Hm).
    rewrite Ht0 in Hts. injection Hts as <-.
    apply bind_Ok_inv in Hm. destruct Hm as (ti & Hti & Hm).
    apply Ok_inj in Hm. subst out.
    destruct ti as [|v ti]; [destruct idx; [contradiction|discriminate Hl]|].
    split; [discriminate|]. cbn [map hd].
    pose proof (sorted_between t v Hsorted
                  (take_In _ _ _ Hti v (or_introl eq_refl))) as Hv.
    rewrite (getitem_0_hd t t0 0%Z Ht0) in Hv. lia. }
  assert (Hmirror_right : forall idx out,
            idx <> [] -> mirror_about t (len x - 1) idx = Ok out ->
            out <> [] /\ (tL <= last out 0)%Z).
  { intros idx out Hidx Hm. pose proof (mirror_about_length _ _ _ _ Hm) as Hl.
    unfold mirror_about in Hm.
    apply bind_Ok_inv in Hm. destruct Hm as (ts & Hts & Hm).
    rewrite HtL in Hts. injection Hts as <-.
    apply bind_Ok_inv in Hm. destruct Hm as (ti & Hti & Hm).
    apply Ok_inj in Hm. subst out.
    assert (Hti' : ti <> [])
      by (intros ->; destruct idx; [contradiction|discriminate Hl]).
    split; [destruct ti; [contradiction|discriminate]|].
    destruct (exists_last Hti') as (ti0 & v & ->).
    rewrite map_app. cbn [map]. rewrite last_last.
    assert (Hin : In v (ti0 ++ [v]))
      by (apply in_or_app; right; left; reflexivity).
    pose proof (sorted_between t v Hsorted (take_In _ _ _ Hti v Hin)) as Hv.
    rewrite (getitem_end t (len x) tL 0%Z) in Hv by
      (unfold len; try (f_equal; exact Hlen); exact HtL).
    lia. }
  assert (Hhd : forall (l l' : list Z), l <> [] -> hd 0%Z (l ++ l') = hd 0%Z l)
    by (intros [|a l] l' Hl; [contradiction|reflexivity]).
  assert (HL : (tlmin <> [] /\ (hd 0 tlmin <= t0)%Z) /\
               (tlmax <> [] /\ (hd 0 tlmax <= t0)%Z)).
  { destruct Hleft as [(a & b & Ha & Hb & Hat & Hbt)|(-> & Hne)].
    - rewrite (getitem_0_hd _ _ 0%Z Ha), (getitem_0_hd _ _ 0%Z Hb).
      apply getitem_nonempty in Ha, Hb. auto.
    - destruct (Hne Hnb) as [Hn1 Hn2].
      split; [exact (Hmirror_left lmin tlmin Hn1 H1)
             |exact (Hmirror_left lmax tlmax Hn2 H2)]. }
  assert (HR : (trmin <> [] /\ (tL <= last trmin 0)%Z) /\
               (trmax <> [] /\ (tL <= last trmax 0)%Z)).
  { destruct Hright as [(a & b & Ha & Hb & Hat & Hbt)|(-> & Hne)].
    - rewrite (getitem_last _ _ 0%Z Ha), (getitem_last _ _ 0%Z Hb).
      apply getitem_nonempty in Ha, Hb. auto.
    - destruct (Hne Hnb) as [Hn1 Hn2].
      split; [exact (Hmirror_right rmin trmin Hn1 H3)
             |exact (Hmirror_right rmax trmax Hn2 H4)]. }
  destruct HL as [[Hl1 Hl2] [Hl3 Hl4]]. destruct HR as [[Hr1 Hr2] [Hr3 Hr4]].
  rewrite !Hhd by assumption.
  rewrite !app_assoc, !last_app_nonempty by assumption.
  auto.
Qed.

(** X10. Whenever [boundary_conditions] returns extended arrays for an
    axis [t] in increasing order, of the length of the signal, with
    [nbsym >= 1]: both extended axes start at or before the first sample
    time and end at or after the last one, also when the correction for a
    mirror image that is too short has been applied. *)
Theorem boundary_conditions_reaches_edges
  (indmin indmax t : list Z) (x : list R) (z : mat) (nbsym : Z)
  (tmin tmax : list Z) (zmin zmax : mat) :
  StronglySorted Z.le t -> length t = length x -> (1 <= nbsym)%Z ->
  boundary_conditions indmin indmax t x z nbsym
  = Ok (Some (tmin, tmax, zmin, zmax)) ->
  (hd 0 tmin <= hd 0 t)%Z /\ (hd 0 tmax <= hd 0 t)%Z /\
  (last t 0 <= last tmin 0)%Z /\ (last t 0 <= last tmax 0)%Z.
Proof.
  intros Hsorted Hlen Hnb E.
  exact (boundary_conditions_edges indmin indmax t x z nbsym tmin tmax zmin
           zmax Hsorted Hlen Hnb E).
Qed.

(** ** One channel: the sampler does not matter *)

Section SingleChannel.

Variable CubicSpline : list Z -> mat -> list Z -> result mat.
Variable zero_run_midpoints : list R -> result (list Z).

Lemma envelope_step_single (m : mat) (t : list Z) (seq seq' : mat)
  (s : env_acc) (it : nat) (v : R) :
  acc_dir_vec s = [v] ->
  envelope_step CubicSpline zero_run_midpoints m t seq 1 s it
  = envelope_step CubicSpline zero_run_midpoints m t seq' 1 s it /\
  forall s', envelope_step CubicSpline zero_run_midpoints m t seq 1 s it
             = Ok s' -> acc_dir_vec s' = [1].
Proof.
  intros Hdv. unfold envelope_step. rewrite Hdv, !next_dir_vec_1d.
  split; [reflexivity|]. intros s' H.
  destruct (local_peaks (np_dot m [1])) as [indmin indmax].
  apply bind_Ok_inv in H. destruct H as (iz & _ & H).
  apply bind_Ok_inv in H. destruct H as (bc & _ & H).
  destruct bc as [[[[tmin tmax] zmin] zmax]|].
  - apply bind_Ok_inv in H. destruct H as (env_min & _ & H).
    apply bind_Ok_inv in H. destruct H as (env_max & _ & H).
    now injection H as <-.
  - now injection H as <-.
Qed.

Lemma envelope_loop_single (m : mat) (t : list Z) (seq seq' : mat)
  (its : list nat) :
  forall (s : env_acc) (v : R),
    acc_dir_vec s = [v] ->
    envelope_loop CubicSpline zero_run_midpoints m t seq 1 its s
    = envelope_loop CubicSpline zero_run_midpoints m t seq' 1 its s.
Proof.
  induction its as [|it its IH]; intros s v Hdv; [reflexivity|].
  cbn [envelope_loop].
  destruct (envelope_step_single m t seq seq' s it v Hdv) as [Heq Hnext].
  rewrite <- Heq.
  destruct (envelope_step CubicSpline zero_run_midpoints m t seq 1 s it)
    as [s'|e] eqn:E; [|reflexivity].
  cbn [bind]. apply (IH s' 1). now apply Hnext.
Qed.

Lemma envelope_mean_single (m : mat) (t : list Z) (seq seq' : mat)
  (ndir N : nat) :
  envelope_mean CubicSpline zero_run_midpoints m t seq ndir N 1
  = envelope_mean CubicSpline zero_run_midpoints m t seq' ndir N 1.
Proof.
  unfold envelope_mean.
  now rewrite (envelope_loop_single m t seq seq' (List.seq 0 ndir) _ 0).
Qed.

Lemma dir_vec_before_single (seq : mat) (it : nat) :
  exists v, dir_vec_before seq 1 it = [v].
Proof.
  induction it as [|it [v IH]]; [exists 0; reflexivity|].
  exists 1. rewrite dir_vec_before_S. unfold dir_vec_at.
  rewrite IH. apply next_dir_vec_1d.
Qed.

Lemma projection_single (m seq : mat) (it : nat) :
  projection m seq 1 it = np_dot m [1].
Proof.
  unfold projection, dir_vec_at.
  destruct (dir_vec_before_single seq it) as [v ->].
  now rewrite next_dir_vec_1d.
Qed.

Lemma stop_emd_single (r seq seq' : mat) (ndir : nat) :
  stop_emd r seq ndir 1 = stop_emd r seq' ndir 1.
Proof.
  rewrite !stop_emd_forallb.
  induction (List.seq 0 ndir) as [|it its IH]; [reflexivity|].
  cbn [forallb]. rewrite IH. f_equal.
  unfold direction_failed, extrema_count. now rewrite !projection_single.
Qed.

Section Loops.

Variable x : mat.
Variable ndir : nat.
Variable maxnIMF : option Z.
Variable stp_crit : string.
Variables sd sd2 tol : R.
Variables stp_cnt MaxIterations : Z.
Variable t : list Z.
Variables seq seq' : mat.
Variable N : nat.

Lemma sift_policy_single (m : mat) (c : Z) :
  sift_policy CubicSpline zero_run_midpoints ndir stp_crit sd sd2 tol stp_cnt
              t seq N 1 m c
  = sift_policy CubicSpline zero_run_midpoints ndir stp_crit sd sd2 tol
                stp_cnt t seq' N 1 m c.
Proof.
  unfold sift_policy, stop, fix_.
  now rewrite (envelope_mean_single m t seq seq').
Qed.

Lemma sift_loop_single (fuel : nat) :
  forall (m env : mat) (b : bool) (c nbit : Z) (log : list diagnostic),
    sift_loop CubicSpline zero_run_midpoints ndir stp_crit sd sd2 tol stp_cnt
              MaxIterations t seq N 1 fuel m env b c nbit log
    = sift_loop CubicSpline zero_run_midpoints ndir stp_crit sd sd2 tol
                stp_cnt MaxIterations t seq' N 1 fuel m env b c nbit log.
Proof.
  induction fuel as [|fuel IH]; intros; cbn [sift_loop]; [reflexivity|].
  rewrite sift_policy_single.
  destruct (negb b && (nbit <? MaxIterations)%Z); [|reflexivity].
  destruct (sift_policy _ _ _ _ _ _ _ _ _ _ _ _ _ _) as [[b' env'] c'].
  destruct ((nbit + 1 =? MaxIterations - 1)%Z && (100 <? nbit + 1)%Z).
  - destruct (w <- warnings_getattr "wanr" ;; _); [apply IH | reflexivity].
  - apply IH.
Qed.

Lemma memd_loop_single (fuel : nat) :
  forall (r : mat) (q : list mat) (n_imf nbit : Z) (log : list diagnostic),
    memd_loop CubicSpline zero_run_midpoints x ndir maxnIMF stp_crit sd sd2
              tol stp_cnt MaxIterations t seq N 1 fuel r q n_imf nbit log
    = memd_loop CubicSpline zero_run_midpoints x ndir maxnIMF stp_crit sd sd2
                tol stp_cnt MaxIterations t seq' N 1 fuel r q n_imf nbit log.
Proof.
  induction fuel as [|fuel IH]; intros; cbn [memd_loop];
    rewrite (stop_emd_single r seq seq'); [reflexivity|].
  rewrite sift_policy_single.
  destruct (negb (stop_emd r seq' ndir 1)); [|reflexivity].
  destruct (sift_policy _ _ _ _ _ _ _ _ _ _ _ _ _ _) as [[b' env'] c'].
  destruct (a <- np_max_abs r ;; _) as [[|]|e]; try reflexivity.
  rewrite sift_loop_single.
  destruct (sift_loop _ _ _ _ _ _ _ _ _ _ _ _ _ _ _ _ _ _ _ _)
    as [[[m' log']|e]|]; try reflexivity.
  destruct (match maxnIMF with Some cap => _ | None => false end);
    [reflexivity | apply IH].
Qed.

End Loops.

(** X20. For a signal with one channel every direction vector is [[1]]:
    all the projections are the same, and the result of [memd] does not
    depend on the points that the sampler returns. *)
Theorem memd_single_channel_ignores_sampler
  (create_halton_samples create_halton_samples' : nat -> nat -> mat)
  (fuel : nat) (x : mat) (ndir : nat) (maxnIMF : option Z) (stp_crit : string)
  (sd sd2 tol : R) (stp_cnt MaxIterations : Z) :
  ncols x = 1%nat ->
  (forall (seq seq' : mat) (it it' : nat),
      projection x seq 1 it = projection x seq' 1 it') /\
  memd CubicSpline create_halton_samples zero_run_midpoints fuel x ndir
       maxnIMF stp_crit sd sd2 tol stp_cnt MaxIterations
  = memd CubicSpline create_halton_samples' zero_run_midpoints fuel x ndir
         maxnIMF stp_crit sd sd2 tol stp_cnt MaxIterations.
Proof.
  intros Hx. split.
  - intros. now rewrite !projection_single.
  - unfold memd. rewrite Hx. apply memd_loop_single.
Qed.

End SingleChannel.

(** ** Runs that exhibit the hypotheses of the properties above *)

Lemma const_spline_shape : spline_shape const_spline.
Proof.
  intros tk zk t out k H Hzk Hrows. unfold const_spline in H.
  injection H as <-. split; [apply length_map|].
  apply Forall_forall. intros row Hrow. apply in_map_iff in Hrow.
  destruct Hrow as (_ & <- & _).
  destruct zk as [|r0 zk]; [contradiction|]. now inversion Hrows.
Qed.

(** The run of [memd] on the oscillation between 0 and 1 with a cap of
    two arrays. *)
Lemma memd_capped_oscillation_run :
  memd const_spline no_samples no_zero_runs 2 (oscillation 0 1) 1 (Some 2%Z)
       "stop" (75 / 1000) (75 / 100) (75 / 1000) 2 1000
  = Some ([], Ok [transpose (oscillation (-1 / 2) (1 / 2));
                  transpose (oscillation 0 1)]).
Proof.
  unfold memd.
  change (ncols (oscillation 0 1)) with 1%nat.
  change (length (oscillation 0 1)) with 5%nat.
  change (map Z.of_nat (List.seq 1 5)) with axis5.
  set (seq := transpose (no_samples 1%nat 1%nat)).
  cbn [memd_loop].
  rewrite stop_emd_oscillation by lra. cbn [negb].
  unfold sift_policy at 1. cbn [String.eqb Ascii.eqb Bool.eqb].
  rewrite (stop_oscillation_0_1 _ _ const_spline_reproduces_constants),
          np_max_abs_oscillation_0_1.
  cbn [bind]. rewrite Rltb_false by lra.
  rewrite (sift_loop_oscillation_0_1 _ _ const_spline_reproduces_constants).
  reflexivity.
Qed.

Lemma zero_crossings_without_zero_runs_witness :
  exists l,
    zero_crossings no_zero_runs [0; 1; -1] = Ok l /\
    StronglySorted Z.lt l /\
    forall i, In i l <->
      (0 <= i < len [0; 1; -1])%Z /\
      (nth (Z.to_nat i) [0; 1; -1] 0 = 0 \/
       ((i + 1 < len [0; 1; -1])%Z /\
        nth (Z.to_nat i) [0; 1; -1] 0 * nth (Z.to_nat (i + 1)) [0; 1; -1] 0
        < 0)).
Proof.
  apply (zero_crossings_without_zero_runs no_zero_runs [0; 1; -1]).
  intros j Hj [H0 H1]. cbn [length] in Hj.
  destruct j as [|[|j]]; cbn [nth] in H0, H1; [lra|lra|lia].
Defined.

Lemma boundary_conditions_knots_match_values_witness :
  length [-1; 1; 3; 5; 7]%Z = length (constant5 0) /\
  length [-2; 0; 2; 4; 6; 8]%Z = length [[1]; [1]; [1]; [1]; [1]; [1]] /\
  (length [2%Z] <= length [-1; 1; 3; 5; 7]%Z)%nat /\
  (length [1; 3]%Z <= length [-2; 0; 2; 4; 6; 8]%Z)%nat.
Proof.
  apply (boundary_conditions_knots_match_values
           [2%Z] [1%Z; 3%Z] axis5 [0; 1; 0; 1; 0] (oscillation 0 1) 2).
  apply boundary_conditions_oscillation. lra.
Defined.

Lemma boundary_conditions_reaches_edges_witness :
  (hd 0 [-1; 1; 3; 5; 7] <= hd 0 axis5)%Z /\
  (hd 0 [-2; 0; 2; 4; 6; 8] <= hd 0 axis5)%Z /\
  (last axis5 0 <= last [-1; 1; 3; 5; 7] 0)%Z /\
  (last axis5 0 <= last [-2; 0; 2; 4; 6; 8] 0)%Z.
Proof.
  apply (boundary_conditions_reaches_edges
           [2%Z] [1%Z; 3%Z] axis5 [0; 1; 0; 1; 0] (oscillation 0 1) 2
           _ _ (constant5 0) [[1]; [1]; [1]; [1]; [1]; [1]]).
  - unfold axis5. repeat constructor; lia.
  - reflexivity.
  - lia.
  - apply boundary_conditions_oscillation. lra.
Defined.

Lemma envelope_mean_counts_witness :
  (exists izs,
      mapM (fun it => zero_crossings no_zero_runs
                        (projection (constant5 1) [] 1 it)) (List.seq 0 1)
      = Ok izs /\ [0%Z] = map len izs) /\
  [0%Z] = if forallb (direction_failed (constant5 1) [] 1) (List.seq 0 1)
          then repeat 0%Z 1
          else map (extrema_count (constant5 1) [] 1) (List.seq 0 1).
Proof.
  apply (envelope_mean_counts const_spline no_zero_runs (constant5 1) axis5
           [] 1 1 5 (zeros 5 1) [0%Z] [0%Z] (zeros1 5)).
  apply envelope_mean_constant5. lra.
Defined.

Lemma constant5_direction_fails :
  forallb (direction_failed (constant5 1) [] 1) (List.seq 0 1) = true.
Proof.
  cbn [List.seq forallb]. unfold direction_failed, extrema_count.
  rewrite projection_1d, np_dot_constant5, local_peaks_constant5.
  reflexivity.
Qed.

Lemma stop_halts_when_all_directions_fail_witness :
  stop const_spline no_zero_runs (constant5 1) axis5 (75 / 1000) (75 / 100)
       (75 / 1000) [] 1 5 1
  = (true, zeros 5 1).
Proof.
  apply (stop_halts_when_all_directions_fail const_spline no_zero_runs
           (constant5 1) axis5 [] 1).
  exact constant5_direction_fails.
Defined.

Lemma memd_only_prints_witness :
  @nil diagnostic = [] \/
  (@nil diagnostic = [Printed "forced stop of EMD : too small amplitude"] /\
   exists q,
     Ok [transpose (oscillation (-1 / 2) (1 / 2));
         transpose (oscillation 0 1)] = Ok q).
Proof.
  apply (memd_only_prints const_spline no_samples no_zero_runs 2
           (oscillation 0 1) 1 (Some 2%Z) "stop" (75 / 1000) (75 / 100)
           (75 / 1000) 2 1000).
  exact memd_capped_oscillation_run.
Defined.

Lemma memd_cap_bounds_output_witness :
  (1 <= len [transpose (oscillation (-1 / 2) (1 / 2));
             transpose (oscillation 0 1)] <= Z.max 2 2)%Z.
Proof.
  apply (memd_cap_bounds_output const_spline no_samples no_zero_runs 2
           (oscillation 0 1) 1 2 "stop" (75 / 1000) (75 / 100)
           (75 / 1000) 2 1000 []).
  exact memd_capped_oscillation_run.
Defined.

Lemma sift_loop_small_cap_witness :
  exists m',
    sift_loop const_spline no_zero_runs 1 "stop" (75 / 1000) (75 / 100)
              (75 / 1000) 2 3 axis5 [] 5 1 3 (oscillation 0 1)
              (constant5 (1 / 2)) false 0 0 []
    = Some (Ok (m', [])).
Proof.
  apply (sift_loop_small_cap const_spline no_zero_runs 1 "stop" (75 / 1000)
           (75 / 100) (75 / 1000) 2 3 axis5 [] 5 1 3); lia.
Defined.

Lemma memd_single_channel_ignores_sampler_witness :
  (forall (seq seq' : mat) (it it' : nat),
      projection (oscillation 0 1) seq 1 it
      = projection (oscillation 0 1) seq' 1 it') /\
  memd const_spline no_samples no_zero_runs 2 (oscillation 0 1) 1 None "stop"
       (75 / 1000) (75 / 100) (75 / 1000) 2 1000
  = memd const_spline (fun _ _ => [[1 / 3]]) no_zero_runs 2 (oscillation 0 1)
         1 None "stop" (75 / 1000) (75 / 100) (75 / 1000) 2 1000.
Proof.
  apply (memd_single_channel_ignores_sampler const_spline no_zero_runs
           no_samples (fun _ _ => [[1 / 3]]) 2 (oscillation 0 1) 1 None
           "stop").
  reflexivity.
Defined.

(** ** Shapes of the returned arrays *)

Section Shapes.

Variable CubicSpline : list Z -> mat -> list Z -> result mat.
Variable zero_run_midpoints : list R -> result (list Z).
Hypothesis spline_shaped : spline_shape CubicSpline.

Variable x : mat.
Variable ndir : nat.
Variable maxnIMF : option Z.
Variable stp_crit : string.
Variables sd sd2 tol : R.
Variables stp_cnt MaxIterations : Z.
Variable t : list Z.
Variable seq : mat.
Variables N N_dim : nat.

Hypothesis axis_length : length t = N.

(** Every array that the outer loop appends is the transpose of an array
    of the shape of the signal. *)
Lemma memd_loop_shapes (fuel : nat) :
  forall (r : mat) (Ms : list mat) (n_imf nbit : Z)
         (log log' : list diagnostic) (q' : list mat),
    shaped N N_dim r ->
    Forall (shaped N N_dim) Ms ->
    memd_loop CubicSpline zero_run_midpoints x ndir maxnIMF stp_crit sd sd2
              tol stp_cnt MaxIterations t seq N N_dim fuel r
              (map transpose Ms) n_imf nbit log
    = Some (log', Ok q') ->
    exists Ms', q' = map transpose Ms' /\ Forall (shaped N N_dim) Ms'.
Proof.
  assert (Hsnoc : forall (Ms : list mat) (M : mat),
             Forall (shaped N N_dim) Ms -> shaped N N_dim M ->
             map transpose Ms ++ [transpose M] = map transpose (Ms ++ [M]) /\
             Forall (shaped N N_dim) (Ms ++ [M])).
  { intros Ms M HMs HM. split; [now rewrite map_app|].
    apply Forall_app. split; [exact HMs|]. now constructor. }
  induction fuel as [|fuel IH];
    intros r Ms n_imf nbit log log' q' Hr HMs H;
    cbn [memd_loop] in H;
    (destruct (negb (stop_emd r seq ndir N_dim));
     [| injection H as _ <-; exists (Ms ++ [r]); now apply Hsnoc]).
  - discriminate.
  - pose proof (sift_policy_shaped CubicSpline zero_run_midpoints
                  spline_shaped ndir stp_crit sd sd2 tol stp_cnt t seq N
                  N_dim axis_length N r 0%Z Hr) as Hp.
    destruct (sift_policy _ _ _ _ _ _ _ _ _ _ _ _ r 0%Z) as [[b env] c].
    cbn [fst snd] in Hp.
    destruct (a <- np_max_abs r ;; _) as [[|]|e]; [| |discriminate].
    + destruct b; cbn [negb] in H; [|discriminate].
      injection H as _ <-. exists (Ms ++ [r]). now apply Hsnoc.
    + destruct (sift_loop _ _ _ _ _ _ _ _ _ _ _ _ _ _ _ _ _ _ _ _)
        as [[[m log1]|e]|] eqn:Hsift; try discriminate.
      apply (sift_loop_shaped CubicSpline zero_run_midpoints spline_shaped
               ndir stp_crit sd sd2 tol stp_cnt MaxIterations t seq N N_dim
               axis_length) in Hsift; [|assumption|assumption].
      destruct Hsift as [Hm ->].
      destruct (Hsnoc Ms m HMs Hm) as [Heq HMs'].
      rewrite Heq in H.
      destruct (match maxnIMF with
                | Some cap => (cap <=? n_imf + 1)%Z
                | None => false
                end).
      * injection H as _ <-. exists ((Ms ++ [m]) ++ [r]).
        now apply Hsnoc.
      * eapply IH; [| |exact H]; [|exact HMs'].
        now apply mat_op_shaped.
Qed.

End Shapes.

(** X22. Whenever [memd] returns - for an input that is a full
    [N x N_dim] array, and a spline that returns arrays of the shape it is
    asked for - every array it hands back, modes and residue alike, is the
    transpose of an [N x N_dim] array: the envelope subtracted in each
    sift has the shape of the signal, also on the exception path of the
    stopping evaluators. *)
Theorem memd_returns_arrays_of_input_shape
  (CubicSpline : list Z -> mat -> list Z -> result mat)
  (create_halton_samples : nat -> nat -> mat)
  (zero_run_midpoints : list R -> result (list Z))
  (fuel : nat) (x : mat) (ndir : nat) (maxnIMF : option Z) (stp_crit : string)
  (sd sd2 tol : R) (stp_cnt MaxIterations : Z) (log : list diagnostic)
  (q : list mat) :
  spline_shape CubicSpline ->
  shaped (length x) (ncols x) x ->
  memd CubicSpline create_halton_samples zero_run_midpoints fuel x ndir
       maxnIMF stp_crit sd sd2 tol stp_cnt MaxIterations
  = Some (log, Ok q) ->
  exists Ms, q = map transpose Ms /\
             Forall (shaped (length x) (ncols x)) Ms.
Proof.
  intros Hspline Hx H. unfold memd in H.
  eapply (memd_loop_shapes CubicSpline zero_run_midpoints Hspline x ndir
            maxnIMF stp_crit sd sd2 tol stp_cnt MaxIterations
            (map Z.of_nat (List.seq 1 (length x)))
            (transpose (create_halton_samples ndir (ncols x)))
            (length x) (ncols x)
            ltac:(now rewrite length_map, length_seq)
            fuel x [] 1%Z 0%Z [] log q Hx (Forall_nil _)).
  exact H.
Qed.

Lemma memd_returns_arrays_of_input_shape_witness :
  exists Ms,
    [transpose (oscillation (-1 / 2) (1 / 2)); transpose (oscillation 0 1)]
    = map transpose Ms /\
    Forall (shaped (length (oscillation 0 1)) (ncols (oscillation 0 1))) Ms.
Proof.
  apply (memd_returns_arrays_of_input_shape const_spline no_samples
           no_zero_runs 2 (oscillation 0 1) 1 (Some 2%Z) "stop" (75 / 1000)
           (75 / 100) (75 / 1000) 2 1000 []).
  - exact const_spline_shape.
  - split; [reflexivity|]. unfold oscillation. repeat constructor.
  - exact memd_capped_oscillation_run.
Defined.

(** ** The first evaluation of a mode *)

Section FirstEvaluation.

Variable CubicSpline : list Z -> mat -> list Z -> result mat.
Variable zero_run_midpoints : list R -> result (list Z).

(** X23. Once [stop_emd] has let a residue into the outer loop, an
    envelope computed from that residue is not the all-failed one: [nem]
    holds the extrema counts of the directions and one of them is at least
    3, so in the first evaluation of a mode by [stop] the test
    [any(nem > 2)] holds and the verdict is that of the thresholds. *)
Theorem envelope_after_entry_check (r : mat) (t : list Z) (seq : mat)
  (ndir N N_dim : nat) (env_mean : mat) (nem nzm : list Z) (amp : list R) :
  stop_emd r seq ndir N_dim = false ->
  envelope_mean CubicSpline zero_run_midpoints r t seq ndir N N_dim
  = Ok (env_mean, nem, nzm, amp) ->
  nem = map (extrema_count r seq N_dim) (List.seq 0 ndir) /\
  existsb (fun e => (2 <? e)%Z) nem = true.
Proof.
  intros Hstop H. rewrite stop_emd_forallb in Hstop.
  apply envelope_mean_inv in H. destruct H as [_ H].
  rewrite Hstop in H. subst nem. split; [reflexivity|].
  clear - Hstop. induction (List.seq 0 ndir) as [|it its IH];
    [discriminate Hstop|].
  cbn [forallb map existsb] in *. unfold direction_failed in Hstop at 1.
  destruct (Z.ltb_spec (extrema_count r seq N_dim it) 3) as [Hlt|Hge].
  - cbn [andb] in Hstop. rewrite (IH Hstop). apply orb_true_r.
  - replace (2 <? extrema_count r seq N_dim it)%Z with true
      by (symmetry; apply Z.ltb_lt; lia).
    reflexivity.
Qed.

End FirstEvaluation.

Lemma envelope_after_entry_check_witness :
  [3%Z] = map (extrema_count (oscillation 1 2) [] 1) (List.seq 0 1) /\
  existsb (fun e => (2 <? e)%Z) [3%Z] = true.
Proof.
  apply (envelope_after_entry_check const_spline no_zero_runs
           (oscillation 1 2) axis5 [] 1 5 1 (constant5 ((1 + 2) / 2)) [3%Z]
           [len (@nil Z)]
           [(2 - 1) / 2; (2 - 1) / 2; (2 - 1) / 2; (2 - 1) / 2; (2 - 1) / 2]).
  - apply stop_emd_oscillation; lra.
  - apply (envelope_mean_oscillation const_spline no_zero_runs
             const_spline_reproduces_constants [] 1 2 []); try lra.
    apply zero_crossings_above_zero; lra.
Defined.

(** ** Amplitude of the envelopes *)

Lemma mapM_Forall {A B : Type} (f : A -> result B) (P : B -> Prop)
  (l : list A) :
  (forall a b, f a = Ok b -> P b) ->
  forall out, mapM f l = Ok out -> Forall P out.
Proof.
  intros Hf. induction l as [|a l IH]; intros out H.
  - injection H as <-. constructor.
  - rewrite mapM_step in H.
    apply bind_Ok_inv in H. destruct H as (b & Hb & H).
    apply bind_Ok_inv in H. destruct H as (bs & Hbs & H).
    injection H as <-. constructor; [eapply Hf, Hb|now apply IH].
Qed.

Lemma zip_with_Rplus_nonneg (u w : list R) :
  Forall (fun v => 0 <= v) u -> Forall (fun v => 0 <= v) w ->
  Forall (fun v => 0 <= v) (zip_with Rplus u w).
Proof.
  intros Hu. revert w. induction Hu as [|a u Ha Hu IH]; intros w Hw;
    [constructor|].
  destruct Hw as [|b w Hb Hw]; cbn [zip_with]; constructor; [lra|].
  now apply IH.
Qed.

Section Amplitude.

Variable CubicSpline : list Z -> mat -> list Z -> result mat.
Variable zero_run_midpoints : list R -> result (list Z).

Lemma direction_envelopes_amp_nonneg (m : mat) (t : list Z) (seq : mat)
  (N_dim it : nat) (c : mat * list R) :
  direction_envelopes CubicSpline m t seq N_dim it = Ok c ->
  Forall (fun v => 0 <= v) (snd c).
Proof.
  unfold direction_envelopes. intros H.
  apply bind_Ok_inv in H. destruct H as (bc & _ & H).
  destruct bc as [[[[tmin tmax] zmin] zmax]|]; [|discriminate].
  apply bind_Ok_inv in H. destruct H as (env_min & _ & H).
  apply bind_Ok_inv in H. destruct H as (env_max & _ & H).
  injection H as <-. cbn [snd].
  apply Forall_forall. intros v Hv. apply in_map_iff in Hv.
  destruct Hv as (row & <- & _).
  pose proof (sqrt_pos (np_sum (map (fun v => v * v) row))). lra.
Qed.

(** X24. The amplitude returned by [envelope_mean] has no negative
    entry: each direction adds half the norm of the difference of its two
    envelopes, and the sum is divided by the positive number of directions
    that did not fail (or replaced by zeros when all of them failed). *)
Theorem envelope_mean_amplitude_nonnegative (m : mat) (t : list Z)
  (seq : mat) (ndir N N_dim : nat) (env_mean : mat) (nem nzm : list Z)
  (amp : list R) :
  envelope_mean CubicSpline zero_run_midpoints m t seq ndir N N_dim
  = Ok (env_mean, nem, nzm, amp) ->
  Forall (fun v => 0 <= v) amp.
Proof.
  intros H. unfold envelope_mean in H.
  apply bind_Ok_inv in H. destruct H as (s & Hloop & H).
  apply envelope_loop_spec in Hloop; [|reflexivity].
  destruct Hloop as (cs & Hcs & Hcount & _ & Hamp).
  cbn [acc_amp] in Hamp.
  assert (Hzeros : forall n, Forall (fun v => 0 <= v) (zeros1 n)).
  { intros n. apply Forall_forall. intros v Hv. apply repeat_spec in Hv.
    subst v. lra. }
  destruct (Z.ltb_spec (acc_count s) (Z.of_nat ndir)) as [Hlt|Hge];
    injection H as <- <- <- <-; [|apply Hzeros].
  assert (Hk : 0 < IZR (Z.of_nat ndir - acc_count s))
    by (apply IZR_lt; lia).
  assert (Hsum : Forall (fun v => 0 <= v) (acc_amp s)).
  { rewrite Hamp.
    assert (Hcs' : Forall (fun c : mat * list R =>
                             Forall (fun v => 0 <= v) (snd c)) cs).
    { eapply mapM_Forall; [|exact Hcs]. intros it c Hc.
      eapply direction_envelopes_amp_nonneg, Hc. }
    generalize (Hzeros (length t)). generalize (zeros1 (length t)).
    clear - Hcs'. induction Hcs' as [|c cs Hc Hcs IH]; intros acc Hacc;
      [exact Hacc|].
    cbn [map fold_left]. apply IH. now apply zip_with_Rplus_nonneg. }
  apply Forall_forall. intros v Hv. apply in_map_iff in Hv.
  destruct Hv as (w & <- & Hw). rewrite Forall_forall in Hsum.
  specialize (Hsum w Hw). apply Rmult_le_pos; [exact Hsum|].
  left. now apply Rinv_0_lt_compat.
Qed.

End Amplitude.

Lemma envelope_mean_amplitude_nonnegative_witness :
  Forall (fun v => 0 <= v)
    [(2 - 1) / 2; (2 - 1) / 2; (2 - 1) / 2; (2 - 1) / 2; (2 - 1) / 2].
Proof.
  apply (envelope_mean_amplitude_nonnegative const_spline no_zero_runs
           (oscillation 1 2) axis5 [] 1 5 1 (constant5 ((1 + 2) / 2)) [3%Z]
           [len (@nil Z)]).
  apply (envelope_mean_oscillation const_spline no_zero_runs
           const_spline_reproduces_constants [] 1 2 []); try lra.
  apply zero_crossings_above_zero; lra.
Defined.

(** * The calls that [memd] makes *)

(** ** The residue as a chain of subtractions *)

Lemma memd_loop_residue
  (CubicSpline : list Z -> mat -> list Z -> result mat)
  (zero_run_midpoints : list R -> result (list Z))
  (x : mat) (ndir : nat) (stp_crit : string) (sd sd2 tol : R)
  (stp_cnt MaxIterations : Z) (t : list Z) (seq : mat) (N N_dim : nat)
  (fuel : nat) :
  forall (modes : list mat) (n_imf nbit : Z) (log log' : list diagnostic)
         (q' : list mat),
    memd_loop CubicSpline zero_run_midpoints x ndir None stp_crit sd sd2
              tol stp_cnt MaxIterations t seq N N_dim fuel
              (fold_left mat_sub modes x) (map transpose modes) n_imf nbit log
    = Some (log', Ok q') ->
    exists modes' : list mat,
      q' = map transpose modes' ++ [transpose (fold_left mat_sub modes' x)].
Proof.
  induction fuel as [|fuel IH]; intros modes n_imf nbit log log' q' H;
    cbn [memd_loop] in H;
    (destruct (negb (stop_emd (fold_left mat_sub modes x) seq ndir N_dim));
     [| injection H as <- <-; now exists modes]).
  - discriminate.
  - destruct (sift_policy _ _ _ _ _ _ _ _ _ _ _ _ _ 0%Z) as [[b env] c].
    destruct (a <- np_max_abs _ ;; _) as [[|]|e]; [| |discriminate].
    + destruct b; cbn [negb] in H.
      * injection H as <- <-. now exists modes.
      * discriminate.
    + destruct (sift_loop _ _ _ _ _ _ _ _ _ _ _ _ _ _ _ _ _ _ _ _)
        as [[[m log1]|e]|]; try discriminate.
      eapply (IH (modes ++ [m])).
      rewrite map_app, fold_left_app. exact H.
Qed.

(** X21. Without [maxnIMF], whenever [memd] returns, the returned arrays
    are the transposed modes [m1, ..., mk] in the order of extraction,
    followed by the transposed residue, and the residue is the input from
    which the modes have been subtracted one after the other,
    [((x - m1) - m2) - ... - mk]: no other arithmetic touches it. The
    statement is about which subtractions are made, not about what they
    round to. *)
Theorem memd_residue_is_input_minus_modes
  (CubicSpline : list Z -> mat -> list Z -> result mat)
  (create_halton_samples : nat -> nat -> mat)
  (zero_run_midpoints : list R -> result (list Z))
  (fuel : nat) (x : mat) (ndir : nat) (stp_crit : string)
  (sd sd2 tol : R) (stp_cnt MaxIterations : Z) (log : list diagnostic)
  (q : list mat) :
  memd CubicSpline create_halton_samples zero_run_midpoints fuel x ndir
       None stp_crit sd sd2 tol stp_cnt MaxIterations
  = Some (log, Ok q) ->
  exists modes : list mat,
    q = map transpose modes ++ [transpose (fold_left mat_sub modes x)].
Proof.
  intros H. unfold memd in H.
  apply (memd_loop_residue _ _ _ _ _ _ _ _ _ _ _ _ _ _ fuel [] _ _ _ _ _ H).
Qed.

Lemma memd_residue_is_input_minus_modes_witness :
  exists modes : list mat,
    [transpose (oscillation (-1 / 2) (1 / 2)); transpose (constant5 (1 / 2))]
    = map transpose modes
      ++ [transpose (fold_left mat_sub modes (oscillation 0 1))].
Proof.
  apply (memd_residue_is_input_minus_modes const_spline no_samples
           no_zero_runs 2 (oscillation 0 1) 1 "stop" (75 / 1000) (75 / 100)
           (75 / 1000) 2 1000 []).
  apply (memd_uncapped_oscillation const_spline no_samples no_zero_runs
           const_spline_reproduces_constants 0).
Defined.

(** ** A mode with a run of zeros (C6) *)

Lemma np_dot_stepped (b e : R) :
  np_dot (stepped b e) [1]
  = [b; b + 2 * e; b; b + 2 * e; b + e; b + e; b].
Proof.
  unfold np_dot, stepped, dot_row, np_sum.
  cbn [map zip_with fold_right]. entrywise.
Qed.

Lemma np_dot_constant7 (c : R) :
  np_dot (constant7 c) [1] = [c; c; c; c; c; c; c].
Proof.
  unfold np_dot, constant7, dot_row, np_sum.
  cbn [map zip_with fold_right]. entrywise.
Qed.

Lemma local_peaks_stepped (b e : R) :
  0 < e -> 1 / 100000 <= b ->
  local_peaks [b; b + 2 * e; b; b + 2 * e; b + e; b + e; b]
  = ([2%Z], [1%Z; 3%Z]).
Proof.
  intros He Hb. unfold local_peaks. cbn [forallb].
  rewrite (Rltb_false b) by lra. cbn [andb].
  reval. reflexivity.
Qed.

Lemma local_peaks_stepped_small (e : R) :
  0 < e < 1 / 100000 ->
  local_peaks [- e; e; - e; e; 0; 0; - e] = ([], []).
Proof.
  intros He. apply local_peaks_flat. cbn [forallb].
  rewrite !Rltb_true by lra. reflexivity.
Qed.

Lemma local_peaks_constant7 (c : R) :
  local_peaks [c; c; c; c; c; c; c] = ([], []).
Proof.
  destruct (Rlt_dec c (1 / 100000)) as [Hc|Hc].
  - apply local_peaks_flat. cbn [forallb].
    rewrite Rltb_true by exact Hc. reflexivity.
  - unfold local_peaks. cbn [forallb].
    rewrite Rltb_false by lra. cbn [andb].
    reval. reflexivity.
Qed.

Lemma boundary_conditions_stepped (b e : R) :
  0 < e ->
  boundary_conditions [2%Z] [1%Z; 3%Z] axis7
                      [b; b + 2 * e; b; b + 2 * e; b + e; b + e; b]
                      (stepped b e) 2
  = Ok (Some ([-1; 1; 3; 7; 11]%Z, [-2; 0; 2; 4; 10; 12]%Z,
              [[b]; [b]; [b]; [b]; [b]],
              [[b + 2 * e]; [b + 2 * e]; [b + 2 * e]; [b + 2 * e];
               [b + 2 * e]; [b + 2 * e]])).
Proof.
  intros He. unfold boundary_conditions, axis7, stepped.
  reval. reflexivity.
Qed.

Lemma zero_crossings_stepped_above
  (zero_run_midpoints : list R -> result (list Z)) (b e : R) :
  0 < b -> 0 < e ->
  zero_crossings zero_run_midpoints
                 [b; b + 2 * e; b; b + 2 * e; b + e; b + e; b]
  = Ok [].
Proof.
  intros Hb He. unfold zero_crossings.
  assert (H1 : 0 < b * (b + 2 * e)) by nra.
  assert (H2 : 0 < (b + 2 * e) * b) by nra.
  assert (H3 : 0 < (b + 2 * e) * (b + e)) by nra.
  assert (H4 : 0 < (b + e) * (b + e)) by nra.
  assert (H5 : 0 < (b + e) * b) by nra.
  reval. reflexivity.
Qed.

(** The sifted signal has two neighbouring samples that are exactly zero:
    [zero_crossings] hands over to the numpy call on the runs of zeros. *)
Lemma zero_crossings_stepped_centred
  (zero_run_midpoints : list R -> result (list Z)) (e : R) (exc : exn) :
  0 < e ->
  zero_run_midpoints [- e; e; - e; e; 0; 0; - e] = Raise exc ->
  zero_crossings zero_run_midpoints [- e; e; - e; e; 0; 0; - e] = Raise exc.
Proof.
  intros He Hrun. unfold zero_crossings.
  assert (H1 : - e * e < 0) by nra.
  assert (H2 : e * - e < 0) by nra.
  reval. rewrite Hrun. reflexivity.
Qed.

Section Stepped.

Variable CubicSpline : list Z -> mat -> list Z -> result mat.
Variable zero_run_midpoints : list R -> result (list Z).
Hypothesis spline_constants : reproduces_constants CubicSpline.

Lemma spline_through_stepped_minima (b : R) :
  CubicSpline [-1; 1; 3; 7; 11]%Z [[b]; [b]; [b]; [b]; [b]] axis7
  = Ok (constant7 b).
Proof.
  rewrite (spline_constants _ _ _ [b]); [reflexivity | cbn; lia | reflexivity
                                        | cbn; repeat constructor
                                        | repeat constructor].
Qed.

Lemma spline_through_stepped_maxima (b : R) :
  CubicSpline [-2; 0; 2; 4; 10; 12]%Z [[b]; [b]; [b]; [b]; [b]; [b]] axis7
  = Ok (constant7 b).
Proof.
  rewrite (spline_constants _ _ _ [b]); [reflexivity | cbn; lia | reflexivity
                                        | cbn; repeat constructor
                                        | repeat constructor].
Qed.

(** The envelope of the stepped signal: the two peaks and the three
    troughs give constant envelopes, their mean is the level of the two
    samples at half height. *)
Lemma envelope_mean_stepped (seq : mat) (b e : R) :
  0 < e -> 1 / 100000 <= b ->
  envelope_mean CubicSpline zero_run_midpoints (stepped b e) axis7 seq 1 7 1
  = Ok (constant7 (b + e), [3%Z], [0%Z], [e; e; e; e; e; e; e]).
Proof.
  intros He Hb.
  unfold envelope_mean. cbn [List.seq envelope_loop zeros1 repeat].
  unfold envelope_step. cbn [acc_dir_vec].
  rewrite next_dir_vec_1d, np_dot_stepped,
          (local_peaks_stepped b e He Hb),
          (zero_crossings_stepped_above zero_run_midpoints b e) by lra.
  cbn [bind].
  rewrite (boundary_conditions_stepped b e He). cbn [bind].
  rewrite spline_through_stepped_minima, spline_through_stepped_maxima.
  cbn [bind].
  cbn [acc_count acc_nem acc_nzm acc_env_mean acc_amp length axis7].
  assert (Hs : sqrt ((b + 2 * e - b) * (b + 2 * e - b) + 0) = 2 * e).
  { replace (b + 2 * e - b) with (2 * e) by lra.
    apply sqrt_square_plus_0. lra. }
  unfold constant7, mat_scale, mat_add, mat_sub, zeros, zeros1, np_sum.
  rsimp. rewrite !Hs.
  entrywise.
Qed.

(** The envelope estimator on the sifted signal: the one direction has
    failed, and the call on the runs of zeros ends the function. *)
Lemma envelope_mean_stepped_centred (seq : mat) (e : R) (exc : exn)
  (ndir : nat) :
  0 < e ->
  zero_run_midpoints [- e; e; - e; e; 0; 0; - e] = Raise exc ->
  envelope_mean CubicSpline zero_run_midpoints (stepped (- e) e) axis7 seq
                (S ndir) 7 1
  = Raise exc.
Proof.
  intros He Hrun.
  unfold envelope_mean. cbn [List.seq envelope_loop zeros1 repeat].
  unfold envelope_step at 1. cbn [acc_dir_vec].
  rewrite next_dir_vec_1d, np_dot_stepped.
  replace (- e + 2 * e) with e by lra. replace (- e + e) with 0 by lra.
  destruct (local_peaks [- e; e; - e; e; 0; 0; - e]) as [indmin indmax].
  rewrite (zero_crossings_stepped_centred zero_run_midpoints e exc He Hrun).
  reflexivity.
Qed.

End Stepped.

Lemma sift_stepped :
  mat_sub (stepped 1 tiny) (constant7 (1 + tiny)) = stepped (- tiny) tiny.
Proof. unfold mat_sub, stepped, constant7. cbn [zip_with]. entrywise. Qed.

Lemma residue_stepped :
  mat_sub (stepped 1 tiny) (stepped (- tiny) tiny) = constant7 (1 + tiny).
Proof. unfold mat_sub, stepped, constant7. cbn [zip_with]. entrywise. Qed.

Lemma np_max_abs_stepped : np_max_abs (stepped 1 tiny) = Ok (1 + 2 * tiny).
Proof.
  unfold np_max_abs, stepped, tiny. cbn [concat app map fold_left].
  repeat match goal with
  | |- context [Rabs ?v] => rewrite (Rabs_pos_eq v) by lra
  end.
  repeat match goal with
  | |- context [Rmax ?u ?v] =>
      first [ rewrite (Rmax_left u v) by lra
            | rewrite (Rmax_right u v) by lra ]
  end.
  reflexivity.
Qed.

Lemma stop_emd_stepped (seq : mat) (b e : R) :
  0 < e -> 1 / 100000 <= b -> stop_emd (stepped b e) seq 1 1 = false.
Proof.
  intros He Hb. unfold stop_emd.
  cbn [List.seq fold_left snd fst zeros1 repeat].
  rewrite next_dir_vec_1d, np_dot_stepped, (local_peaks_stepped b e He Hb).
  reflexivity.
Qed.

Lemma stop_emd_constant7 (seq : mat) (c : R) :
  stop_emd (constant7 c) seq 1 1 = true.
Proof.
  unfold stop_emd. cbn [List.seq fold_left snd fst zeros1 repeat].
  rewrite next_dir_vec_1d, np_dot_constant7, local_peaks_constant7.
  reflexivity.
Qed.

Lemma direction_failed_stepped_centred (seq : mat) (e : R) :
  0 < e < 1 / 100000 -> direction_failed (stepped (- e) e) seq 1 0 = true.
Proof.
  intros He. unfold direction_failed, extrema_count.
  rewrite projection_1d, np_dot_stepped.
  replace (- e + 2 * e) with e by lra. replace (- e + e) with 0 by lra.
  now rewrite (local_peaks_stepped_small e He).
Qed.

Lemma tiny_bounds : 0 < tiny < 1 / 100000.
Proof. unfold tiny. lra. Qed.

Section SteppedRun.

Variable CubicSpline : list Z -> mat -> list Z -> result mat.
Variable create_halton_samples : nat -> nat -> mat.
Variable zero_run_midpoints : list R -> result (list Z).
Variable exc : exn.
Hypothesis spline_constants : reproduces_constants CubicSpline.
Hypothesis zero_run_raises :
  zero_run_midpoints [- tiny; tiny; - tiny; tiny; 0; 0; - tiny] = Raise exc.

(** The amplitude-ratio evaluator, with the default thresholds, on the
    stepped signal: the mean envelope is the level [1 + tiny], sifting
    goes on. *)
Lemma stop_stepped (seq : mat) :
  stop CubicSpline zero_run_midpoints (stepped 1 tiny) axis7
       (75 / 1000) (75 / 100) (75 / 1000) seq 1 7 1
  = (false, constant7 (1 + tiny)).
Proof.
  pose proof tiny_bounds as Ht.
  unfold stop.
  rewrite (envelope_mean_stepped CubicSpline zero_run_midpoints
             spline_constants seq 1 tiny) by lra.
  unfold constant7, np_sum. cbn [map fold_right].
  rewrite !(sqrt_square_plus_0 (1 + tiny)) by lra.
  unfold mean_gt, tiny. reval. reflexivity.
Qed.

(** The second evaluation: every exception of the envelope estimator is
    taken for a reason to stop. *)
Lemma stop_stepped_centred (seq : mat) :
  stop CubicSpline zero_run_midpoints (stepped (- tiny) tiny) axis7
       (75 / 1000) (75 / 100) (75 / 1000) seq 1 7 1
  = (true, zeros 7 1).
Proof.
  pose proof tiny_bounds as Ht.
  apply (stop_swallows_exceptions _ _ _ _ _ _ _ _ _ _ _ exc).
  apply envelope_mean_stepped_centred; [lra | exact zero_run_raises].
Qed.

Lemma sift_loop_stepped (seq : mat) (fuel : nat) (c : Z)
  (log : list diagnostic) :
  sift_loop CubicSpline zero_run_midpoints 1 "stop" (75 / 1000) (75 / 100)
            (75 / 1000) 2 1000 axis7 seq 7 1 (S fuel)
            (stepped 1 tiny) (constant7 (1 + tiny)) false c 0 log
  = Some (Ok (stepped (- tiny) tiny, log)).
Proof.
  cbn [sift_loop negb andb Z.ltb Z.compare].
  rewrite sift_stepped. unfold sift_policy.
  cbn [String.eqb Ascii.eqb Bool.eqb].
  rewrite stop_stepped_centred.
  cbn [Z.add Z.eqb Z.sub Z.opp Z.pos_sub Pos.pred_double Pos.eqb Pos.add
       andb].
  destruct fuel; reflexivity.
Qed.

Lemma memd_stepped (fuel : nat) :
  memd CubicSpline create_halton_samples zero_run_midpoints (S (S fuel))
       (stepped 1 tiny) 1 None "stop" (75 / 1000) (75 / 100) (75 / 1000)
       2 1000
  = Some ([], Ok [transpose (stepped (- tiny) tiny);
                  transpose (constant7 (1 + tiny))]).
Proof.
  pose proof tiny_bounds as Ht.
  unfold memd.
  change (ncols (stepped 1 tiny)) with 1%nat.
  change (length (stepped 1 tiny)) with 7%nat.
  change (map Z.of_nat (List.seq 1 7)) with axis7.
  set (seq := transpose (create_halton_samples 1%nat 1%nat)).
  cbn [memd_loop].
  rewrite stop_emd_stepped by lra. cbn [negb].
  unfold sift_policy at 1. cbn [String.eqb Ascii.eqb Bool.eqb].
  rewrite stop_stepped, np_max_abs_stepped. cbn [bind].
  rewrite Rltb_false by lra.
  rewrite sift_loop_stepped.
  rewrite residue_stepped.
  destruct fuel; cbn [memd_loop]; rewrite stop_emd_constant7; reflexivity.
Qed.

Lemma mode_at_stepped (seq : mat) :
  verdict_at CubicSpline zero_run_midpoints 1 "stop" (75 / 1000) (75 / 100)
             (75 / 1000) 2 axis7 seq 7 1 (stepped 1 tiny) 0 = false /\
  mode_at CubicSpline zero_run_midpoints 1 "stop" (75 / 1000) (75 / 100)
          (75 / 1000) 2 axis7 seq 7 1 (stepped 1 tiny) 1
  = stepped (- tiny) tiny.
Proof.
  unfold verdict_at, mode_at. cbn [sift_trace].
  unfold sift_start, sift_policy. cbn [String.eqb Ascii.eqb Bool.eqb].
  rewrite stop_stepped. cbn [fst]. split; [reflexivity|].
  unfold sift_step. cbn [snd]. apply sift_stepped.
Qed.

End SteppedRun.

(** C6. A run of [memd] in which every direction has failed and
    [envelope_mean] does not return the zero arrays. The input is one
    channel of seven samples, [1 + tiny * [0, 2, 0, 2, 1, 1, 0]], with one
    direction and the other arguments at their defaults. The first
    envelope is the level [1 + tiny]; the mode after one sift is
    [tiny * [-1, 1, -1, 1, 0, 0, -1]]. On that mode [local_peaks] finds no
    extremum, so the one direction fails; but the mode has two
    neighbouring zeros, [zero_crossings] reaches [np.diff([0, zer, 0])],
    and the exception of that call leaves [envelope_mean] before the lines
    that would return the zeros. Inside [memd] the bare [except:] of
    [stop] hides it: the run returns the mode and the constant residue. *)
Theorem envelope_mean_all_failed_raises :
  forall (CubicSpline : list Z -> mat -> list Z -> result mat)
         (create_halton_samples : nat -> nat -> mat)
         (zero_run_midpoints : list R -> result (list Z))
         (exc : exn) (fuel : nat),
    reproduces_constants CubicSpline ->
    zero_run_midpoints [- tiny; tiny; - tiny; tiny; 0; 0; - tiny]
    = Raise exc ->
    let seq := transpose (create_halton_samples 1%nat 1%nat) in
    stop_emd (stepped 1 tiny) seq 1 1 = false /\
    verdict_at CubicSpline zero_run_midpoints 1 "stop" (75 / 1000) (75 / 100)
               (75 / 1000) 2 axis7 seq 7 1 (stepped 1 tiny) 0 = false /\
    mode_at CubicSpline zero_run_midpoints 1 "stop" (75 / 1000) (75 / 100)
            (75 / 1000) 2 axis7 seq 7 1 (stepped 1 tiny) 1
    = stepped (- tiny) tiny /\
    direction_failed (stepped (- tiny) tiny) seq 1 0 = true /\
    envelope_mean CubicSpline zero_run_midpoints (stepped (- tiny) tiny)
                  axis7 seq 1 7 1
    = Raise exc /\
    memd CubicSpline create_halton_samples zero_run_midpoints (S (S fuel))
         (stepped 1 tiny) 1 None "stop" (75 / 1000) (75 / 100) (75 / 1000)
         2 1000
    = Some ([], Ok [transpose (stepped (- tiny) tiny);
                    transpose (constant7 (1 + tiny))]).
Proof.
  intros CubicSpline create_halton_samples zero_run_midpoints exc fuel
         Hspline Hrun seq.
  pose proof tiny_bounds as Ht.
  split; [apply stop_emd_stepped; lra|].
  destruct (mode_at_stepped CubicSpline zero_run_midpoints Hspline seq)
    as [Hverdict Hmode].
  split; [exact Hverdict|]. split; [exact Hmode|].
  split; [apply direction_failed_stepped_centred; exact Ht|].
  split.
  - apply envelope_mean_stepped_centred; [lra | exact Hrun].
  - apply memd_stepped with (exc := exc); assumption.
Qed.

Lemma envelope_mean_all_failed_raises_witness :
  direction_failed (stepped (- tiny) tiny) (transpose (no_samples 1 1)) 1 0
  = true /\
  envelope_mean const_spline ragged_diff_raises (stepped (- tiny) tiny)
                axis7 (transpose (no_samples 1 1)) 1 7 1
  = Raise ValueError.
Proof.
  destruct (envelope_mean_all_failed_raises
              const_spline no_samples ragged_diff_raises ValueError 0
              const_spline_reproduces_constants eq_refl)
    as (_ & _ & _ & Hfail & Hraise & _).
  split; [exact Hfail | exact Hraise].
Defined.

(** ** The extrema that [local_peaks] returns *)

(** *** Sorted index arrays *)

Lemma sorted_nth_lt (l : list Z) :
  StronglySorted Z.lt l ->
  forall p q, (p < q < length l)%nat -> (nth p l 0 < nth q l 0)%Z.
Proof.
  induction 1 as [|a l Hl IH Ha]; intros p q Hpq; [cbn in Hpq; lia|].
  destruct q as [|q]; [lia|]. cbn [length] in Hpq.
  destruct p as [|p]; cbn [nth].
  - rewrite Forall_forall in Ha. apply Ha, nth_In. lia.
  - apply IH. lia.
Qed.

Lemma sorted_nth_le (l : list Z) :
  StronglySorted Z.lt l ->
  forall p q, (p <= q < length l)%nat -> (nth p l 0 <= nth q l 0)%Z.
Proof.
  intros Hl p q Hpq. destruct (Nat.eq_dec p q) as [->|Hne]; [lia|].
  apply Z.lt_le_incl, sorted_nth_lt; [exact Hl | lia].
Qed.

Lemma sorted_nth_inv (l : list Z) :
  StronglySorted Z.lt l ->
  forall p q, (p < length l)%nat -> (q < length l)%nat ->
    (nth p l 0 < nth q l 0)%Z -> (p < q)%nat.
Proof.
  intros Hl p q Hp Hq Hlt.
  destruct (Nat.lt_ge_cases p q) as [H|H]; [exact H|].
  pose proof (sorted_nth_le l Hl q p ltac:(lia)). lia.
Qed.

Lemma nth_sorted (l : list Z) :
  (forall p q, (p < q < length l)%nat -> (nth p l 0 < nth q l 0)%Z) ->
  StronglySorted Z.lt l.
Proof.
  induction l as [|a l IH]; intros H; constructor.
  - apply IH. intros p q Hpq. apply (H (S p) (S q)). cbn [length]. lia.
  - apply Forall_forall. intros v Hv.
    destruct (In_nth l v 0%Z Hv) as (n & Hn & <-).
    apply (H 0%nat (S n)). cbn [length]. lia.
Qed.

Lemma nth_np_diffZ (l : list Z) :
  forall j, (S j < length l)%nat ->
    nth j (np_diffZ l) 0%Z = (nth (S j) l 0 - nth j l 0)%Z.
Proof.
  unfold np_diffZ. destruct l as [|a l]; [intros j Hj; cbn in Hj; lia|].
  revert a. induction l as [|b l IH]; intros a j Hj; [cbn in Hj; lia|].
  destruct j as [|j]; [reflexivity|].
  cbn [tl zip_with nth] in *. rewrite IH by (cbn [length] in *; lia).
  reflexivity.
Qed.

Lemma np_diffZ_length (l : list Z) :
  length (np_diffZ l) = (length l - 1)%nat.
Proof.
  unfold np_diffZ. destruct l as [|a l]; [reflexivity|]. revert a.
  induction l as [|b l IH]; intros a; [reflexivity|].
  cbn [tl zip_with length] in *. rewrite IH. lia.
Qed.

Lemma In_combine_map {A B : Type} (f : A -> B) (l : list A) (a : A) (b : B) :
  In (a, b) (combine l (map f l)) -> In a l /\ b = f a.
Proof.
  induction l as [|c l IH]; [intros []|].
  cbn [map combine In]. intros [E|H].
  - injection E as <- <-. auto.
  - destruct (IH H). auto.
Qed.

Lemma nth_set_nth {A : Type} (d : A) (l : list A) (i : nat) (v : A) :
  forall p, nth p (set_nth l i v) d
            = if (Nat.eqb p i && Nat.ltb i (length l))%bool then v
              else nth p l d.
Proof.
  revert i. induction l as [|a l IH]; intros i p.
  - cbn [set_nth length]. destruct i; cbn; now rewrite andb_false_r.
  - destruct i as [|i]; cbn [set_nth length].
    + destruct p as [|p]; reflexivity.
    + destruct p as [|p]; cbn [nth]; [reflexivity|].
      rewrite IH. reflexivity.
Qed.

(** *** The merged positions of [local_peaks] *)

Lemma moved_back_refl (a : list Z) : StronglySorted Z.lt a -> moved_back a a.
Proof.
  intros a_sorted.
  split; [reflexivity|]. intros p Hp. split; [|lia].
  destruct p as [|p]; [lia|]. apply sorted_nth_lt; [exact a_sorted | lia].
Qed.

Lemma moved_back_set (a acc : list Z) (q v : Z) :
  moved_back a acc ->
  (1 <= q)%Z ->
  (nth (Z.to_nat (q - 1)) a 0 < v <= nth (Z.to_nat q) a 0)%Z ->
  moved_back a (set_item acc q v).
Proof.
  intros [Hlen Hacc] Hq Hv. unfold set_item.
  destruct (Z.ltb_spec q 0); [lia|]. split.
  - now rewrite set_nth_length.
  - intros p Hp. rewrite nth_set_nth.
    destruct (Nat.eqb_spec p (Z.to_nat q)) as [->|Hne]; cbn [andb];
      [|now apply Hacc].
    destruct (Nat.ltb_spec (Z.to_nat q) (length acc)); [|now apply Hacc].
    destruct (Z.to_nat q) as [|q'] eqn:Eq; [lia|].
    replace (Z.to_nat (q - 1)) with q' in Hv by lia. lia.
Qed.

Lemma fold_left_invariant {A B : Type} (P : A -> Prop) (f : A -> B -> A)
  (l : list B) :
  (forall b acc, In b l -> P acc -> P (f acc b)) ->
  forall acc, P acc -> P (fold_left f l acc).
Proof.
  induction l as [|b l IH]; intros Hf acc Hacc; [exact Hacc|].
  cbn [fold_left]. apply IH.
  - intros b' acc' Hb'. apply Hf. now right.
  - apply Hf; [now left | exact Hacc].
Qed.

(** The positions of the non-zero differences of [y]. *)
Lemma In_nonzero_differences (y : list R) (i : Z) :
  In i (np_where (map (fun d => negb (Reqb d 0)) (np_diff y))) <->
  (0 <= i)%Z /\ (i + 1 < len y)%Z /\
  nth (Z.to_nat (i + 1)) y 0 <> nth (Z.to_nat i) y 0.
Proof.
  rewrite In_np_where, (nth_map_true _ 0), np_diff_length. unfold len.
  rewrite negb_true_iff.
  split.
  - intros (H0 & Hlen & Hne). rewrite nth_np_diff in Hne by lia.
    replace (Z.to_nat (i + 1)) with (S (Z.to_nat i)) by lia.
    repeat split; try lia.
    intros E. rewrite Reqb_true in Hne by lra. discriminate Hne.
  - intros (H0 & Hlen & Hne).
    replace (Z.to_nat (i + 1)) with (S (Z.to_nat i)) in Hne by lia.
    repeat split; try lia. rewrite nth_np_diff by lia.
    apply Reqb_false. lra.
Qed.

Lemma turning_points_moved_back (y : list R) :
  exists acc,
    turning_points y = acc ++ [(len y - 1)%Z] /\
    moved_back (np_where (map (fun d => negb (Reqb d 0)) (np_diff y))) acc.
Proof.
  unfold turning_points.
  set (a := np_where (map (fun d => negb (Reqb d 0)) (np_diff y))).
  assert (Ha : StronglySorted Z.lt a) by apply np_where_sorted.
  eexists. split; [reflexivity|].
  apply fold_left_invariant; [|now apply moved_back_refl].
  intros [q dq] acc Hin Hacc. cbn [fst snd].
  apply In_combine_map in Hin. destruct Hin as [Hq ->].
  apply in_map_iff in Hq. destruct Hq as (j & <- & Hj).
  apply In_np_where in Hj. destruct Hj as [Hj0 Hj].
  apply (nth_map_true _ 0%Z) in Hj. destruct Hj as [Hjlen Hgap].
  rewrite np_diffZ_length in Hjlen.
  rewrite nth_np_diffZ in Hgap by lia.
  apply negb_true_iff, Z.eqb_neq in Hgap.
  pose proof (sorted_nth_lt a Ha (Z.to_nat j) (S (Z.to_nat j))
                ltac:(lia)) as Hlt.
  replace (Z.to_nat (j + 1)) with (S (Z.to_nat j)) by lia.
  replace (Z.to_nat (j + 1 - 1)) with (Z.to_nat j) by lia.
  apply moved_back_set; [exact Hacc | lia |].
  replace (Z.to_nat (j + 1 - 1)) with (Z.to_nat j) by lia.
  replace (Z.to_nat (j + 1)) with (S (Z.to_nat j)) by lia.
  set (u := nth (Z.to_nat j) a 0%Z) in *.
  set (w := nth (S (Z.to_nat j)) a 0%Z) in *.
  pose proof (Z.div_mod (w - u) 2 ltac:(lia)) as Hdiv.
  pose proof (Z.mod_pos_bound (w - u) 2 ltac:(lia)) as Hmod.
  lia.
Qed.

(** Between two positions without a non-zero difference the signal does
    not change. *)
Lemma constant_between (y : list R) (n : nat) :
  forall lo : Z,
    (0 <= lo)%Z -> (lo + Z.of_nat n < len y)%Z ->
    (forall k, (lo <= k < lo + Z.of_nat n)%Z ->
       ~ In k (np_where (map (fun d => negb (Reqb d 0)) (np_diff y)))) ->
    nth (Z.to_nat lo) y 0 = nth (Z.to_nat (lo + Z.of_nat n)) y 0.
Proof.
  induction n as [|n IH]; intros lo Hlo Hhi Hout.
  - f_equal. lia.
  - replace (lo + Z.of_nat (S n))%Z with (lo + 1 + Z.of_nat n)%Z by lia.
    rewrite <- (IH (lo + 1)%Z) by (try lia; intros k Hk; apply Hout; lia).
    destruct (Req_dec_T (nth (Z.to_nat (lo + 1)) y 0) (nth (Z.to_nat lo) y 0))
      as [E|E]; [now rewrite E|].
    exfalso. apply (Hout lo); [lia|].
    apply In_nonzero_differences. repeat split; try lia. exact E.
Qed.

Lemma constant_from_to (y : list R) (lo hi : Z) :
  (0 <= lo <= hi)%Z -> (hi < len y)%Z ->
  (forall k, (lo <= k < hi)%Z ->
     ~ In k (np_where (map (fun d => negb (Reqb d 0)) (np_diff y)))) ->
  nth (Z.to_nat lo) y 0 = nth (Z.to_nat hi) y 0.
Proof.
  intros Hlo Hhi Hout.
  replace hi with (lo + Z.of_nat (Z.to_nat (hi - lo)))%Z by lia.
  apply constant_between; try lia.
  intros k Hk. apply Hout. lia.
Qed.

(** A sorted array has no entry strictly between two neighbours, before
    its first entry or after its last one. *)
Lemma sorted_gap (a : list Z) (p : nat) (k : Z) :
  StronglySorted Z.lt a -> (p < length a)%nat ->
  (match p with O => True | S p' => (nth p' a 0 < k)%Z end) ->
  (k < nth p a 0)%Z -> ~ In k a.
Proof.
  intros Ha Hp Hlo Hhi Hin.
  destruct (In_nth a k 0%Z Hin) as (r & Hr & <-).
  pose proof (sorted_nth_inv a Ha r p Hr Hp Hhi) as Hrp.
  destruct p as [|p']; [lia|].
  pose proof (sorted_nth_inv a Ha p' r ltac:(lia) Hr Hlo). lia.
Qed.

Lemma sorted_after_last (a : list Z) (k : Z) :
  StronglySorted Z.lt a -> a <> [] ->
  (nth (length a - 1) a 0 < k)%Z -> ~ In k a.
Proof.
  intros Ha Hne Hlo Hin.
  assert (Hlen : (0 < length a)%nat)
    by (destruct a; [contradiction | cbn [length]; lia]).
  destruct (In_nth a k 0%Z Hin) as (r & Hr & <-).
  pose proof (sorted_nth_inv a Ha (length a - 1) r ltac:(lia) Hr Hlo). lia.
Qed.

(** The array [a] of [local_peaks]: it increases strictly, it ends with
    the last index, and the signal takes different values at two
    neighbouring entries. *)
Lemma turning_points_spec (y : list R) :
  y <> [] ->
  (forall p q, (p < q < length (turning_points y))%nat ->
     (nth p (turning_points y) 0 < nth q (turning_points y) 0)%Z) /\
  (forall p, (p < length (turning_points y))%nat ->
     (0 <= nth p (turning_points y) 0 <= len y - 1)%Z) /\
  nth (length (turning_points y) - 1) (turning_points y) 0%Z
  = (len y - 1)%Z /\
  (forall p, (S p < length (turning_points y))%nat ->
     nth (Z.to_nat (nth p (turning_points y) 0%Z)) y 0
     <> nth (Z.to_nat (nth (S p) (turning_points y) 0%Z)) y 0).
Proof.
  intros Hy.
  assert (HN : (1 <= len y)%Z)
    by (unfold len; destruct y; [contradiction | cbn [length]; lia]).
  destruct (turning_points_moved_back y) as (acc & -> & Hlen & Hacc).
  remember (np_where (map (fun d => negb (Reqb d 0)) (np_diff y))) as a
    eqn:Ea.
  assert (Ha : StronglySorted Z.lt a) by (rewrite Ea; apply np_where_sorted).
  assert (Hin : forall p, (p < length a)%nat ->
            (0 <= nth p a 0)%Z /\ (nth p a 0 + 1 < len y)%Z /\
            nth (Z.to_nat (nth p a 0 + 1)%Z) y 0
            <> nth (Z.to_nat (nth p a 0%Z)) y 0).
  { intros p Hp. apply In_nonzero_differences. rewrite <- Ea.
    apply nth_In. exact Hp. }
  assert (Hlo : forall p, (p < length a)%nat -> (0 <= nth p acc 0)%Z).
  { intros p Hp. destruct (Hacc p Hp) as [H1 _].
    destruct p as [|p'].
    - destruct (Hin 0%nat Hp) as [H0 _]. lia.
    - destruct (Hin p' ltac:(lia)) as [H0 _]. lia. }
  assert (Hnth : forall p, (p < length a)%nat ->
            nth p (acc ++ [(len y - 1)%Z]) 0%Z = nth p acc 0%Z)
    by (intros p Hp; apply app_nth1; lia).
  assert (Hend : nth (length a) (acc ++ [(len y - 1)%Z]) 0%Z = (len y - 1)%Z)
    by (rewrite app_nth2 by lia; now rewrite Hlen, Nat.sub_diag).
  rewrite length_app, Hlen. cbn [length].
  replace (length a + 1 - 1)%nat with (length a) by lia.
  repeat split.
  - intros p q Hpq.
    destruct (Nat.eq_dec q (length a)) as [->|Hq].
    + rewrite Hend, Hnth by lia.
      destruct (Hacc p ltac:(lia)) as [_ H2].
      destruct (Hin p ltac:(lia)) as (_ & H3 & _). lia.
    + rewrite !Hnth by lia.
      destruct (Hacc p ltac:(lia)) as [_ H2].
      destruct (Hacc q ltac:(lia)) as [H3 _].
      destruct q as [|q']; [lia|].
      pose proof (sorted_nth_le a Ha p q' ltac:(lia)). lia.
  - destruct (Nat.eq_dec p (length a)) as [->|Hp]; [rewrite Hend; lia|].
    rewrite Hnth by lia. apply Hlo. lia.
  - destruct (Nat.eq_dec p (length a)) as [->|Hp]; [rewrite Hend; lia|].
    rewrite Hnth by lia.
    destruct (Hacc p ltac:(lia)) as [_ H2].
    destruct (Hin p ltac:(lia)) as (_ & H3 & _). lia.
  - exact Hend.
  - intros p Hp.
    assert (Hpa : (p < length a)%nat) by lia.
    destruct (Hacc p Hpa) as [H1 H2].
    destruct (Hin p Hpa) as (H3 & H4 & H5).
    rewrite (Hnth p Hpa).
    (* the value at entry [p] is the value at [a[p]] *)
    assert (E1 : nth (Z.to_nat (nth p acc 0%Z)) y 0
                 = nth (Z.to_nat (nth p a 0%Z)) y 0).
    { apply constant_from_to; [split; [apply Hlo; lia | lia] | lia |].
      intros k Hk. rewrite <- Ea. apply (sorted_gap a p k Ha Hpa); [|lia].
      destruct p as [|p']; [exact I | lia]. }
    (* the value at entry [p + 1] is the value next to [a[p]] *)
    assert (E2 : nth (Z.to_nat (nth p a 0 + 1)%Z) y 0
                 = nth (Z.to_nat (nth (S p) (acc ++ [(len y - 1)%Z]) 0%Z)) y 0).
    { destruct (Nat.eq_dec (S p) (length a)) as [E|E].
      - rewrite E, Hend.
        apply constant_from_to; [lia | lia |].
        intros k Hk. rewrite <- Ea. apply sorted_after_last; [exact Ha | |].
        + intros Hnil. rewrite Hnil in Hpa. cbn [length] in Hpa. lia.
        + replace (length a - 1)%nat with p by lia. lia.
      - rewrite Hnth by lia.
        destruct (Hacc (S p) ltac:(lia)) as [H6 H7].
        destruct (Hin (S p) ltac:(lia)) as (_ & H8 & _).
        apply constant_from_to; [lia | lia |].
        intros k Hk. rewrite <- Ea. apply (sorted_gap a (S p) k Ha); [lia | lia | lia]. }
    rewrite E1, <- E2. intros E. apply H5. now rewrite E.
Qed.

Lemma nth_column (y : list R) (i : nat) :
  (i < length y)%nat -> nth i (map (fun v => [v]) y) [] = [nth i y 0].
Proof.
  intros Hi. rewrite (nth_indep _ [] [0]) by (now rewrite length_map).
  apply (map_nth (fun v => [v])).
Qed.

(** [local_peaks] on a signal that is not replaced by zeros: the extrema
    are those of [peaks] on the values at the merged positions. *)
Lemma local_peaks_turning_points (y : list R) :
  forallb (fun v => Rltb v (1 / 100000)) y = false ->
  local_peaks y
  = if (1 <? len (turning_points y))%Z then
      (map (fun i => nth (Z.to_nat i) (turning_points y) 0%Z)
           (map (fun i => (i + 1)%Z)
                (np_where
                   (rise_then_fall
                      (map Ropp
                           (map (fun i => nth (Z.to_nat i) y 0)
                                (turning_points y)))))),
       map (fun i => nth (Z.to_nat i) (turning_points y) 0%Z)
           (map (fun i => (i + 1)%Z)
                (np_where
                   (rise_then_fall
                      (map (fun i => nth (Z.to_nat i) y 0)
                           (turning_points y))))))
    else ([], []).
Proof.
  intros Hbig.
  assert (Hy : y <> []) by (intros ->; discriminate Hbig).
  destruct (turning_points_spec y Hy) as (_ & Hrange & _ & _).
  unfold local_peaks. rewrite Hbig.
  rewrite (transpose_column y Hy). cbn [map]. rewrite transpose_row.
  rewrite map_column, np_where_rows_column.
  replace (len (map (fun v : R => [v]) y) - 1)%Z with (len y - 1)%Z
    by (unfold len; now rewrite length_map).
  change (fold_left _ _ _ ++ [(len y - 1)%Z]) with (turning_points y).
  set (a := turning_points y) in *.
  set (yv := map (fun i => nth (Z.to_nat i) y 0) a).
  assert (Hya : map (fun i => nth (Z.to_nat i) (map (fun v : R => [v]) y) [])
                    a
                = map (fun v => [v]) yv).
  { unfold yv. rewrite map_map. apply map_ext_in. intros i Hi.
    destruct (In_nth a i 0%Z Hi) as (p & Hp & <-).
    specialize (Hrange p Hp). apply nth_column. unfold len in Hrange. lia. }
  rewrite Hya.
  assert (Hlen : len (map (fun v : R => [v]) yv) = len a)
    by (unfold len, yv; now rewrite !length_map).
  rewrite Hlen.
  destruct (1 <? len a)%Z eqn:Hlong; [|reflexivity].
  assert (Hyv : yv <> []).
  { intros E. apply (f_equal (@length R)) in E. unfold yv in E.
    rewrite length_map in E. cbn [length] in E.
    apply Z.ltb_lt in Hlong. unfold len in Hlong. lia. }
  assert (Hyv' : map Ropp yv <> [])
    by (destruct yv; [contradiction | discriminate]).
  rewrite map_column.
  destruct (peaks_column yv Hyv) as [Hmax Hmaxl].
  destruct (peaks_column (map Ropp yv) Hyv') as [Hmin Hminl].
  destruct (peaks (map (fun v => [v]) yv)) as [pks_max loc_max].
  destruct (peaks (map (fun v => [v]) (map Ropp yv))) as [pks_min loc_min].
  cbn [fst snd] in *.
  assert (Hkeep : forall (pks : mat) (loc : list Z),
            length pks = length loc ->
            (if (0 <? len pks)%Z
             then map (fun i => nth (Z.to_nat i) a 0%Z) loc else [])
            = map (fun i => nth (Z.to_nat i) a 0%Z) loc).
  { intros pks loc Hpl. unfold len. rewrite Hpl.
    destruct loc as [|i0 loc0]; [reflexivity|].
    replace (0 <? Z.of_nat (length (i0 :: loc0)))%Z with true
      by (symmetry; apply Z.ltb_lt; cbn [length]; lia).
    reflexivity. }
  rewrite (Hkeep pks_max loc_max Hmaxl), (Hkeep pks_min loc_min Hminl).
  now rewrite Hmax, Hmin.
Qed.

(** *** Index arrays that alternate *)

Lemma alternating_sorted (l l' : list Z) :
  alternating l l' -> StronglySorted Z.lt l /\ StronglySorted Z.lt l'.
Proof.
  induction 1 as [|a l l' _ [IH1 IH2] Hl' Hl]; [split; constructor|].
  split; [constructor; assumption | assumption].
Qed.

Lemma alternating_length (l l' : list Z) :
  alternating l l' ->
  (length l' <= length l)%nat /\ (length l <= S (length l'))%nat.
Proof.
  induction 1 as [|a l l' _ [IH1 IH2] _ _]; cbn [length]; lia.
Qed.

Lemma alternating_hd (a b : Z) (l l' : list Z) :
  alternating (a :: l) (b :: l') -> (a < b)%Z.
Proof.
  intros H. inversion H as [|? ? ? _ Hl' _]; subst.
  now inversion Hl'.
Qed.

Lemma alternating_last (l l' : list Z) :
  alternating l l' -> l' <> [] ->
  (length l = length l' -> (last l 0 < last l' 0)%Z) /\
  (length l = S (length l') -> (last l' 0 < last l 0)%Z).
Proof.
  induction 1 as [|a l l' H IH Hl' Hl]; intros Hne; [contradiction|].
  pose proof (alternating_length _ _ H) as [Hlen1 Hlen2].
  destruct l as [|b l].
  - destruct l' as [|c [|c' l']]; [contradiction| |cbn [length] in Hlen2; lia].
    cbn [length last]. split; [intros _|lia]. now inversion Hl'.
  - specialize (IH ltac:(discriminate)).
    change (last (a :: b :: l) 0%Z) with (last (b :: l) 0%Z).
    cbn [length] in *. destruct IH as [IH1 IH2].
    split; intros E; [apply IH2 | apply IH1]; lia.
Qed.

Lemma alternating_map (f : Z -> Z) (P : Z -> Prop) (l l' : list Z) :
  (forall u v, P u -> P v -> (u < v)%Z -> (f u < f v)%Z) ->
  alternating l l' -> Forall P l -> Forall P l' ->
  alternating (map f l) (map f l').
Proof.
  intros Hf H. induction H as [|a l l' H IH Hl' Hl]; intros HP HP';
    [constructor|].
  inversion HP as [|? ? Ha HPl]; subst.
  cbn [map]. constructor.
  - now apply IH.
  - apply Forall_map. rewrite Forall_forall in *.
    intros v Hv. apply Hf; auto.
  - apply Forall_map. rewrite Forall_forall in *.
    intros v Hv. apply Hf; auto.
Qed.

(** *** Maxima and minima of a signal without equal neighbours *)

Lemma rise_then_fall_short (u v : R) : rise_then_fall [u; v] = [].
Proof. reflexivity. Qed.

Lemma rise_then_fall_cons (u v w : R) (l : list R) :
  rise_then_fall (u :: v :: w :: l)
  = (Rltb 0 (np_sign (v - u)) && Rltb (np_sign (w - v)) 0)%bool
    :: rise_then_fall (v :: w :: l).
Proof.
  unfold rise_then_fall. rewrite !np_diff_cons.
  cbn [length Nat.sub tl]. rewrite !Nat.sub_0_r.
  cbn [firstn map zip_with]. reflexivity.
Qed.

Lemma extrema_scan (l : list R) :
  forall (u v : R) (i0 : Z),
    (forall j, (S j < length (u :: v :: l))%nat ->
       nth j (u :: v :: l) 0 <> nth (S j) (u :: v :: l) 0) ->
    let maxima :=
      map (fun i => (i + 1)%Z)
          (map fst (filter snd
             (enumerate_from i0 (rise_then_fall (u :: v :: l))))) in
    let minima :=
      map (fun i => (i + 1)%Z)
          (map fst (filter snd
             (enumerate_from i0
                (rise_then_fall (map Ropp (u :: v :: l)))))) in
    Forall (Z.lt i0) maxima /\ Forall (Z.lt i0) minima /\
    (u < v -> alternating maxima minima) /\
    (v < u -> alternating minima maxima).
Proof.
  induction l as [|w l IH]; intros u v i0 Hne.
  - cbn. repeat split; constructor.
  - assert (Hne' : forall j, (S j < length (v :: w :: l))%nat ->
               nth j (v :: w :: l) 0 <> nth (S j) (v :: w :: l) 0).
    { intros j Hj. apply (Hne (S j)). cbn [length] in *. lia. }
    specialize (IH v w (i0 + 1)%Z Hne').
    cbn zeta in IH. destruct IH as (IHM & IHm & IHup & IHdown).
    assert (Huv : u <> v) by (apply (Hne 0%nat); cbn [length]; lia).
    assert (Hvw : v <> w) by (apply (Hne 1%nat); cbn [length]; lia).
    assert (Hweak : forall s : list Z,
              Forall (Z.lt (i0 + 1)) s -> Forall (Z.lt i0) s).
    { intros s Hs. eapply Forall_impl; [|exact Hs]. cbn. intros; lia. }
    cbn [map] in *. rewrite !rise_then_fall_cons.
    cbn [enumerate_from]. rewrite !filter_step. cbn [snd].
    destruct (Rlt_dec u v) as [Huv'|Huv'], (Rlt_dec v w) as [Hvw'|Hvw'].
    + rdec. cbn [andb]. repeat split; auto; intros; try lra; auto.
    + assert (w < v) by lra. rdec. cbn [andb map fst].
      repeat split; auto; try (intros; lra).
      * constructor; [lia | auto].
      * intros _. constructor; [apply IHdown; lra | exact IHm | exact IHM].
    + assert (v < u) by lra. rdec. cbn [andb map fst].
      repeat split; auto; try (intros; lra).
      * constructor; [lia | auto].
      * intros _. constructor; [apply IHup; lra | exact IHM | exact IHm].
    + assert (v < u) by lra. assert (w < v) by lra. rdec. cbn [andb].
      repeat split; auto; intros; try lra; apply IHdown; lra.
Qed.

(** The extrema that [local_peaks] returns, for every signal: minima and
    maxima alternate, and all of them lie strictly inside the signal. *)
Lemma local_peaks_interior_extrema (y : list R) :
  interior_extrema (len y) (fst (local_peaks y)) (snd (local_peaks y)).
Proof.
  destruct (forallb (fun v => Rltb v (1 / 100000)) y) eqn:Hbig.
  { rewrite local_peaks_flat by exact Hbig.
    split; [left; constructor | split; constructor]. }
  assert (Hy : y <> []) by (intros ->; discriminate Hbig).
  rewrite local_peaks_turning_points by exact Hbig.
  destruct (turning_points_spec y Hy) as (Hmono & Hrange & Hlast & Hdiff).
  set (a := turning_points y) in *.
  destruct (1 <? len a)%Z eqn:Hlong;
    [|split; [left; constructor | split; constructor]].
  apply Z.ltb_lt in Hlong. unfold len in Hlong.
  set (yv := map (fun i => nth (Z.to_nat i) y 0) a).
  assert (Hlen : length yv = length a) by (unfold yv; apply length_map).
  assert (Hnth : forall j, (j < length a)%nat ->
            nth j yv 0 = nth (Z.to_nat (nth j a 0%Z)) y 0).
  { intros j Hj. unfold yv.
    rewrite (nth_indep _ 0 (nth (Z.to_nat 0%Z) y 0))
      by (now rewrite length_map).
    apply (map_nth (fun i => nth (Z.to_nat i) y 0)). }
  assert (Hne : forall j, (S j < length yv)%nat ->
            nth j yv 0 <> nth (S j) yv 0).
  { intros j Hj. rewrite !Hnth by lia. apply Hdiff. lia. }
  set (f := fun i : Z => nth (Z.to_nat i) a 0%Z).
  set (P := fun i : Z => (1 <= i)%Z /\ (i + 1 < len a)%Z).
  assert (Hf : forall u v, P u -> P v -> (u < v)%Z -> (f u < f v)%Z).
  { intros u v [Hu1 Hu2] [Hv1 Hv2] Huv. unfold f, len in *.
    apply Hmono. lia. }
  assert (Hbound : forall i, P i -> (1 <= f i <= len y - 2)%Z).
  { intros i [Hi1 Hi2]. unfold f, len in *.
    pose proof (Hmono 0%nat (Z.to_nat i) ltac:(lia)) as H1.
    pose proof (Hmono (Z.to_nat i) (length a - 1)%nat ltac:(lia)) as H2.
    pose proof (Hrange 0%nat ltac:(lia)) as H3.
    rewrite Hlast in H2. lia. }
  assert (HPmax : Forall P (map (fun i => (i + 1)%Z)
                                (np_where (rise_then_fall yv)))).
  { apply Forall_forall. intros i Hi. apply In_rise_then_fall in Hi.
    unfold P, len in *. rewrite Hlen in Hi. lia. }
  assert (HPmin : Forall P (map (fun i => (i + 1)%Z)
                                (np_where (rise_then_fall (map Ropp yv))))).
  { apply Forall_forall. intros i Hi. apply In_rise_then_fall in Hi.
    unfold P, len in *. rewrite length_map, Hlen in Hi. lia. }
  cbn [fst snd]. fold f.
  split; [|split].
  - destruct yv as [|u [|v l]] eqn:Eyv;
      [cbn [length] in Hlen; lia | cbn [length] in Hlen; lia |].
    destruct (extrema_scan l u v 0%Z Hne) as (_ & _ & Hup & Hdown).
    assert (Huv : u <> v) by (apply (Hne 0%nat); cbn [length]; lia).
    destruct (Rlt_dec u v) as [Hlt|Hge].
    + right. apply (alternating_map f P); [exact Hf | | exact HPmax | exact HPmin].
      apply Hup. exact Hlt.
    + left. apply (alternating_map f P); [exact Hf | | exact HPmin | exact HPmax].
      apply Hdown. lra.
  - apply Forall_map. eapply Forall_impl; [|exact HPmin]. exact Hbound.
  - apply Forall_map. eapply Forall_impl; [|exact HPmax]. exact Hbound.
Qed.

(** ** The boundary extender on the axis of [memd] (C7) *)

(** [boundary_conditions] is the sequence of its parts. *)
Lemma boundary_conditions_parts (indmin indmax t : list Z) (x : list R)
  (z : mat) (nbsym : Z) :
  boundary_conditions indmin indmax t x z nbsym
  = if (len indmin + len indmax <? 3)%Z then Ok None
    else
      ' (lmax, lmin, lsym) <- left_symmetry indmin indmax x nbsym ;;
      ' (rmax, rmin, rsym) <- right_symmetry indmin indmax x nbsym ;;
      tlmin <- mirror_about t lsym lmin ;;
      tlmax <- mirror_about t lsym lmax ;;
      trmin <- mirror_about t rsym rmin ;;
      trmax <- mirror_about t rsym rmax ;;
      ' (lmax, lmin, tlmin, tlmax) <-
        left_fallback indmin indmax t nbsym lsym lmax lmin tlmin tlmax ;;
      ' (rmax, rmin, trmin, trmax) <-
        right_fallback indmin indmax t (len x - 1) nbsym rsym rmax rmin
                       trmin trmax ;;
      zlmax <- take z lmax ;;
      zlmin <- take z lmin ;;
      zrmax <- take z rmax ;;
      zrmin <- take z rmin ;;
      tmid_min <- take t indmin ;;
      tmid_max <- take t indmax ;;
      zmid_min <- take z indmin ;;
      zmid_max <- take z indmax ;;
      Ok (Some (tlmin ++ tmid_min ++ trmin,
                tlmax ++ tmid_max ++ trmax,
                zlmin ++ zmid_min ++ zrmin,
                zlmax ++ zmid_max ++ zrmax)).
Proof.
  unfold boundary_conditions, left_symmetry, right_symmetry, left_fallback,
         right_fallback, short_left, short_right, mirror_about.
  destruct (len indmin + len indmax <? 3)%Z; [reflexivity|].
  cbv zeta.
  repeat first
    [ reflexivity
    | match goal with
      | |- bind ?c _ = _ => destruct c as [?v|?e]; cbn [bind]
      | |- (let '(_, _) := ?p in _) = _ => destruct p
      | |- (if ?b then _ else _) = _ => destruct b
      | |- bind (if ?b then _ else _) _ = _ => destruct b
      end ].
Qed.

(** *** Indexing with indices in range *)

Lemma getitem_nth {A : Type} (l : list A) (i : Z) (d : A) :
  (0 <= i < len l)%Z -> getitem l i = Ok (nth (Z.to_nat i) l d).
Proof.
  intros Hi. unfold getitem, len in *.
  destruct (Z.ltb_spec i 0); [lia|].
  destruct (Z.ltb_spec i 0); [lia|].
  destruct (nth_error l (Z.to_nat i)) as [a|] eqn:E.
  - now rewrite (nth_error_nth _ _ d E).
  - apply nth_error_None in E. lia.
Qed.

Lemma getitem_minus_1 {A : Type} (l : list A) (d : A) :
  l <> [] -> getitem l (-1) = Ok (last l d).
Proof.
  intros Hl. unfold getitem. cbn [Z.ltb Z.compare].
  assert (Hn : (1 <= len l)%Z)
    by (unfold len; destruct l; [contradiction | cbn [length]; lia]).
  destruct (Z.ltb_spec (-1 + len l) 0); [lia|].
  destruct (nth_error l (Z.to_nat (-1 + len l))) as [a|] eqn:E.
  - f_equal. symmetry. apply nth_error_last.
    rewrite <- E. f_equal. unfold len. lia.
  - apply nth_error_None in E. unfold len in *. lia.
Qed.

Lemma take_in_range {A : Type} (l : list A) (idx : list Z) (d : A) :
  Forall (fun i => (0 <= i < len l)%Z) idx ->
  take l idx = Ok (map (fun i => nth (Z.to_nat i) l d) idx).
Proof.
  unfold take. induction 1 as [|i idx Hi _ IH]; [reflexivity|].
  rewrite mapM_step, (getitem_nth l i d Hi), IH. reflexivity.
Qed.

(** The axis [np.arange(1, N + 1)] of [memd]. *)
Lemma nth_arange (N : nat) (i : nat) :
  (i < N)%nat -> nth i (map Z.of_nat (List.seq 1 N)) 0%Z = Z.of_nat (S i).
Proof.
  intros Hi. change 0%Z with (Z.of_nat 0) at 1.
  rewrite map_nth, seq_nth by exact Hi. reflexivity.
Qed.

Lemma len_arange (N : nat) : len (map Z.of_nat (List.seq 1 N)) = Z.of_nat N.
Proof. unfold len. now rewrite length_map, length_seq. Qed.

Lemma getitem_arange (N : nat) (i : Z) :
  (0 <= i < Z.of_nat N)%Z ->
  getitem (map Z.of_nat (List.seq 1 N)) i = Ok (i + 1)%Z.
Proof.
  intros Hi. rewrite (getitem_nth _ i 0%Z) by (rewrite len_arange; exact Hi).
  rewrite nth_arange by lia. f_equal. lia.
Qed.

Lemma take_arange (N : nat) (idx : list Z) :
  Forall (fun i => (0 <= i < Z.of_nat N)%Z) idx ->
  take (map Z.of_nat (List.seq 1 N)) idx = Ok (map (fun i => (i + 1)%Z) idx).
Proof.
  intros H. rewrite (take_in_range _ idx 0%Z).
  - f_equal. apply map_ext_in. intros i Hi.
    rewrite Forall_forall in H. specialize (H i Hi).
    rewrite nth_arange by lia. lia.
  - eapply Forall_impl; [|exact H]. cbn. intros i Hi.
    now rewrite len_arange.
Qed.

Lemma mirror_about_arange (N : nat) (sym : Z) (idx : list Z) :
  (0 <= sym < Z.of_nat N)%Z ->
  Forall (fun i => (0 <= i < Z.of_nat N)%Z) idx ->
  mirror_about (map Z.of_nat (List.seq 1 N)) sym idx
  = Ok (map (fun i => (2 * (sym + 1) - (i + 1))%Z) idx).
Proof.
  intros Hsym Hidx. unfold mirror_about.
  rewrite getitem_arange by exact Hsym. cbn [bind].
  rewrite take_arange by exact Hidx. cbn [bind].
  now rewrite map_map.
Qed.

Lemma arange_sorted (N : nat) :
  StronglySorted Z.le (map Z.of_nat (List.seq 1 N)).
Proof.
  generalize 1%nat as lo.
  induction N as [|N IH]; intros lo; cbn [List.seq map]; constructor.
  - apply IH.
  - apply Forall_forall. intros v Hv. apply in_map_iff in Hv.
    destruct Hv as (k & <- & Hk). apply in_seq in Hk. lia.
Qed.

(** *** Slices *)

Lemma slice_bound_range (n i : Z) :
  (0 <= n)%Z -> (0 <= slice_bound n i <= n)%Z.
Proof.
  intros Hn. unfold slice_bound. destruct (Z.ltb_spec i 0); lia.
Qed.

(** An entry of [l[lo:hi]] is an entry of [l], at a position between the
    two bounds. *)
Lemma In_slice (l : list Z) (lo hi v : Z) :
  In v (slice l lo hi) ->
  exists p : nat,
    (slice_bound (len l) lo <= Z.of_nat p < slice_bound (len l) hi)%Z /\
    (p < length l)%nat /\ nth p l 0%Z = v.
Proof.
  unfold slice. intros Hv.
  pose proof (slice_bound_range (len l) lo (len_nonneg l)) as Ha.
  pose proof (slice_bound_range (len l) hi (len_nonneg l)) as Hb.
  set (a := slice_bound (len l) lo) in *.
  set (b := slice_bound (len l) hi) in *.
  destruct (In_nth _ _ 0%Z Hv) as (q & Hq & Hnth).
  rewrite length_firstn, length_skipn in Hq.
  rewrite nth_firstn in Hnth.
  destruct (Nat.ltb_spec q (Z.to_nat (b - a))); [|lia].
  rewrite nth_skipn in Hnth.
  exists (Z.to_nat a + q)%nat. unfold len in *.
  repeat split; try lia; try exact Hnth.
Qed.

Lemma slice_length {A : Type} (l : list A) (lo hi : Z) :
  length (slice l lo hi)
  = Z.to_nat (slice_bound (len l) hi - slice_bound (len l) lo).
Proof.
  unfold slice.
  pose proof (slice_bound_range (len l) lo (len_nonneg l)) as Ha.
  pose proof (slice_bound_range (len l) hi (len_nonneg l)) as Hb.
  rewrite length_firstn, length_skipn. unfold len in *. lia.
Qed.

Lemma nonempty_length {A : Type} (l : list A) :
  (0 < length l)%nat -> l <> [].
Proof. destruct l; [cbn; lia | discriminate]. Qed.

Lemma Forall_rev_slice (P : Z -> Prop) (l : list Z) (lo hi : Z) :
  (forall p : nat,
      (slice_bound (len l) lo <= Z.of_nat p < slice_bound (len l) hi)%Z ->
      (p < length l)%nat -> P (nth p l 0%Z)) ->
  Forall P (rev (slice l lo hi)).
Proof.
  intros H. apply Forall_rev, Forall_forall. intros v Hv.
  destruct (In_slice l lo hi v Hv) as (p & Hp & Hlen & <-).
  now apply H.
Qed.

Lemma Forall_nth_range (P : Z -> Prop) (l : list Z) (p : nat) :
  Forall P l -> (p < length l)%nat -> P (nth p l 0%Z).
Proof.
  intros H Hp. rewrite Forall_forall in H. apply H, nth_In, Hp.
Qed.

Lemma last_nth (l : list Z) : last l 0%Z = nth (length l - 1) l 0%Z.
Proof.
  induction l as [|a l IH]; [reflexivity|].
  destruct l as [|b l]; [reflexivity|].
  change (last (a :: b :: l) 0%Z) with (last (b :: l) 0%Z).
  rewrite IH. cbn [length Nat.sub nth]. now rewrite Nat.sub_0_r.
Qed.

(** *** Extrema that alternate *)

(** What the boundary extender uses of the alternation: which array has
    two entries at least, from the order of the first and of the last
    entries. *)
Lemma interior_extrema_facts (n : Z) (indmin indmax : list Z) :
  interior_extrema n indmin indmax ->
  (3 <= len indmin + len indmax)%Z ->
  StronglySorted Z.lt indmin /\ StronglySorted Z.lt indmax /\
  (1 <= len indmin)%Z /\ (1 <= len indmax)%Z /\ (3 <= n)%Z /\
  ((nth 0 indmax 0 < nth 0 indmin 0)%Z -> (2 <= len indmax)%Z) /\
  (~ (nth 0 indmax 0 < nth 0 indmin 0)%Z ->
   (nth 0 indmin 0 < nth 0 indmax 0)%Z /\ (2 <= len indmin)%Z) /\
  ((last indmax 0 < last indmin 0)%Z -> (2 <= len indmin)%Z) /\
  (~ (last indmax 0 < last indmin 0)%Z -> (2 <= len indmax)%Z).
Proof.
  intros (Halt & Hmin & Hmax) Hcount. unfold len in *.
  assert (Hsorted : StronglySorted Z.lt indmin /\ StronglySorted Z.lt indmax).
  { destruct Halt as [H|H]; apply alternating_sorted in H; tauto. }
  destruct Hsorted as [Smin Smax].
  assert (Hlens : (1 <= length indmin)%nat /\ (1 <= length indmax)%nat).
  { destruct Halt as [H|H]; apply alternating_length in H; lia. }
  assert (Hn : (3 <= n)%Z).
  { destruct indmin as [|i indmin]; [cbn [length] in Hlens; lia|].
    apply Forall_inv in Hmin. lia. }
  split; [exact Smin|]. split; [exact Smax|].
  split; [lia|]. split; [lia|]. split; [exact Hn|].
  split; [|split; [|split]].
  - intros Hfirst. destruct Halt as [Ha|Ha].
    + destruct indmin as [|a indmin]; [cbn [length] in Hlens; lia|].
      destruct indmax as [|b indmax]; [cbn [length] in Hlens; lia|].
      apply alternating_hd in Ha. cbn [nth] in Hfirst. lia.
    + apply alternating_length in Ha. lia.
  - intros Hfirst. destruct Halt as [Ha|Ha].
    + pose proof (alternating_length _ _ Ha) as Hl.
      destruct indmin as [|a indmin]; [cbn [length] in Hlens; lia|].
      destruct indmax as [|b indmax]; [cbn [length] in Hlens; lia|].
      apply alternating_hd in Ha. cbn [nth length] in *. lia.
    + destruct indmin as [|a indmin]; [cbn [length] in Hlens; lia|].
      destruct indmax as [|b indmax]; [cbn [length] in Hlens; lia|].
      apply alternating_hd in Ha. cbn [nth] in *. lia.
  - intros Hlast. destruct Halt as [Ha|Ha].
    + pose proof (alternating_length _ _ Ha) as Hl.
      destruct (alternating_last _ _ Ha) as [H1 H2].
      { apply nonempty_length. lia. }
      destruct (Nat.eq_dec (length indmin) (length indmax)) as [E|E];
        [specialize (H1 E); lia | lia].
    + pose proof (alternating_length _ _ Ha) as Hl.
      destruct (alternating_last _ _ Ha) as [H1 H2].
      { apply nonempty_length. lia. }
      destruct (Nat.eq_dec (length indmax) (S (length indmin))) as [E|E];
        [specialize (H2 E); lia | lia].
  - intros Hlast. destruct Halt as [Ha|Ha].
    + pose proof (alternating_length _ _ Ha) as Hl.
      destruct (alternating_last _ _ Ha) as [H1 H2].
      { apply nonempty_length. lia. }
      destruct (Nat.eq_dec (length indmin) (S (length indmax))) as [E|E];
        [specialize (H2 E); lia | lia].
    + pose proof (alternating_length _ _ Ha) as Hl. lia.
Qed.

Lemma getitem_map_first {A : Type} (f : Z -> A) (l : list Z) :
  l <> [] -> getitem (map f l) 0 = Ok (f (nth 0 l 0%Z)).
Proof.
  destruct l as [|a l]; [contradiction|]. intros _. reflexivity.
Qed.

Lemma last_map_Z (f : Z -> Z) (l : list Z) :
  l <> [] -> last (map f l) 0%Z = f (last l 0%Z).
Proof.
  induction l as [|a l IH]; [contradiction|]. intros _.
  destruct l as [|b l]; [reflexivity|].
  change (last (map f (a :: b :: l)) 0%Z) with (last (map f (b :: l)) 0%Z).
  change (last (a :: b :: l) 0%Z) with (last (b :: l) 0%Z).
  apply IH. discriminate.
Qed.

Lemma getitem_map_last (f : Z -> Z) (l : list Z) :
  l <> [] -> getitem (map f l) (-1) = Ok (f (last l 0%Z)).
Proof.
  intros Hl. rewrite (getitem_minus_1 _ 0%Z).
  - now rewrite last_map_Z.
  - destruct l; [contradiction | discriminate].
Qed.

(** *** The boundary extender on the extrema of a signal *)

Section Extension.

Variables indmin indmax : list Z.
Variable x : list R.
Variable nbsym : Z.

Hypothesis extrema : interior_extrema (len x) indmin indmax.
Hypothesis enough : (3 <= len indmin + len indmax)%Z.
Hypothesis nbsym_pos : (1 <= nbsym)%Z.

Let valid := fun i : Z => (0 <= i < len x)%Z.

Let inner := fun i : Z => (1 <= i <= len x - 2)%Z.

Lemma extrema_valid (l : list Z) :
  Forall (fun i => (1 <= i <= len x - 2)%Z) l -> Forall valid l.
Proof.
  intros H. eapply Forall_impl; [|exact H]. unfold valid. cbn. intros; lia.
Qed.

(** The left edge: both mirrored arrays have entries, all are indices of
    the signal, and when the symmetry point is an extremum the mirrored
    extrema lie beyond it and are extrema themselves. *)
Lemma left_symmetry_spec :
  exists (lmax lmin : list Z) (lsym : Z),
    left_symmetry indmin indmax x nbsym = Ok (lmax, lmin, lsym) /\
    lmax <> [] /\ lmin <> [] /\ Forall valid lmax /\ Forall valid lmin /\
    valid lsym /\
    (lsym <> 0%Z ->
     Forall (Z.lt lsym) lmax /\ Forall (Z.lt lsym) lmin /\
     Forall inner lmax /\ Forall inner lmin).
Proof.
  destruct extrema as (_ & Bmin & Bmax).
  destruct (interior_extrema_facts _ _ _ extrema enough)
    as (Smin & Smax & Lmin & Lmax & Hn & Hfirst & Hsecond & _ & _).
  pose proof (extrema_valid _ Bmin) as Vmin.
  pose proof (extrema_valid _ Bmax) as Vmax.
  assert (Hmin0 : valid (nth 0 indmin 0%Z))
    by (apply Forall_nth_range; [exact Vmin | unfold len in Lmin; lia]).
  assert (Hmax0 : valid (nth 0 indmax 0%Z))
    by (apply Forall_nth_range; [exact Vmax | unfold len in Lmax; lia]).
  assert (Nmin : indmin <> []) by (apply nonempty_length; unfold len in *; lia).
  assert (Nmax : indmax <> []) by (apply nonempty_length; unfold len in *; lia).
  unfold left_symmetry. cbv zeta.
  rewrite (getitem_nth indmax 0 0%Z), (getitem_nth indmin 0 0%Z),
          (getitem_nth x 0 0) by lia.
  cbn [bind]. change (Z.to_nat 0) with 0%nat.
  assert (Vto : forall (l : list Z) (hi : Z),
            Forall valid l -> Forall valid (rev (slice_to l hi))).
  { intros l hi Hl. apply Forall_rev_slice. intros p _ Hp.
    now apply Forall_nth_range. }
  assert (Vfrom1 : forall (l : list Z) (hi : Z),
            Forall valid l -> Forall valid (rev (slice l 1 hi))).
  { intros l hi Hl. apply Forall_rev_slice. intros p _ Hp.
    now apply Forall_nth_range. }
  assert (Islice : forall (l : list Z) (lo hi : Z),
            Forall inner l -> Forall inner (rev (slice l lo hi))).
  { intros l lo hi Hl. apply Forall_rev_slice. intros p _ Hp.
    now apply Forall_nth_range. }
  assert (Above : forall (l : list Z) (hi v : Z),
            StronglySorted Z.lt l -> (v < nth 0 l 0)%Z ->
            Forall (Z.lt v) (rev (slice_to l hi))).
  { intros l hi v Hl Hv. apply Forall_rev_slice. intros p _ Hp.
    pose proof (sorted_nth_le l Hl 0 p ltac:(lia)). lia. }
  assert (Above1 : forall (l : list Z) (hi : Z),
            StronglySorted Z.lt l -> l <> [] ->
            Forall (Z.lt (nth 0 l 0%Z)) (rev (slice l 1 hi))).
  { intros l hi Hl Hne. apply Forall_rev_slice. intros p Hp Hlen.
    assert (Hl1 : (1 <= len l)%Z) by (unfold len; lia).
    unfold slice_bound in Hp at 1. cbn [Z.ltb Z.compare] in Hp.
    apply sorted_nth_lt; [exact Hl | lia]. }
  assert (Long : forall l : list Z,
            (2 <= len l)%Z ->
            rev (slice l 1 (Z.min (len l - 1 + 1) (nbsym + 1))) <> []).
  { intros l Hl. apply nonempty_length.
    rewrite length_rev, slice_length. unfold slice_bound.
    cbn [Z.ltb Z.compare].
    destruct (Z.ltb_spec (Z.min (len l - 1 + 1) (nbsym + 1)) 0); lia. }
  destruct (Z.ltb_spec (nth 0 indmax 0) (nth 0 indmin 0))%Z as [Hlt|Hge].
  - rewrite (getitem_nth x _ 0) by exact Hmin0. cbn [bind].
    destruct (Rltb _ _).
    + eexists _, _, _. split; [reflexivity|].
      split; [apply Long, Hfirst, Hlt|].
      split; [now apply rev_slice_to_nonempty|].
      split; [now apply Vfrom1|]. split; [now apply Vto|].
      split; [exact Hmax0|]. intros _.
      split; [now apply Above1|]. split; [now apply Above|].
      split; now apply Islice.
    + eexists _, _, _. split; [reflexivity|].
      split; [now apply rev_slice_to_nonempty|].
      split; [intros E; apply app_eq_nil in E; destruct E; discriminate|].
      split; [now apply Vto|].
      split; [apply Forall_app; split;
              [now apply Vto | constructor; [unfold valid; lia | constructor]]|].
      split; [unfold valid; lia|]. intros E. contradiction.
  - destruct (Hsecond ltac:(lia)) as [Hlt Hlong].
    rewrite (getitem_nth x _ 0) by exact Hmax0. cbn [bind].
    destruct (Rltb _ _).
    + eexists _, _, _. split; [reflexivity|].
      split; [now apply rev_slice_to_nonempty|].
      split; [apply Long, Hlong|].
      split; [now apply Vto|]. split; [now apply Vfrom1|].
      split; [exact Hmin0|]. intros _.
      split; [now apply Above|]. split; [now apply Above1|].
      split; now apply Islice.
    + eexists _, _, _. split; [reflexivity|].
      split; [intros E; apply app_eq_nil in E; destruct E; discriminate|].
      split; [now apply rev_slice_to_nonempty|].
      split; [apply Forall_app; split;
              [now apply Vto | constructor; [unfold valid; lia | constructor]]|].
      split; [now apply Vto|].
      split; [unfold valid; lia|]. intros E. contradiction.
Qed.

(** The right edge: both mirrored arrays have entries, all are indices
    of the signal, and when the symmetry point is an extremum the mirrored
    extrema are extrema themselves. *)
Lemma right_symmetry_spec :
  exists (rmax rmin : list Z) (rsym : Z),
    right_symmetry indmin indmax x nbsym = Ok (rmax, rmin, rsym) /\
    rmax <> [] /\ rmin <> [] /\ Forall valid rmax /\ Forall valid rmin /\
    valid rsym /\
    (rsym <> (len x - 1)%Z -> Forall inner rmax /\ Forall inner rmin).
Proof.
  destruct extrema as (_ & Bmin & Bmax).
  destruct (interior_extrema_facts _ _ _ extrema enough)
    as (Smin & Smax & Lmin & Lmax & Hn & _ & _ & Hthird & Hfourth).
  pose proof (extrema_valid _ Bmin) as Vmin.
  pose proof (extrema_valid _ Bmax) as Vmax.
  assert (Nmin : indmin <> []) by (apply nonempty_length; unfold len in *; lia).
  assert (Nmax : indmax <> []) by (apply nonempty_length; unfold len in *; lia).
  assert (Nx : x <> []) by (apply nonempty_length; unfold len in *; lia).
  assert (HminL : valid (last indmin 0%Z)).
  { rewrite last_nth. apply Forall_nth_range; [exact Vmin|].
    unfold len in Lmin. lia. }
  assert (HmaxL : valid (last indmax 0%Z)).
  { rewrite last_nth. apply Forall_nth_range; [exact Vmax|].
    unfold len in Lmax. lia. }
  unfold right_symmetry. cbv zeta.
  rewrite (getitem_minus_1 indmax 0%Z Nmax), (getitem_minus_1 indmin 0%Z Nmin),
          (getitem_minus_1 x 0 Nx).
  cbn [bind].
  assert (Vslice : forall (l : list Z) (lo hi : Z),
            Forall valid l -> Forall valid (rev (slice l lo hi))).
  { intros l lo hi Hl. apply Forall_rev_slice. intros p _ Hp.
    now apply Forall_nth_range. }
  assert (Islice : forall (l : list Z) (lo hi : Z),
            Forall inner l -> Forall inner (rev (slice l lo hi))).
  { intros l lo hi Hl. apply Forall_rev_slice. intros p _ Hp.
    now apply Forall_nth_range. }
  assert (Vedge : valid (len x - 1)%Z) by (unfold valid; lia).
  assert (Long : forall l : list Z,
            (2 <= len l)%Z ->
            rev (slice l (Z.max (len l - 1 - nbsym) 0) (-1)) <> []).
  { intros l Hl. apply nonempty_length.
    rewrite length_rev, slice_length. unfold slice_bound.
    cbn [Z.ltb Z.compare].
    destruct (Z.ltb_spec (Z.max (len l - 1 - nbsym) 0) 0); lia. }
  destruct (Z.ltb_spec (last indmax 0) (last indmin 0))%Z as [Hlt|Hge].
  - rewrite (getitem_nth x _ 0) by exact HmaxL. cbn [bind].
    destruct (Rltb _ _).
    + eexists _, _, _. split; [reflexivity|].
      split; [now apply rev_slice_from_nonempty|].
      split; [apply Long, Hthird, Hlt|].
      split; [now apply Vslice|]. split; [now apply Vslice|].
      split; [exact HminL|]. intros _. split; now apply Islice.
    + eexists _, _, _. split; [reflexivity|].
      split; [discriminate|].
      split; [now apply rev_slice_from_nonempty|].
      split; [constructor; [exact Vedge | now apply Vslice]|].
      split; [now apply Vslice|].
      split; [exact Vedge|]. intros E. contradiction.
  - rewrite (getitem_nth x _ 0) by exact HminL. cbn [bind].
    destruct (Rltb _ _).
    + eexists _, _, _. split; [reflexivity|].
      split; [apply Long, Hfourth; lia|].
      split; [now apply rev_slice_from_nonempty|].
      split; [now apply Vslice|]. split; [now apply Vslice|].
      split; [exact HmaxL|]. intros _. split; now apply Islice.
    + eexists _, _, _. split; [reflexivity|].
      split; [now apply rev_slice_from_nonempty|].
      split; [discriminate|].
      split; [now apply Vslice|].
      split; [constructor; [exact Vedge | now apply Vslice]|].
      split; [exact Vedge|]. intros E. contradiction.
Qed.

(** **** On the axis of [memd] *)

Variable z : mat.
Hypothesis rows : length z = length x.

Let t := map Z.of_nat (List.seq 1 (length x)).

Let mirrored := fun sym i : Z => (2 * (sym + 1) - (i + 1))%Z.

Lemma mirror_about_axis (sym : Z) (idx : list Z) :
  valid sym -> Forall valid idx ->
  mirror_about t sym idx = Ok (map (mirrored sym) idx).
Proof.
  intros Hsym Hidx. apply mirror_about_arange; assumption.
Qed.

Lemma take_rows (idx : list Z) :
  Forall valid idx -> exists out, take z idx = Ok out.
Proof.
  intros H. eexists. apply (take_in_range z idx []).
  eapply Forall_impl; [|exact H]. unfold valid, len. cbn.
  rewrite rows. auto.
Qed.

Lemma short_left_axis (lsym : Z) (lmin lmax : list Z) :
  x <> [] -> lmin <> [] -> lmax <> [] ->
  short_left t (map (mirrored lsym) lmin) (map (mirrored lsym) lmax)
  = Ok ((nth 0 lmin 0 <? 2 * lsym)%Z || (nth 0 lmax 0 <? 2 * lsym)%Z)%bool.
Proof.
  intros Hx Hmin Hmax. unfold short_left, t.
  assert (Hn : (1 <= length x)%nat)
    by (destruct x; [contradiction | cbn [length]; lia]).
  rewrite getitem_arange by lia. cbn [bind].
  rewrite !getitem_map_first by assumption. cbn [bind].
  unfold mirrored.
  destruct (Z.ltb_spec (0 + 1) (2 * (lsym + 1) - (nth 0 lmin 0 + 1)))%Z,
           (Z.ltb_spec (nth 0 lmin 0) (2 * lsym))%Z; try lia;
    cbn [bind orb]; [reflexivity|].
  f_equal.
  destruct (Z.ltb_spec (0 + 1) (2 * (lsym + 1) - (nth 0 lmax 0 + 1)))%Z,
           (Z.ltb_spec (nth 0 lmax 0) (2 * lsym))%Z; try lia; reflexivity.
Qed.

Lemma short_right_axis (rsym : Z) (rmin rmax : list Z) :
  x <> [] -> rmin <> [] -> rmax <> [] ->
  short_right t (len x - 1) (map (mirrored rsym) rmin)
              (map (mirrored rsym) rmax)
  = Ok ((2 * rsym - last rmin 0 + 1 <? len x)%Z
        || (2 * rsym - last rmax 0 + 1 <? len x)%Z)%bool.
Proof.
  intros Hx Hmin Hmax. unfold short_right, t.
  assert (Hn : (1 <= length x)%nat)
    by (destruct x; [contradiction | cbn [length]; lia]).
  rewrite getitem_arange by (unfold len; lia). cbn [bind].
  rewrite !getitem_map_last by assumption. cbn [bind].
  unfold mirrored.
  destruct (Z.ltb_spec (2 * (rsym + 1) - (last rmin 0 + 1)) (len x - 1 + 1))%Z,
           (Z.ltb_spec (2 * rsym - last rmin 0 + 1) (len x))%Z; try lia;
    cbn [bind orb]; [reflexivity|].
  f_equal.
  destruct (Z.ltb_spec (2 * (rsym + 1) - (last rmax 0 + 1)) (len x - 1 + 1))%Z,
           (Z.ltb_spec (2 * rsym - last rmax 0 + 1) (len x))%Z; try lia;
    reflexivity.
Qed.

(** A fallback is never taken for a symmetry point at index 0 or 1 on the
    left, nor at the last index on the right. *)
Lemma short_left_inside (lsym : Z) (lmin lmax : list Z) :
  lmin <> [] -> lmax <> [] -> Forall valid lmin -> Forall valid lmax ->
  valid lsym ->
  (lsym <> 0%Z -> Forall (Z.lt lsym) lmax /\ Forall (Z.lt lsym) lmin) ->
  ((nth 0 lmin 0 <? 2 * lsym)%Z || (nth 0 lmax 0 <? 2 * lsym)%Z)%bool = true ->
  (1 < lsym)%Z.
Proof.
  intros Nmin Nmax Vmin Vmax Vsym Hbeyond Hshort.
  assert (H0min : valid (nth 0 lmin 0%Z)).
  { apply Forall_nth_range; [exact Vmin|].
    destruct lmin; [contradiction | cbn [length]; lia]. }
  assert (H0max : valid (nth 0 lmax 0%Z)).
  { apply Forall_nth_range; [exact Vmax|].
    destruct lmax; [contradiction | cbn [length]; lia]. }
  unfold valid in *.
  destruct (Z.eq_dec lsym 0) as [E|E].
  - subst lsym. apply orb_true_iff in Hshort.
    destruct Hshort as [H|H]; apply Z.ltb_lt in H; lia.
  - destruct (Hbeyond E) as [Bmax Bmin].
    assert (H1min : (lsym < nth 0 lmin 0)%Z).
    { apply (Forall_nth_range (Z.lt lsym)); [exact Bmin|].
      destruct lmin; [contradiction | cbn [length]; lia]. }
    assert (H1max : (lsym < nth 0 lmax 0)%Z).
    { apply (Forall_nth_range (Z.lt lsym)); [exact Bmax|].
      destruct lmax; [contradiction | cbn [length]; lia]. }
    apply orb_true_iff in Hshort.
    destruct Hshort as [H|H]; apply Z.ltb_lt in H; lia.
Qed.

Lemma short_right_inside (rsym : Z) (rmin rmax : list Z) :
  rmin <> [] -> rmax <> [] -> Forall valid rmin -> Forall valid rmax ->
  valid rsym ->
  ((2 * rsym - last rmin 0 + 1 <? len x)%Z
   || (2 * rsym - last rmax 0 + 1 <? len x)%Z)%bool = true ->
  (rsym < len x - 1)%Z.
Proof.
  intros Nmin Nmax Vmin Vmax Vsym Hshort.
  assert (HLmin : valid (last rmin 0%Z)).
  { rewrite last_nth. apply Forall_nth_range; [exact Vmin|].
    destruct rmin; [contradiction | cbn [length]; lia]. }
  assert (HLmax : valid (last rmax 0%Z)).
  { rewrite last_nth. apply Forall_nth_range; [exact Vmax|].
    destruct rmax; [contradiction | cbn [length]; lia]. }
  unfold valid in *.
  apply orb_true_iff in Hshort.
  destruct Hshort as [H|H]; apply Z.ltb_lt in H; lia.
Qed.

Lemma hd_mirrored_left (l : list Z) :
  l <> [] -> Forall inner l -> (hd 0 (map (mirrored 0) l) < 1)%Z.
Proof.
  intros Hl Hin. destruct l as [|i l]; [contradiction|].
  apply Forall_inv in Hin. unfold inner, mirrored in *. cbn [map hd]. lia.
Qed.

Lemma last_mirrored_right (l : list Z) :
  l <> [] -> Forall inner l ->
  (len x < last (map (mirrored (len x - 1)) l) 0)%Z.
Proof.
  intros Hl Hin. rewrite last_map_Z by exact Hl.
  assert (H : inner (last l 0%Z)).
  { rewrite last_nth. apply Forall_nth_range; [exact Hin|].
    destruct l; [contradiction | cbn [length]; lia]. }
  unfold inner, mirrored in *. lia.
Qed.

(** The left fallback: it returns, and when it is taken both mirrored
    axes start before the first sample time. *)
Lemma left_fallback_axis (lsym : Z) (lmax lmin : list Z) :
  lmin <> [] -> lmax <> [] -> Forall valid lmin -> Forall valid lmax ->
  valid lsym ->
  (lsym <> 0%Z ->
   Forall (Z.lt lsym) lmax /\ Forall (Z.lt lsym) lmin /\
   Forall inner lmax /\ Forall inner lmin) ->
  exists lmax' lmin' tlmin' tlmax',
    left_fallback indmin indmax t nbsym lsym lmax lmin
                  (map (mirrored lsym) lmin) (map (mirrored lsym) lmax)
    = Ok (lmax', lmin', tlmin', tlmax') /\
    Forall valid lmax' /\ Forall valid lmin' /\
    tlmin' <> [] /\ tlmax' <> [] /\
    (((nth 0 lmin 0 <? 2 * lsym)%Z || (nth 0 lmax 0 <? 2 * lsym)%Z)%bool = true ->
     (hd 0 tlmin' < 1)%Z /\ (hd 0 tlmax' < 1)%Z).
Proof.
  intros Nmin Nmax Vmin Vmax Vsym Hbeyond.
  destruct extrema as (_ & Bmin & Bmax).
  destruct (interior_extrema_facts _ _ _ extrema enough)
    as (_ & _ & Lmin & Lmax & Hn & _).
  assert (Nx : x <> []) by (apply nonempty_length; unfold len in *; lia).
  assert (Nimin : indmin <> [])
    by (apply nonempty_length; unfold len in *; lia).
  assert (Nimax : indmax <> [])
    by (apply nonempty_length; unfold len in *; lia).
  assert (Nmap : forall (f : Z -> Z) (l : list Z), l <> [] -> map f l <> [])
    by (intros f [|? ?] H; [contradiction | discriminate]).
  unfold left_fallback. cbv zeta.
  rewrite (short_left_axis lsym lmin lmax Nx Nmin Nmax). cbn [bind].
  destruct ((nth 0 lmin 0 <? 2 * lsym)%Z || (nth 0 lmax 0 <? 2 * lsym)%Z)%bool
    eqn:Hshort.
  - assert (Hbeyond' :
              lsym <> 0%Z ->
              Forall (Z.lt lsym) lmax /\ Forall (Z.lt lsym) lmin)
      by (intros E; destruct (Hbeyond E) as (? & ? & _); auto).
    pose proof (short_left_inside lsym lmin lmax Nmin Nmax Vmin Vmax Vsym
                  Hbeyond' Hshort) as Hin.
    destruct (Hbeyond ltac:(lia)) as (_ & _ & Imax & Imin).
    rewrite (getitem_nth indmax 0 0%Z) by lia. cbn [bind].
    destruct (Z.eqb_spec lsym 1); [lia|].
    assert (V0 : valid 0%Z) by (unfold valid; lia).
    assert (Vto : forall (l : list Z) (hi : Z),
              Forall valid l -> Forall valid (rev (slice_to l hi))).
    { intros l hi Hl. apply Forall_rev_slice. intros p _ Hp.
      now apply Forall_nth_range. }
    assert (Ito : forall (l : list Z) (hi : Z),
              Forall inner l -> Forall inner (rev (slice_to l hi))).
    { intros l hi Hl. apply Forall_rev_slice. intros p _ Hp.
      now apply Forall_nth_range. }
    pose proof (extrema_valid _ Bmin) as Vimin.
    pose proof (extrema_valid _ Bmax) as Vimax.
    pose proof (rev_slice_to_nonempty indmin nbsym Nimin nbsym_pos) as Rmin.
    pose proof (rev_slice_to_nonempty indmax nbsym Nimax nbsym_pos) as Rmax.
    destruct (lsym =? nth (Z.to_nat 0) indmax 0)%Z.
    + rewrite !mirror_about_axis by auto. cbn [bind].
      eexists _, _, _, _. split; [reflexivity|].
      split; [now apply Vto|]. split; [exact Vmin|].
      split; [now apply Nmap|]. split; [now apply Nmap|]. intros _.
      split; apply hd_mirrored_left; auto.
    + rewrite !mirror_about_axis by auto. cbn [bind].
      eexists _, _, _, _. split; [reflexivity|].
      split; [exact Vmax|]. split; [now apply Vto|].
      split; [now apply Nmap|]. split; [now apply Nmap|]. intros _.
      split; apply hd_mirrored_left; auto.
  - eexists _, _, _, _. split; [reflexivity|].
    split; [exact Vmax|]. split; [exact Vmin|].
    split; [now apply Nmap|]. split; [now apply Nmap|]. discriminate.
Qed.

(** The right fallback: it returns, and when it is taken both mirrored
    axes end after the last sample time. *)
Lemma right_fallback_axis (rsym : Z) (rmax rmin : list Z) :
  rmin <> [] -> rmax <> [] -> Forall valid rmin -> Forall valid rmax ->
  valid rsym ->
  (rsym <> (len x - 1)%Z -> Forall inner rmax /\ Forall inner rmin) ->
  exists rmax' rmin' trmin' trmax',
    right_fallback indmin indmax t (len x - 1) nbsym rsym rmax rmin
                   (map (mirrored rsym) rmin) (map (mirrored rsym) rmax)
    = Ok (rmax', rmin', trmin', trmax') /\
    Forall valid rmax' /\ Forall valid rmin' /\
    trmin' <> [] /\ trmax' <> [] /\
    (((2 * rsym - last rmin 0 + 1 <? len x)%Z
      || (2 * rsym - last rmax 0 + 1 <? len x)%Z)%bool = true ->
     (len x < last trmin' 0)%Z /\ (len x < last trmax' 0)%Z).
Proof.
  intros Nmin Nmax Vmin Vmax Vsym Hinner.
  destruct extrema as (_ & Bmin & Bmax).
  destruct (interior_extrema_facts _ _ _ extrema enough)
    as (_ & _ & Lmin & Lmax & Hn & _).
  assert (Nx : x <> []) by (apply nonempty_length; unfold len in *; lia).
  assert (Nimin : indmin <> [])
    by (apply nonempty_length; unfold len in *; lia).
  assert (Nimax : indmax <> [])
    by (apply nonempty_length; unfold len in *; lia).
  assert (Nmap : forall (f : Z -> Z) (l : list Z), l <> [] -> map f l <> [])
    by (intros f [|? ?] H; [contradiction | discriminate]).
  unfold right_fallback. cbv zeta.
  rewrite (short_right_axis rsym rmin rmax Nx Nmin Nmax). cbn [bind].
  destruct ((2 * rsym - last rmin 0 + 1 <? len x)%Z
            || (2 * rsym - last rmax 0 + 1 <? len x)%Z)%bool eqn:Hshort.
  - pose proof (short_right_inside rsym rmin rmax Nmin Nmax Vmin Vmax Vsym
                  Hshort) as Hin.
    destruct (Hinner ltac:(lia)) as (Imax & Imin).
    rewrite (getitem_minus_1 indmax 0%Z)
      by (apply nonempty_length; unfold len in *; lia).
    cbn [bind].
    destruct (Z.eqb_spec rsym (len x - 1)); [lia|].
    assert (VL : valid (len x - 1)%Z) by (unfold valid; lia).
    assert (Vfrom : forall (l : list Z) (lo : Z),
              Forall valid l -> Forall valid (rev (slice_from l lo))).
    { intros l lo Hl. apply Forall_rev_slice. intros p _ Hp.
      now apply Forall_nth_range. }
    assert (Ifrom : forall (l : list Z) (lo : Z),
              Forall inner l -> Forall inner (rev (slice_from l lo))).
    { intros l lo Hl. apply Forall_rev_slice. intros p _ Hp.
      now apply Forall_nth_range. }
    pose proof (extrema_valid _ Bmin) as Vimin.
    pose proof (extrema_valid _ Bmax) as Vimax.
    pose proof (rev_slice_from_nonempty indmin nbsym Nimin nbsym_pos) as Rmin.
    pose proof (rev_slice_from_nonempty indmax nbsym Nimax nbsym_pos) as Rmax.
    destruct (rsym =? last indmax 0)%Z.
    + rewrite !mirror_about_axis by auto. cbn [bind].
      eexists _, _, _, _. split; [reflexivity|].
      split; [now apply Vfrom|]. split; [exact Vmin|].
      split; [now apply Nmap|]. split; [now apply Nmap|]. intros _.
      split; apply last_mirrored_right; auto.
    + rewrite !mirror_about_axis by auto. cbn [bind].
      eexists _, _, _, _. split; [reflexivity|].
      split; [exact Vmax|]. split; [now apply Vfrom|].
      split; [now apply Nmap|]. split; [now apply Nmap|]. intros _.
      split; apply last_mirrored_right; auto.
  - eexists _, _, _, _. split; [reflexivity|].
    split; [exact Vmax|]. split; [exact Vmin|].
    split; [now apply Nmap|]. split; [now apply Nmap|]. discriminate.
Qed.

(** The boundary extender on the extrema of a signal, with the axis of
    [memd]: every part returns, a fallback is only taken for a symmetry
    point strictly inside the signal, and the function returns the
    extension; after a fallback the extended axes leave the domain on
    that side. *)
Lemma boundary_conditions_on_axis :
  exists (lmax lmin : list Z) (lsym : Z) (rmax rmin : list Z) (rsym : Z)
         (tlmin tlmax trmin trmax : list Z) (sl sr : bool)
         (tmin tmax : list Z) (zmin zmax : mat),
    left_symmetry indmin indmax x nbsym = Ok (lmax, lmin, lsym) /\
    right_symmetry indmin indmax x nbsym = Ok (rmax, rmin, rsym) /\
    mirror_about t lsym lmin = Ok tlmin /\
    mirror_about t lsym lmax = Ok tlmax /\
    mirror_about t rsym rmin = Ok trmin /\
    mirror_about t rsym rmax = Ok trmax /\
    short_left t tlmin tlmax = Ok sl /\
    short_right t (len x - 1) trmin trmax = Ok sr /\
    (sl = true -> (1 < lsym)%Z) /\
    (sr = true -> (rsym < len x - 1)%Z) /\
    boundary_conditions indmin indmax t x z nbsym
    = Ok (Some (tmin, tmax, zmin, zmax)) /\
    (sl = true -> (hd 0 tmin < 1)%Z /\ (hd 0 tmax < 1)%Z) /\
    (sr = true -> (len x < last tmin 0)%Z /\ (len x < last tmax 0)%Z).
Proof.
  destruct left_symmetry_spec
    as (lmax & lmin & lsym & HL & NLmax & NLmin & VLmax & VLmin & VLsym & HLb).
  destruct right_symmetry_spec
    as (rmax & rmin & rsym & HR & NRmax & NRmin & VRmax & VRmin & VRsym & HRb).
  destruct extrema as (_ & Bmin & Bmax).
  destruct (interior_extrema_facts _ _ _ extrema enough)
    as (_ & _ & Lmin & Lmax & Hn & _).
  assert (Nx : x <> []) by (apply nonempty_length; unfold len in *; lia).
  pose proof (extrema_valid _ Bmin) as Vimin.
  pose proof (extrema_valid _ Bmax) as Vimax.
  assert (HLb' :
            lsym <> 0%Z -> Forall (Z.lt lsym) lmax /\ Forall (Z.lt lsym) lmin)
    by (intros E; destruct (HLb E) as (? & ? & _); auto).
  destruct (left_fallback_axis lsym lmax lmin NLmin NLmax VLmin VLmax VLsym HLb)
    as (lmax' & lmin' & tlmin' & tlmax' & HLf & VLmax' & VLmin' & NLtmin &
        NLtmax & HLpast).
  destruct (right_fallback_axis rsym rmax rmin NRmin NRmax VRmin VRmax VRsym
              HRb)
    as (rmax' & rmin' & trmin' & trmax' & HRf & VRmax' & VRmin' & NRtmin &
        NRtmax & HRpast).
  destruct (take_rows lmax' VLmax') as [zlmax Hzlmax].
  destruct (take_rows lmin' VLmin') as [zlmin Hzlmin].
  destruct (take_rows rmax' VRmax') as [zrmax Hzrmax].
  destruct (take_rows rmin' VRmin') as [zrmin Hzrmin].
  destruct (take_rows indmin Vimin) as [zmid_min Hzmin].
  destruct (take_rows indmax Vimax) as [zmid_max Hzmax].
  exists lmax, lmin, lsym, rmax, rmin, rsym.
  exists (map (mirrored lsym) lmin), (map (mirrored lsym) lmax).
  exists (map (mirrored rsym) rmin), (map (mirrored rsym) rmax).
  eexists _, _, _, _, _, _.
  split; [exact HL|]. split; [exact HR|].
  split; [now apply mirror_about_axis|].
  split; [now apply mirror_about_axis|].
  split; [now apply mirror_about_axis|].
  split; [now apply mirror_about_axis|].
  split; [now apply short_left_axis|].
  split; [now apply short_right_axis|].
  split; [now apply short_left_inside|].
  split; [now apply short_right_inside|].
  split.
  - rewrite boundary_conditions_parts.
    destruct (Z.ltb_spec (len indmin + len indmax) 3); [lia|].
    rewrite HL, HR. cbn [bind].
    rewrite !mirror_about_axis by assumption. cbn [bind].
    rewrite HLf. cbn [bind]. rewrite HRf. cbn [bind].
    rewrite Hzlmax, Hzlmin, Hzrmax, Hzrmin. cbn [bind].
    unfold t at 1 2.
    rewrite !take_arange
      by (eapply Forall_impl; [|eassumption]; unfold valid, len; cbn; auto).
    cbn [bind]. rewrite Hzmin, Hzmax. cbn [bind]. reflexivity.
  - split.
    + intros Hs. destruct (HLpast Hs) as [Ha Hb].
      destruct tlmin' as [|a0 ?]; [contradiction|].
      destruct tlmax' as [|b0 ?]; [contradiction|].
      cbn [app hd] in *. auto.
    + intros Hs. destruct (HRpast Hs) as [Ha Hb].
      rewrite !app_assoc, !last_app_nonempty by assumption. auto.
Qed.

End Extension.

Lemma hd_arange (N : nat) :
  (1 <= N)%nat -> hd 0%Z (map Z.of_nat (List.seq 1 N)) = 1%Z.
Proof. destruct N as [|N]; [lia | reflexivity]. Qed.

Lemma last_arange (N : nat) :
  (1 <= N)%nat -> last (map Z.of_nat (List.seq 1 N)) 0%Z = Z.of_nat N.
Proof.
  intros HN. rewrite last_nth, length_map, length_seq.
  rewrite nth_arange by lia. lia.
Qed.


(** A signal of nine samples whose first extremum, a maximum at index 4,
    is too far from the left edge: the fallback is taken. *)
Lemma local_peaks_late_maximum :
  local_peaks [5; 11 / 2; 6; 13 / 2; 7; 0; 7; 0; 3]
  = ([5; 7]%Z, [4; 6]%Z).
Proof.
  unfold local_peaks. cbn [forallb].
  rewrite (Rltb_false 5) by lra. cbn [andb].
  reval. reflexivity.
Qed.

(** On that signal the symmetry point is the first maximum, at index 4;
    the mirrored minima start at time 2, inside the domain, and the
    fallback mirrors the extrema again about index 0. *)
Lemma left_fallback_late_maximum :
  left_symmetry [5; 7]%Z [4; 6]%Z [5; 11 / 2; 6; 13 / 2; 7; 0; 7; 0; 3] 2
  = Ok ([6]%Z, [7; 5]%Z, 4%Z) /\
  mirror_about [1; 2; 3; 4; 5; 6; 7; 8; 9]%Z 4 [7; 5]%Z = Ok [2; 4]%Z /\
  mirror_about [1; 2; 3; 4; 5; 6; 7; 8; 9]%Z 4 [6]%Z = Ok [3]%Z /\
  short_left [1; 2; 3; 4; 5; 6; 7; 8; 9]%Z [2; 4]%Z [3]%Z = Ok true /\
  left_fallback [5; 7]%Z [4; 6]%Z [1; 2; 3; 4; 5; 6; 7; 8; 9]%Z 2 4
                [6]%Z [7; 5]%Z [2; 4]%Z [3]%Z
  = Ok ([6; 4]%Z, [7; 5]%Z, [-6; -4]%Z, [-5; -3]%Z).
Proof.
  repeat split; try reflexivity.
  unfold left_symmetry. reval. reflexivity.
Qed.

